(** * cmd/minimal: a web server with graceful shutdown

    A shallow embedding of [cmd/minimal/main.go] (and of the test doubles of
    [cmd/minimal/main_test.go]) together with the properties of its lifecycle:
    the shutdown coordinator returned by [shutdown], the composition in [run],
    the hello handler and the resolution of the listen address.

    Layout: Part I models the pieces of the Go standard library the program
    calls ([utf8], [unicode], [strings], [errors], [fmt], [net/http]); Part II
    is the program itself; Part III is the semantics of goroutines, channels
    and contexts, followed by the vocabulary of the statements and the
    readiness probe of the tests; Part IV holds the theorems on the
    lifecycle, Part V further properties of [run], [main], the coordinator,
    the tests and the probe. *)

From Stdlib Require Import ZArith String Ascii List Lia Bool DecimalString.
From stdpp Require Import base gmap strings list.

Local Open Scope string_scope.
Local Open Scope Z_scope.

(* ===================================================================== *)
(** * Part I: the standard library, as far as the program uses it        *)
(* ===================================================================== *)

(** Go strings are byte sequences: [string] with one [ascii] per byte. *)

Definition byte_of (c : ascii) : Z := Z.of_N (N_of_ascii c).

Definition len (s : string) : Z := Z.of_nat (String.length s).

Fixpoint sdrop (n : nat) (s : string) : string :=
  match n, s with
  | O, _ => s
  | S n', String _ s' => sdrop n' s'
  | S _, EmptyString => EmptyString
  end.

Fixpoint stake (n : nat) (s : string) : string :=
  match n, s with
  | S n', String c s' => String c (stake n' s')
  | _, _ => EmptyString
  end.

(** [s[lo:hi]]; the program only slices within bounds. *)
Definition slice (s : string) (lo hi : Z) : string :=
  stake (Z.to_nat (hi - lo)) (sdrop (Z.to_nat lo) s).

(** [s[i]]; every use below is guarded by a length test. *)
Definition index (s : string) (i : Z) : Z :=
  match String.get (Z.to_nat i) s with
  | Some c => byte_of c
  | None => 0
  end.

(** [int32] wrap-around, for the one place the decoder shifts a rune. *)
Definition wrap32 (z : Z) : Z := (z + 2 ^ 31) mod 2 ^ 32 - 2 ^ 31.

Module utf8.

Definition RuneError : Z := 0xFFFD.
Definition RuneSelf : Z := 0x80.
Definition UTFMax : Z := 4.

Definition maskx : Z := 0x3F.
Definition mask2 : Z := 0x1F.
Definition mask3 : Z := 0x0F.
Definition mask4 : Z := 0x07.
Definition locb : Z := 0x80.
Definition hicb : Z := 0xBF.

Definition xx : Z := 0xF1.
Definition as_ : Z := 0xF0.
Definition s1 : Z := 0x02.
Definition s2 : Z := 0x13.
Definition s3 : Z := 0x03.
Definition s4 : Z := 0x23.
Definition s5 : Z := 0x34.
Definition s6 : Z := 0x04.
Definition s7 : Z := 0x44.

(** The table [first], indexed by the first byte of a sequence. *)
Definition first (b : Z) : Z :=
  if b <? 0x80 then as_
  else if b <? 0xC2 then xx
  else if b <? 0xE0 then s1
  else if b =? 0xE0 then s2
  else if b <? 0xED then s3
  else if b =? 0xED then s4
  else if b <? 0xF0 then s3
  else if b =? 0xF0 then s5
  else if b <? 0xF4 then s6
  else if b =? 0xF4 then s7
  else xx.

(** [acceptRanges], a 16-entry array of which five entries are set. *)
Definition acceptRanges (i : Z) : Z * Z :=
  if i =? 0 then (locb, hicb)
  else if i =? 1 then (0xA0, hicb)
  else if i =? 2 then (locb, 0x9F)
  else if i =? 3 then (0x90, hicb)
  else if i =? 4 then (locb, 0x8F)
  else (0, 0).

Definition RuneStart (b : Z) : bool := negb (Z.land b 0xC0 =? 0x80).

Definition DecodeRuneInString (s : string) : Z * Z :=
  let n := len s in
  if n <? 1 then (RuneError, 0) else
  let s0 := index s 0 in
  let x := first s0 in
  if as_ <=? x then
    let mask := Z.shiftr (wrap32 (Z.shiftl x 31)) 31 in
    (Z.lor (Z.land s0 (Z.lnot mask)) (Z.land RuneError mask), 1)
  else
  let sz := Z.land x 7 in
  let accept := acceptRanges (Z.shiftr x 4) in
  if n <? sz then (RuneError, 1) else
  let b1 := index s 1 in
  if (b1 <? fst accept) || (snd accept <? b1) then (RuneError, 1) else
  if sz <=? 2 then
    (Z.lor (Z.shiftl (Z.land s0 mask2) 6) (Z.land b1 maskx), 2)
  else
  let b2 := index s 2 in
  if (b2 <? locb) || (hicb <? b2) then (RuneError, 1) else
  if sz <=? 3 then
    (Z.lor (Z.lor (Z.shiftl (Z.land s0 mask3) 12) (Z.shiftl (Z.land b1 maskx) 6))
           (Z.land b2 maskx), 3)
  else
  let b3 := index s 3 in
  if (b3 <? locb) || (hicb <? b3) then (RuneError, 1) else
  (Z.lor (Z.lor (Z.lor (Z.shiftl (Z.land s0 mask4) 18) (Z.shiftl (Z.land b1 maskx) 12))
                (Z.shiftl (Z.land b2 maskx) 6))
         (Z.land b3 maskx), 4).

(** The backwards search for a start byte:
    [for start--; start >= lim; start-- { if RuneStart(s[start]) { break } }]. *)
Fixpoint findStart (fuel : nat) (s : string) (start lim : Z) : Z :=
  match fuel with
  | O => start
  | S fuel' =>
      if start <? lim then start
      else if RuneStart (index s start) then start
      else findStart fuel' s (start - 1) lim
  end.

Definition DecodeLastRuneInString (s : string) : Z * Z :=
  let end_ := len s in
  if end_ =? 0 then (RuneError, 0) else
  let start := end_ - 1 in
  let r := index s start in
  if r <? RuneSelf then (r, 1) else
  let lim := Z.max 0 (end_ - UTFMax) in
  let start := findStart (Z.to_nat UTFMax) s (start - 1) lim in
  let start := if start <? 0 then 0 else start in
  let '(r, size) := DecodeRuneInString (slice s start end_) in
  if negb (start + size =? end_) then (RuneError, 1) else (r, size).

End utf8.

Module unicode.

Definition MaxLatin1 : Z := 0xFF.

(** [White_Space] beyond Latin-1, as ranges [(lo, hi)]. *)
Definition White_Space : list (Z * Z) :=
  [ (0x1680, 0x1680); (0x2000, 0x200a); (0x2028, 0x2029);
    (0x202f, 0x202f); (0x205f, 0x205f); (0x3000, 0x3000) ].

Definition isExcludingLatin (tab : list (Z * Z)) (r : Z) : bool :=
  existsb (fun '(lo, hi) => (lo <=? r) && (r <=? hi)) tab.

Definition IsSpace (r : Z) : bool :=
  if (0 <=? r) && (r <=? MaxLatin1) then
    (r =? 0x09) || (r =? 0x0A) || (r =? 0x0B) || (r =? 0x0C) || (r =? 0x0D)
    || (r =? 0x20) || (r =? 0x85) || (r =? 0xA0)
  else isExcludingLatin White_Space r.

End unicode.

Module strings.

(** [asciiSpace]: 1 for tab, newline, vertical tab, form feed, carriage
    return and space. *)
Definition asciiSpace (c : Z) : Z :=
  if (c =? 0x09) || (c =? 0x0A) || (c =? 0x0B) || (c =? 0x0C) || (c =? 0x0D) || (c =? 0x20)
  then 1 else 0.

(** [for i, r := range s { if f(r) == truth { return i } }; return -1] *)
Fixpoint indexFunc_loop (fuel : nat) (s : string) (i : Z)
    (f : Z -> bool) (truth : bool) : Z :=
  match fuel with
  | O => -1
  | S fuel' =>
      if len s <=? i then -1 else
      let '(r, size) := utf8.DecodeRuneInString (slice s i (len s)) in
      if Bool.eqb (f r) truth then i
      else indexFunc_loop fuel' s (i + size) f truth
  end.

Definition indexFunc (s : string) (f : Z -> bool) (truth : bool) : Z :=
  indexFunc_loop (String.length s) s 0 f truth.

(** [for i := len(s); i > 0; { r, size := DecodeLastRuneInString(s[0:i]);
     i -= size; if f(r) == truth { return i } }; return -1] *)
Fixpoint lastIndexFunc_loop (fuel : nat) (s : string) (i : Z)
    (f : Z -> bool) (truth : bool) : Z :=
  match fuel with
  | O => -1
  | S fuel' =>
      if i <=? 0 then -1 else
      let '(r, size) := utf8.DecodeLastRuneInString (slice s 0 i) in
      let i := i - size in
      if Bool.eqb (f r) truth then i
      else lastIndexFunc_loop fuel' s i f truth
  end.

Definition lastIndexFunc (s : string) (f : Z -> bool) (truth : bool) : Z :=
  lastIndexFunc_loop (String.length s) s (len s) f truth.

Definition TrimLeftFunc (s : string) (f : Z -> bool) : string :=
  let i := indexFunc s f false in
  if i =? -1 then "" else slice s i (len s).

Definition TrimRightFunc (s : string) (f : Z -> bool) : string :=
  let i := lastIndexFunc s f false in
  let i :=
    if (0 <=? i) && (utf8.RuneSelf <=? index s i)
    then i + snd (utf8.DecodeRuneInString (slice s i (len s)))
    else i + 1 in
  slice s 0 i.

Definition TrimFunc (s : string) (f : Z -> bool) : string :=
  TrimRightFunc (TrimLeftFunc s f) f.

(** The two scans of [TrimSpace]; each either stops at an index or meets
    a byte outside ASCII and hands over to the rune-aware functions. *)
Inductive scan : Type :=
| Stopped (i : Z)
| NonASCII (i : Z).

Fixpoint scanStart (fuel : nat) (s : string) (start : Z) : scan :=
  match fuel with
  | O => Stopped start
  | S fuel' =>
      if len s <=? start then Stopped start else
      let c := index s start in
      if utf8.RuneSelf <=? c then NonASCII start
      else if asciiSpace c =? 0 then Stopped start
      else scanStart fuel' s (start + 1)
  end.

Fixpoint scanStop (fuel : nat) (s : string) (start stop : Z) : scan :=
  match fuel with
  | O => Stopped stop
  | S fuel' =>
      if stop <=? start then Stopped stop else
      let c := index s (stop - 1) in
      if utf8.RuneSelf <=? c then NonASCII stop
      else if asciiSpace c =? 0 then Stopped stop
      else scanStop fuel' s start (stop - 1)
  end.

Definition TrimSpace (s : string) : string :=
  match scanStart (String.length s) s 0 with
  | NonASCII start => TrimFunc (slice s start (len s)) unicode.IsSpace
  | Stopped start =>
      match scanStop (String.length s) s start (len s) with
      | NonASCII stop => TrimRightFunc (slice s start stop) unicode.IsSpace
      | Stopped stop => slice s start stop
      end
  end.

(** The runes of a string, as [for _, r := range s] yields them. *)
Fixpoint runes_loop (fuel : nat) (s : string) : list Z :=
  match fuel with
  | O => []
  | S fuel' =>
      if len s <? 1 then [] else
      let '(r, size) := utf8.DecodeRuneInString s in
      r :: runes_loop fuel' (slice s size (len s))
  end.

Definition runes (s : string) : list Z := runes_loop (String.length s) s.

End strings.

(** "Consists only of whitespace", in the words of the specification: every
    rune of the string is white space as Unicode defines it. The empty
    string qualifies. *)
Definition only_whitespace (s : string) : bool :=
  forallb unicode.IsSpace (strings.runes s).

Module time.

(** [time.Duration] is an [int64] count of nanoseconds; [time.Time] is
    modelled as nanoseconds on the monotonic clock. *)
Definition Duration : Type := Z.
Definition Time : Type := Z.

Definition Nanosecond : Duration := 1.
Definition Microsecond : Duration := 1000 * Nanosecond.
Definition Millisecond : Duration := 1000 * Microsecond.
Definition Second : Duration := 1000 * Millisecond.

End time.

Module errors.

(** An [error] value: a sentinel of the standard library, a value made by
    [errors.New] (a pointer, so an identity comes with the text), or a
    value wrapping another one ([fmt.Errorf] with [%w]). [nil] is [None]
    of [option error]. *)
Inductive error : Type :=
| ErrServerClosed
| DeadlineExceeded
| Canceled
| New (id : nat) (text : string)
| Wrap (text : string) (err : error).

Definition Unwrap (e : error) : option error :=
  match e with
  | Wrap _ inner => Some inner
  | _ => None
  end.

Fixpoint eqb (a b : error) : bool :=
  match a, b with
  | ErrServerClosed, ErrServerClosed => true
  | DeadlineExceeded, DeadlineExceeded => true
  | Canceled, Canceled => true
  | New i s, New j t => Nat.eqb i j && String.eqb s t
  | Wrap s x, Wrap t y => String.eqb s t && eqb x y
  | _, _ => false
  end.

(** The loop of [errors.is]: compare, then unwrap. *)
Fixpoint is_ (err target : error) : bool :=
  if eqb err target then true
  else match err with
       | Wrap _ inner => is_ inner target
       | _ => false
       end.

(** [errors.Is]; the target is never [nil] in this program. *)
Definition Is (err : option error) (target : error) : bool :=
  match err with
  | None => false
  | Some e => is_ e target
  end.

Fixpoint Error (e : error) : string :=
  match e with
  | ErrServerClosed => "http: Server closed"
  | DeadlineExceeded => "context deadline exceeded"
  | Canceled => "context canceled"
  | New _ text => text
  | Wrap text inner => text +:+ Error inner
  end.

End errors.

Abbreviation error := errors.error.

Module fmt.

(** The formatting loop of [fmt.Sprintf] for string operands: text is
    copied, [%s] and [%v] insert the next operand as it is, [%%] is a
    percent sign; flags, widths and the other verbs are not used by the
    program and are rendered with the markers [fmt] prints for a bad
    verb. *)
Definition badVerb (verb : ascii) (arg : string) : string :=
  "%!" +:+ String verb ("(string=" +:+ arg +:+ ")").

Definition missing (verb : ascii) : string :=
  "%!" +:+ String verb "(MISSING)".

Fixpoint extra (a : list string) : string :=
  match a with
  | [] => ""
  | [x] => "string=" +:+ x
  | x :: rest => "string=" +:+ x +:+ ", " +:+ extra rest
  end.

Fixpoint doPrintf (format : string) (a : list string) : string :=
  match format with
  | EmptyString =>
      match a with
      | [] => ""
      | _ => "%!(EXTRA " +:+ extra a +:+ ")"
      end
  | String c rest =>
      if Ascii.eqb c "%"%char then
        match rest with
        | EmptyString => "%!(NOVERB)"
        | String verb rest' =>
            if Ascii.eqb verb "%"%char then String "%"%char (doPrintf rest' a)
            else match a with
                 | [] => missing verb +:+ doPrintf rest' []
                 | x :: a' =>
                     if Ascii.eqb verb "s"%char || Ascii.eqb verb "v"%char
                     then x +:+ doPrintf rest' a'
                     else badVerb verb x +:+ doPrintf rest' a'
                 end
        end
      else String c (doPrintf rest a)
  end.

Definition Sprintf (format : string) (a : list string) : string :=
  doPrintf format a.

End fmt.

Module os.

Inductive Signal : Type := SIGHUP | SIGINT | SIGQUIT | SIGKILL | SIGTERM.

#[global] Instance Signal_eq_dec : EqDecision Signal.
Proof. solve_decision. Defined.

Definition Interrupt : Signal := SIGINT.

(** The process environment and [os.Getenv], which cannot tell an unset
    variable from an empty one. *)
Definition Getenv (environ : gmap string string) (key : string) : string :=
  default "" (environ !! key).

End os.

Module syscall.
Definition SIGTERM : os.Signal := os.SIGTERM.
End syscall.

Module context.

(** A context is [Background], [TODO], or derived from a parent with its
    own cancellation (identified by [id]) and possibly a deadline. *)
Inductive Context : Type :=
| Background
| TODO
| Derived (parent : Context) (id : nat) (deadline : option time.Time).

Fixpoint Deadline (c : Context) : option time.Time :=
  match c with
  | Derived parent _ (Some d) =>
      match Deadline parent with
      | Some d' => Some (Z.min d d')
      | None => Some d
      end
  | Derived parent _ None => Deadline parent
  | _ => None
  end.

(** Whether [Done] is closed, given the cancelled ids and the clock. *)
Fixpoint done (cancelled : gset nat) (now : time.Time) (c : Context) : bool :=
  match c with
  | Derived parent id deadline =>
      bool_decide (id ∈ cancelled)
      || match deadline with Some d => d <=? now | None => false end
      || done cancelled now parent
  | _ => false
  end.

End context.

Abbreviation Context := context.Context.

Module http.

Definition StatusOK : Z := 200.
Definition MethodGet : string := "GET".
Definition ErrServerClosed : error := errors.ErrServerClosed.

(** [textproto]: header keys are canonicalised when every byte is a
    token byte, and left alone otherwise. *)
Definition validHeaderFieldByte (c : ascii) : bool :=
  let n := byte_of c in
  ((0x30 <=? n) && (n <=? 0x39)) || ((0x41 <=? n) && (n <=? 0x5A))
  || ((0x61 <=? n) && (n <=? 0x7A))
  || existsb (Ascii.eqb c) (list_ascii_of_string "!#$%&'*+-.^_`|~").

Definition toUpper (c : ascii) : ascii :=
  let n := byte_of c in
  if (0x61 <=? n) && (n <=? 0x7A) then ascii_of_N (Z.to_N (n - 32)) else c.

Definition toLower (c : ascii) : ascii :=
  let n := byte_of c in
  if (0x41 <=? n) && (n <=? 0x5A) then ascii_of_N (Z.to_N (n + 32)) else c.

Fixpoint canonical (upper : bool) (s : string) : string :=
  match s with
  | EmptyString => EmptyString
  | String c rest =>
      let c' := if upper then toUpper c else toLower c in
      String c' (canonical (Ascii.eqb c' "-"%char) rest)
  end.

Definition CanonicalMIMEHeaderKey (s : string) : string :=
  if forallb validHeaderFieldByte (list_ascii_of_string s)
  then canonical true s else s.

(** [http.Header] is [map[string][]string]. *)
Definition Header_Set (key value : string) (h : gmap string (list string))
    : gmap string (list string) :=
  <[CanonicalMIMEHeaderKey key := [value]]> h.

Definition Header_Get (key : string) (h : gmap string (list string)) : string :=
  match h !! CanonicalMIMEHeaderKey key with
  | Some (v :: _) => v
  | _ => ""
  end.

(** The parts of [http.Request] a handler can look at. [pat] and
    [matches] are the wildcard names of the matched pattern and the
    segments they matched; [otherValues] holds what [SetPathValue] added
    for other names. *)
Record Request : Type := {
  Method : string;
  URLPath : string;
  RawQuery : string;
  ReqHeader : gmap string (list string);
  ReqBody : string;
  RemoteAddr : string;
  pat : list string;
  matches : list string;
  otherValues : gmap string string
}.

Fixpoint patIndex (names : list string) (name : string) : option nat :=
  match names with
  | [] => None
  | n :: rest =>
      if String.eqb n name then Some O
      else option_map S (patIndex rest name)
  end.

Definition PathValue (r : Request) (name : string) : string :=
  match patIndex (pat r) name with
  | Some i => nth i (matches r) ""
  | None => default "" (otherValues r !! name)
  end.

Definition SetPathValue (name value : string) (r : Request) : Request :=
  match patIndex (pat r) name with
  | Some i =>
      {| Method := Method r; URLPath := URLPath r; RawQuery := RawQuery r;
         ReqHeader := ReqHeader r; ReqBody := ReqBody r; RemoteAddr := RemoteAddr r;
         pat := pat r; matches := <[i := value]> (matches r);
         otherValues := otherValues r |}
  | None =>
      {| Method := Method r; URLPath := URLPath r; RawQuery := RawQuery r;
         ReqHeader := ReqHeader r; ReqBody := ReqBody r; RemoteAddr := RemoteAddr r;
         pat := pat r; matches := matches r;
         otherValues := <[name := value]> (otherValues r) |}
  end.

(** The interface [http.ResponseWriter]. The map returned by [Header()]
    is shared with the writer, so a write through it is an update of the
    writer: [updHeader]. *)
Class ResponseWriter (W : Type) : Type := {
  Header : W -> gmap string (list string);
  updHeader : (gmap string (list string) -> gmap string (list string)) -> W -> W;
  Write : string -> W -> W;
  WriteHeader : Z -> W -> W
}.

(** [http.Handler], generic in the writer it is handed. *)
Definition Handler : Type :=
  forall (W : Type), ResponseWriter W -> W -> Request -> W.

(** [fmt.Fprintf(w, format, a...)] on a response writer. *)
Definition Fprintf {W : Type} `{ResponseWriter W}
    (w : W) (format : string) (a : list string) : W :=
  Write (fmt.Sprintf format a) w.

(** [http.ServeMux] as the list of registered patterns. *)
Definition ServeMux : Type := list (string * Handler).
Definition NewServeMux : ServeMux := [].
Definition Handle (pattern : string) (h : Handler) (mux : ServeMux) : ServeMux :=
  (mux ++ [(pattern, h)])%list.

(** [http.Server]: the configuration fields the program sets, and the
    two flags the shutdown calls flip. *)
Record Server : Type := {
  Addr : string;
  Handler_ : ServeMux;
  ReadTimeout : time.Duration;
  WriteTimeout : time.Duration;
  MaxHeaderBytes : Z;
  disableKeepAlives : bool;
  inShutdown : bool
}.

End http.

Module httptest.

(** [httptest.ResponseRecorder], the writer the tests hand to the
    handler. [DetectContentType] is the sniffing function of [net/http],
    used only when a body is written with no [Content-Type] set. *)
Record ResponseRecorder : Type := {
  Code : Z;
  HeaderMap : gmap string (list string);
  Body : string;
  snapHeader : option (gmap string (list string));
  wroteHeader : bool;
  panicked : bool
}.

Definition NewRecorder : ResponseRecorder :=
  {| Code := 200; HeaderMap := ∅; Body := ""; snapHeader := None;
     wroteHeader := false; panicked := false |}.

Definition rec_updHeader (f : gmap string (list string) -> gmap string (list string))
    (rw : ResponseRecorder) : ResponseRecorder :=
  {| Code := Code rw; HeaderMap := f (HeaderMap rw); Body := Body rw;
     snapHeader := snapHeader rw; wroteHeader := wroteHeader rw;
     panicked := panicked rw |}.

(** [WriteHeader]: ignored once a header was written; a code outside
    100..999 panics ([checkWriteHeaderCode]). *)
Definition rec_WriteHeader (code : Z) (rw : ResponseRecorder) : ResponseRecorder :=
  if wroteHeader rw then rw
  else if (code <? 100) || (999 <? code) then
    {| Code := Code rw; HeaderMap := HeaderMap rw; Body := Body rw;
       snapHeader := snapHeader rw; wroteHeader := wroteHeader rw;
       panicked := true |}
  else
    {| Code := code; HeaderMap := HeaderMap rw; Body := Body rw;
       snapHeader := Some (HeaderMap rw); wroteHeader := true;
       panicked := panicked rw |}.

Section Recorder.

Variable DetectContentType : string -> string.

Definition rec_writeHeader (b : string) (rw : ResponseRecorder) : ResponseRecorder :=
  if wroteHeader rw then rw
  else
    let m := HeaderMap rw in
    let hasType := bool_decide (is_Some (m !! "Content-Type")) in
    let hasTE := negb (String.eqb (http.Header_Get "Transfer-Encoding" m) "") in
    let rw :=
      if negb hasType && negb hasTE
      then rec_updHeader (http.Header_Set "Content-Type" (DetectContentType b)) rw
      else rw in
    rec_WriteHeader 200 rw.

Definition rec_Write (buf : string) (rw : ResponseRecorder) : ResponseRecorder :=
  let rw := rec_writeHeader buf rw in
  {| Code := Code rw; HeaderMap := HeaderMap rw; Body := Body rw +:+ buf;
     snapHeader := snapHeader rw; wroteHeader := wroteHeader rw;
     panicked := panicked rw |}.

#[global] Instance recorder_writer : http.ResponseWriter ResponseRecorder := {|
  http.Header := HeaderMap;
  http.updHeader := rec_updHeader;
  http.Write := rec_Write;
  http.WriteHeader := rec_WriteHeader
|}.

End Recorder.

(** [Result()]: the response a client would see. *)
Record Response : Type := {
  StatusCode : Z;
  RespHeader : gmap string (list string);
  RespBody : string
}.

Definition Result (rw : ResponseRecorder) : Response :=
  {| StatusCode := Code rw;
     RespHeader := default (HeaderMap rw) (snapHeader rw);
     RespBody := Body rw |}.

End httptest.

(* ===================================================================== *)
(** * Part II: the program                                               *)
(* ===================================================================== *)

(** EnvGetter defines a function type used to do lookups from a process
    environment. *)
Definition EnvGetter : Type := string -> string.

(** The interface [httpServer] of [main.go]. [Shutdown] is given the time
    of the call, which a real server's outcome depends on. *)
Class httpServer (S : Type) : Type := {
  SetKeepAlivesEnabled : bool -> S -> S;
  Shutdown : Context -> time.Time -> S -> option error * S
}.

(** [mockServer] of [main_test.go]. *)
Record mockServer : Type := { Returns : option error }.

#[global] Instance mockServer_httpServer : httpServer mockServer := {|
  SetKeepAlivesEnabled := fun _ m => m;
  Shutdown := fun _ _ m => (Returns m, m)
|}.

(** What a pointer of interface type [httpServer] can point to. *)
Inductive serverObj : Type :=
| RealServer (s : http.Server)
| MockServer (m : mockServer).

Inductive ptr : Type := Ptr (id : nat).
Inductive chan : Type := Chan (id : nat).

(** The [go] statements of the program and of its tests. [go f(a)] runs
    the call [f(a)] in a new goroutine and drops what it returns;
    [go f(a)()] evaluates [f(a)] first and runs the function it returned. *)
Inductive goroutine : Type :=
| go_shutdown (ctx : Context) (srv : ptr) (errChan : chan) (gracePeriod : time.Duration)
| go_shutdown_returned (ctx : Context) (srv : ptr) (errChan : chan)
    (gracePeriod : time.Duration).

(** The operations through which a goroutine touches anything shared. *)
Module op.

Inductive call : Type :=
| Done (ctx : Context)                                   (* <-ctx.Done() *)
| WithTimeout (parent : Context) (d : time.Duration)     (* context.WithTimeout *)
| WithCancel (parent : Context)                          (* context.WithCancel *)
| NotifyContext (parent : Context) (sigs : list os.Signal)
| Cancel (ctx : Context)                                 (* the CancelFunc of ctx *)
| New (obj : serverObj)                                  (* &T{...} *)
| SetKeepAlivesEnabled (srv : ptr) (v : bool)
| Shutdown (srv : ptr) (ctx : Context)
| ListenAndServe (srv : ptr)
| Make                                                   (* make(chan error) *)
| Send (ch : chan) (v : option error)                    (* ch <- v *)
| Recv (ch : chan)                                       (* <-ch *)
| Close (ch : chan)                                      (* close(ch) *)
| Go (g : goroutine)
| Stderr (text : string)                                 (* write to os.Stderr *)
| Exit (code : Z).                                       (* os.Exit *)

(** What each operation hands back. *)
Definition ret (c : call) : Type :=
  match c with
  | WithTimeout _ _ | WithCancel _ | NotifyContext _ _ => Context
  | New _ => ptr
  | Shutdown _ _ | ListenAndServe _ | Recv _ => option error
  | Make => chan
  | Exit _ => Empty_set
  | _ => unit
  end.

End op.

(** Sequential code over these operations. *)
Inductive prog (R : Type) : Type :=
| Ret (r : R)
| Do (c : op.call) (k : op.ret c -> prog R).

Arguments Ret {R} r.
Arguments Do {R} c k.

Fixpoint bind {A B : Type} (p : prog A) (f : A -> prog B) : prog B :=
  match p with
  | Ret a => f a
  | Do c k => Do c (fun x => bind (k x) f)
  end.

#[global] Instance prog_mret : MRet prog := fun _ r => Ret r.
#[global] Instance prog_mbind : MBind prog := fun _ _ f p => bind p f.

Definition perform (c : op.call) : prog (op.ret c) := Do c Ret.

(** [defer d] at the head of a function body: [d] runs when the body
    returns. *)
Definition defer {R : Type} (d : prog unit) (body : prog R) : prog R :=
  r ← body; _ ← d; mret r.

(** shutdown returns a function that deals with the graceful termination of
    a http.Server to ensure in-flight requests are terminated gracefully
    and be allowed to complete if able. The value returned is the function,
    not yet run. *)
Definition shutdown (ctx : Context) (srv : ptr) (errChan : chan)
    (gracePeriod : time.Duration) : prog unit :=
  _ ← perform (op.Done ctx);
  shutdownCtx ← perform (op.WithTimeout context.Background gracePeriod);
  defer (perform (op.Cancel shutdownCtx)) (
    _ ← perform (op.SetKeepAlivesEnabled srv false);
    err ← perform (op.Shutdown srv shutdownCtx);
    _ ← match err with
        | Some _ => perform (op.Send errChan err)
        | None => mret tt
        end;
    perform (op.Close errChan)).

Definition newline : string := String (ascii_of_nat 10) "".

Definition contentTypeTextPlain : string := "text/plain; charset=utf-8".

(** handleHello returns a handler for the hello endpoint. *)
Definition handleHello : http.Handler := fun W _ w req =>
  let name := http.PathValue req "name" in
  let w := http.updHeader (http.Header_Set "Content-Type" contentTypeTextPlain) w in
  let w := http.WriteHeader http.StatusOK w in
  http.Fprintf w ("Hello %s" +:+ newline) [name].

Definition httpReadTimeout : time.Duration := 10 * time.Second.
Definition httpWriteTimeout : time.Duration := 10 * time.Second.
Definition httpMaxHeaderBytes : Z := Z.shiftl 1 20.
Definition defaultHostPort : string := ":4000".
Definition envVarAddress : string := "ADDRESS".
Definition gracePeriod : time.Duration := 29 * time.Second.

(** Lines 85-88 of [run]: the address to listen on. *)
Definition hostport (getenv : EnvGetter) : string :=
  let hostport := getenv envVarAddress in
  if String.eqb (strings.TrimSpace hostport) "" then defaultHostPort else hostport.

(** Lines 90-100 of [run]: the routes and the server. *)
Definition newServer (hostport : string) : http.Server :=
  let mux := http.Handle "GET /hello/{name}" handleHello http.NewServeMux in
  {| http.Addr := hostport;
     http.Handler_ := mux;
     http.ReadTimeout := httpReadTimeout;
     http.WriteTimeout := httpWriteTimeout;
     http.MaxHeaderBytes := httpMaxHeaderBytes;
     http.disableKeepAlives := false;
     http.inShutdown := false |}.

(** run sets up and executes our program in a testable manner. *)
Definition run (ctx : Context) (getenv : EnvGetter) : prog (option error) :=
  ctx ← perform (op.NotifyContext ctx [os.Interrupt; syscall.SIGTERM]);
  defer (perform (op.Cancel ctx)) (
    srv ← perform (op.New (RealServer (newServer (hostport getenv))));
    errChan ← perform op.Make;
    _ ← perform (op.Go (go_shutdown ctx srv errChan (30 * time.Second)));
    err ← perform (op.ListenAndServe srv);
    if negb (errors.Is err http.ErrServerClosed) then mret err
    else
      err ← perform (op.Recv errChan);
      mret err).

Definition errorExitCode : Z := 1.

Definition main (environ : gmap string string) : prog unit :=
  let ctx := context.Background in
  err ← run ctx (os.Getenv environ);
  match err with
  | Some e =>
      _ ← perform (op.Stderr (fmt.Sprintf ("%s" +:+ newline) [errors.Error e]));
      Do (op.Exit errorExitCode) (fun x : Empty_set => match x with end)
  | None => mret tt
  end.

(** The body of each goroutine. For [go shutdown(...)] the call to
    [shutdown] is all there is: it builds the function and returns, and
    the function is dropped. *)
Definition dropped {A : Type} (result : A) : prog unit := mret tt.

Definition body (g : goroutine) : prog unit :=
  match g with
  | go_shutdown ctx srv errChan d => dropped (shutdown ctx srv errChan d)
  | go_shutdown_returned ctx srv errChan d => shutdown ctx srv errChan d
  end.

(** [TestShutdown], one sub-test: the coordinator is started with
    [go shutdown(ctx, m, errChan, time.Second)()], the context is
    cancelled, and the channel is read once. The value read is returned
    where the test inspects it. *)
Definition TestShutdown (returns : option error) : prog (option error) :=
  ctx ← perform (op.WithCancel context.TODO);
  errChan ← perform op.Make;
  m ← perform (op.New (MockServer {| Returns := returns |}));
  _ ← perform (op.Go (go_shutdown_returned ctx m errChan time.Second));
  _ ← perform (op.Cancel ctx);
  err ← perform (op.Recv errChan);
  mret err.

(** [TestHandleHello_direct]: the handler on a recorder, with the path
    value set by hand. *)
Definition TestHandleHello_direct (detect : string -> string) : httptest.Response :=
  let req :=
    {| http.Method := http.MethodGet; http.URLPath := "/hello/Testing";
       http.RawQuery := ""; http.ReqHeader := ∅; http.ReqBody := "";
       http.RemoteAddr := "192.0.2.1:1234"; http.pat := []; http.matches := [];
       http.otherValues := ∅ |} in
  let req := http.SetPathValue "name" "Testing" req in
  let w := httptest.NewRecorder in
  let w := handleHello _ (httptest.recorder_writer detect) w req in
  httptest.Result w.

(* ===================================================================== *)
(** * Part III: goroutines, channels and contexts                        *)
(* ===================================================================== *)

(** An operation together with what it returned. *)
Inductive event : Type :=
| Ev (c : op.call) (x : op.ret c).

(** One step of sequential code: the operation at its head returns. *)
Definition lstep {R : Type} (p : prog R) (e : event) (q : prog R) : Prop :=
  match p with
  | Ret _ => False
  | Do c k => exists x : op.ret c, e = Ev c x /\ q = k x
  end.

Fixpoint lexec {R : Type} (p : prog R) (tr : list event) (q : prog R) : Prop :=
  match tr with
  | [] => q = p
  | e :: tr' => exists p', lstep p e p' /\ lexec p' tr' q
  end.

(** A goroutine: the one whose result is observed, or one started by [go]. *)
Inductive thread (R : Type) : Type :=
| Main (p : prog R)
| Goroutine (p : prog unit).

Arguments Main {R} p.
Arguments Goroutine {R} p.

Definition thread_step {R : Type} (th : thread R) (e : event) (th' : thread R) : Prop :=
  match th, th' with
  | Main p, Main q => lstep p e q
  | Goroutine p, Goroutine q => lstep p e q
  | _, _ => False
  end.

Fixpoint thread_exec {R : Type} (th : thread R) (tr : list event) (th' : thread R) : Prop :=
  match tr with
  | [] => th' = th
  | e :: tr' => exists th1, thread_step th e th1 /\ thread_exec th1 tr' th'
  end.

Inductive halt : Type :=
| Crashed            (* a goroutine panicked *)
| Exited (code : Z). (* os.Exit *)

(** Everything the goroutines share. *)
Record world : Type := {
  clock : time.Time;
  next : nat;                          (* the next unused identity *)
  cancelled : gset nat;                (* contexts whose CancelFunc ran *)
  notify : gmap nat (list os.Signal);  (* contexts registered for signals *)
  chans : gmap nat bool;               (* channels made; true once closed *)
  servers : gmap nat serverObj;
  stderr : string;
  halted : option halt
}.

Definition with_clock (t : time.Time) (w : world) : world :=
  {| clock := t; next := next w; cancelled := cancelled w; notify := notify w;
     chans := chans w; servers := servers w; stderr := stderr w; halted := halted w |}.

Definition with_next (n : nat) (w : world) : world :=
  {| clock := clock w; next := n; cancelled := cancelled w; notify := notify w;
     chans := chans w; servers := servers w; stderr := stderr w; halted := halted w |}.

Definition with_cancelled (c : gset nat) (w : world) : world :=
  {| clock := clock w; next := next w; cancelled := c; notify := notify w;
     chans := chans w; servers := servers w; stderr := stderr w; halted := halted w |}.

Definition with_notify (n : gmap nat (list os.Signal)) (w : world) : world :=
  {| clock := clock w; next := next w; cancelled := cancelled w; notify := n;
     chans := chans w; servers := servers w; stderr := stderr w; halted := halted w |}.

Definition with_chans (c : gmap nat bool) (w : world) : world :=
  {| clock := clock w; next := next w; cancelled := cancelled w; notify := notify w;
     chans := c; servers := servers w; stderr := stderr w; halted := halted w |}.

Definition with_servers (s : gmap nat serverObj) (w : world) : world :=
  {| clock := clock w; next := next w; cancelled := cancelled w; notify := notify w;
     chans := chans w; servers := s; stderr := stderr w; halted := halted w |}.

Definition with_stderr (s : string) (w : world) : world :=
  {| clock := clock w; next := next w; cancelled := cancelled w; notify := notify w;
     chans := chans w; servers := servers w; stderr := s; halted := halted w |}.

Definition with_halted (h : option halt) (w : world) : world :=
  {| clock := clock w; next := next w; cancelled := cancelled w; notify := notify w;
     chans := chans w; servers := servers w; stderr := stderr w; halted := h |}.

Definition boot : world :=
  {| clock := 0; next := O; cancelled := ∅; notify := ∅; chans := ∅;
     servers := ∅; stderr := ""; halted := None |}.

(** What an observer sees the system do. *)
Inductive label : Type :=
| LCall (t : nat) (e : event)                      (* goroutine t: an operation returned *)
| LSync (s r : nat) (ch : chan) (v : option error) (* s sent v on ch, r received it *)
| LPanic (t : nat) (c : op.call)                   (* goroutine t panicked in c *)
| LExit (t : nat) (code : Z)                       (* goroutine t called os.Exit *)
| LSignal (sig : os.Signal)                        (* the process received a signal *)
| LTick (d : time.Duration).                       (* time passed *)

(** The events of one goroutine in a label. *)
Definition proj (t : nat) (l : label) : list event :=
  match l with
  | LCall t' e => if Nat.eqb t t' then [e] else []
  | LSync s r ch v =>
      (if Nat.eqb t s then [Ev (op.Send ch v) tt] else [])
      ++ (if Nat.eqb t r then [Ev (op.Recv ch) v] else [])
  | _ => []
  end%list.

Definition projs (t : nat) (tr : list label) : list event :=
  concat (map (proj t) tr).

Section Semantics.

(** The behaviour of [net/http] that the program cannot see into: when,
    and with what, a server's [ListenAndServe] returns, and what a drain
    of its connections yields. *)
Variable serve : http.Server -> time.Time -> option (option error).
Variable drain : http.Server -> Context -> time.Time -> option error.

#[global] Instance Server_httpServer : httpServer http.Server := {|
  SetKeepAlivesEnabled := fun v s =>
    {| http.Addr := http.Addr s; http.Handler_ := http.Handler_ s;
       http.ReadTimeout := http.ReadTimeout s; http.WriteTimeout := http.WriteTimeout s;
       http.MaxHeaderBytes := http.MaxHeaderBytes s;
       http.disableKeepAlives := negb v; http.inShutdown := http.inShutdown s |};
  Shutdown := fun ctx now s =>
    (drain s ctx now,
     {| http.Addr := http.Addr s; http.Handler_ := http.Handler_ s;
        http.ReadTimeout := http.ReadTimeout s; http.WriteTimeout := http.WriteTimeout s;
        http.MaxHeaderBytes := http.MaxHeaderBytes s;
        http.disableKeepAlives := http.disableKeepAlives s; http.inShutdown := true |})
|}.

(** Method calls through the interface: dispatch on the object. *)
Definition obj_SetKeepAlivesEnabled (v : bool) (o : serverObj) : serverObj :=
  match o with
  | RealServer s => RealServer (SetKeepAlivesEnabled v s)
  | MockServer m => MockServer (SetKeepAlivesEnabled v m)
  end.

Definition obj_Shutdown (ctx : Context) (now : time.Time) (o : serverObj)
    : option error * serverObj :=
  match o with
  | RealServer s => let '(r, s') := Shutdown ctx now s in (r, RealServer s')
  | MockServer m => let '(r, m') := Shutdown ctx now m in (r, MockServer m')
  end.

(** An operation that can return now: its result, the world after it and
    the goroutines it started. [None] when it blocks (or, for a send,
    when it needs a partner; see [step]). *)
Definition exec_call (w : world) (c : op.call)
    : option (op.ret c * world * list (prog unit)) :=
  match c return option (op.ret c * world * list (prog unit)) with
  | op.Done ctx =>
      if context.done (cancelled w) (clock w) ctx then Some (tt, w, []) else None
  | op.WithTimeout parent d =>
      Some (context.Derived parent (next w) (Some (clock w + d)),
            with_next (S (next w)) w, [])
  | op.WithCancel parent =>
      Some (context.Derived parent (next w) None, with_next (S (next w)) w, [])
  | op.NotifyContext parent sigs =>
      Some (context.Derived parent (next w) None,
            with_notify (<[next w := sigs]> (notify w)) (with_next (S (next w)) w), [])
  | op.Cancel ctx =>
      match ctx with
      | context.Derived _ id _ =>
          Some (tt, with_notify (delete id (notify w))
                      (with_cancelled ({[id]} ∪ cancelled w) w), [])
      | _ => Some (tt, w, [])
      end
  | op.New obj =>
      Some (Ptr (next w),
            with_servers (<[next w := obj]> (servers w)) (with_next (S (next w)) w), [])
  | op.SetKeepAlivesEnabled (Ptr id) v =>
      match servers w !! id with
      | Some o =>
          Some (tt, with_servers (<[id := obj_SetKeepAlivesEnabled v o]> (servers w)) w, [])
      | None => None
      end
  | op.Shutdown (Ptr id) ctx =>
      match servers w !! id with
      | Some o =>
          let '(r, o') := obj_Shutdown ctx (clock w) o in
          Some (r, with_servers (<[id := o']> (servers w)) w, [])
      | None => None
      end
  | op.ListenAndServe (Ptr id) =>
      match servers w !! id with
      | Some (RealServer s) =>
          match serve s (clock w) with
          | Some r => Some (r, w, [])
          | None => None
          end
      | _ => None
      end
  | op.Make =>
      Some (Chan (next w),
            with_chans (<[next w := false]> (chans w)) (with_next (S (next w)) w), [])
  | op.Send _ _ => None
  | op.Recv (Chan id) =>
      match chans w !! id with
      | Some true => Some (None, w, [])
      | _ => None
      end
  | op.Close (Chan id) =>
      match chans w !! id with
      | Some false => Some (tt, with_chans (<[id := true]> (chans w)) w, [])
      | _ => None
      end
  | op.Go g => Some (tt, w, [body g])
  | op.Stderr text => Some (tt, with_stderr (stderr w +:+ text) w, [])
  | op.Exit _ => None
  end.

(** The operations that panic: a send on, or a close of, a closed channel. *)
Definition panics (w : world) (c : op.call) : bool :=
  match c with
  | op.Send (Chan id) _ | op.Close (Chan id) =>
      match chans w !! id with
      | Some true => true
      | _ => false
      end
  | _ => false
  end.

Definition call_returns (w : world) (e : event) (w' : world) (started : list (prog unit))
    : Prop :=
  match e with
  | Ev c x => exec_call w c = Some (x, w', started)
  end.

Definition head {R : Type} (th : thread R) : option op.call :=
  match th with
  | Main (Do c _) | Goroutine (Do c _) => Some c
  | _ => None
  end.

(** A signal cancels the contexts registered for it. *)
Definition deliver (sig : os.Signal) (w : world) : world :=
  let hit := dom (filter (fun kv => sig ∈ kv.2) (notify w)) in
  with_cancelled (hit ∪ cancelled w) w.

Definition config (R : Type) : Type := list (thread R) * world.

(** One step of the whole system. Any goroutine that can move may move:
    the scheduler is not constrained. *)
Inductive step {R : Type} : config R -> label -> config R -> Prop :=
| step_call ts w t th e th' w' started :
    halted w = None ->
    ts !! t = Some th ->
    thread_step th e th' ->
    call_returns w e w' started ->
    step (ts, w) (LCall t e)
         ((<[t := th']> ts ++ map Goroutine started)%list, w')
| step_sync ts w s r ths ths' thr thr' id v :
    halted w = None ->
    s <> r ->
    ts !! s = Some ths ->
    ts !! r = Some thr ->
    chans w !! id = Some false ->
    thread_step ths (Ev (op.Send (Chan id) v) tt) ths' ->
    thread_step thr (Ev (op.Recv (Chan id)) v) thr' ->
    step (ts, w) (LSync s r (Chan id) v)
         (<[r := thr']> (<[s := ths']> ts), w)
| step_panic ts w t th c :
    halted w = None ->
    ts !! t = Some th ->
    head th = Some c ->
    panics w c = true ->
    step (ts, w) (LPanic t c) (ts, with_halted (Some Crashed) w)
| step_exit ts w t th code :
    halted w = None ->
    ts !! t = Some th ->
    head th = Some (op.Exit code) ->
    step (ts, w) (LExit t code) (ts, with_halted (Some (Exited code)) w)
| step_signal ts w sig :
    halted w = None ->
    step (ts, w) (LSignal sig) (ts, deliver sig w)
| step_tick ts w d :
    halted w = None ->
    0 < d ->
    step (ts, w) (LTick d) (ts, with_clock (clock w + d) w).

Inductive steps {R : Type} : config R -> list label -> config R -> Prop :=
| steps_nil cfg : steps cfg [] cfg
| steps_cons cfg l cfg' tr cfg'' :
    step cfg l cfg' -> steps cfg' tr cfg'' -> steps cfg (l :: tr) cfg''.

(** ** A scheduler one can run

    [fire] performs the step a choice names, when that step exists. *)
Inductive choice : Type :=
| Run (t : nat)            (* let goroutine t perform its operation *)
| Sync (s r : nat)         (* let s hand its value to r *)
| Signal (sig : os.Signal)
| Tick (d : time.Duration).

(** The step of goroutine [t], whose code is [c] followed by [k]. *)
Definition fire_call {R : Type} (t : nat) (c : op.call) (k : op.ret c -> thread R)
    (ts : list (thread R)) (w : world) : option (label * config R) :=
  if panics w c then Some (LPanic t c, (ts, with_halted (Some Crashed) w))
  else
    match c return (op.ret c -> thread R) -> option (label * config R) with
    | op.Exit code => fun _ =>
        Some (LExit t code, (ts, with_halted (Some (Exited code)) w))
    | c' => fun k' =>
        match exec_call w c' with
        | Some (x, w', started) =>
            Some (LCall t (Ev c' x),
                  ((<[t := k' x]> ts ++ map Goroutine started)%list, w'))
        | None => None
        end
    end k.

(** A goroutine blocked in a send: the channel, the value, and the
    goroutine once the value is taken. *)
Definition sending {R : Type} (th : thread R) : option (nat * option error * thread R) :=
  match th with
  | Main (Do (op.Send (Chan i) v) k) => Some (i, v, Main (k tt))
  | Goroutine (Do (op.Send (Chan i) v) k) => Some (i, v, Goroutine (k tt))
  | _ => None
  end.

(** A goroutine blocked in a receive. *)
Definition receiving {R : Type} (th : thread R)
    : option (nat * (option error -> thread R)) :=
  match th with
  | Main (Do (op.Recv (Chan i)) k) => Some (i, fun v => Main (k v))
  | Goroutine (Do (op.Recv (Chan i)) k) => Some (i, fun v => Goroutine (k v))
  | _ => None
  end.

Definition fire {R : Type} (ch : choice) (cfg : config R) : option (label * config R) :=
  let '(ts, w) := cfg in
  match halted w with
  | Some _ => None
  | None =>
      match ch with
      | Run t =>
          match ts !! t with
          | Some (Main (Do c k)) => fire_call t c (fun x => Main (k x)) ts w
          | Some (Goroutine (Do c k)) => fire_call t c (fun x => Goroutine (k x)) ts w
          | _ => None
          end
      | Sync s r =>
          match ts !! s, ts !! r with
          | Some ths, Some thr =>
              match sending ths, receiving thr with
              | Some (i, v, ths'), Some (j, kr) =>
                  if negb (Nat.eqb s r) && Nat.eqb i j
                     && bool_decide (chans w !! i = Some false)
                  then Some (LSync s r (Chan i) v,
                             (<[r := kr v]> (<[s := ths']> ts), w))
                  else None
              | _, _ => None
              end
          | _, _ => None
          end
      | Signal sig => Some (LSignal sig, (ts, deliver sig w))
      | Tick d =>
          if 0 <? d then Some (LTick d, (ts, with_clock (clock w + d) w)) else None
      end
  end.

Fixpoint schedule {R : Type} (chs : list choice) (cfg : config R)
    : option (list label * config R) :=
  match chs with
  | [] => Some ([], cfg)
  | ch :: rest =>
      match fire ch cfg with
      | Some (l, cfg') =>
          match schedule rest cfg' with
          | Some (tr, cfg'') => Some (l :: tr, cfg'')
          | None => None
          end
      | None => None
      end
  end.

End Semantics.

(* ===================================================================== *)
(** * Vocabulary of the properties                                       *)
(* ===================================================================== *)

Definition finished {R : Type} (p : prog R) : Prop :=
  match p with
  | Ret _ => True
  | Do _ _ => False
  end.

Definition is_SetKeepAlivesEnabled (e : event) : bool :=
  match e with Ev (op.SetKeepAlivesEnabled _ _) _ => true | _ => false end.

Definition is_Shutdown (e : event) : bool :=
  match e with Ev (op.Shutdown _ _) _ => true | _ => false end.

Definition is_Send (e : event) : bool :=
  match e with Ev (op.Send _ _) _ => true | _ => false end.

Definition is_Recv (e : event) : bool :=
  match e with Ev (op.Recv _) _ => true | _ => false end.

Definition is_Close (e : event) : bool :=
  match e with Ev (op.Close _) _ => true | _ => false end.

(** What a drain returned, for the events that are drains. *)
Definition drained (e : event) : option (option error) :=
  match e with Ev (op.Shutdown _ _) r => Some r | _ => None end.

(** A method call on a server object. *)
Definition on_server (e : event) : bool :=
  match e with
  | Ev (op.SetKeepAlivesEnabled _ _) _ | Ev (op.Shutdown _ _) _
  | Ev (op.ListenAndServe _) _ => true
  | _ => false
  end.


(** The coordinator from start to end, given the bounded context it was
    handed and what the drain returned. *)
Definition coordinator_trace (ctx : Context) (srv : ptr) (errChan : chan)
    (d : time.Duration) (shutdownCtx : Context) (err : option error) : list event :=
  ([ Ev (op.Done ctx) tt;
     Ev (op.WithTimeout context.Background d) shutdownCtx;
     Ev (op.SetKeepAlivesEnabled srv false) tt;
     Ev (op.Shutdown srv shutdownCtx) err ]
   ++ match err with
      | Some _ => [Ev (op.Send errChan err) tt]
      | None => []
      end
   ++ [ Ev (op.Close errChan) tt; Ev (op.Cancel shutdownCtx) tt ])%list.


(** [run] from start to end: the context, server and channel it was
    handed, what [ListenAndServe] returned and, when it came to that,
    what the channel yielded. *)
Definition run_trace (ctx : Context) (getenv : EnvGetter) (ctx' : Context)
    (srv : ptr) (errChan : chan) (r v : option error) : list event :=
  ([ Ev (op.NotifyContext ctx [os.Interrupt; syscall.SIGTERM]) ctx';
     Ev (op.New (RealServer (newServer (hostport getenv)))) srv;
     Ev op.Make errChan;
     Ev (op.Go (go_shutdown ctx' srv errChan (30 * time.Second))) tt;
     Ev (op.ListenAndServe srv) r ]
   ++ (if negb (errors.Is r http.ErrServerClosed) then []
       else [Ev (op.Recv errChan) v])
   ++ [ Ev (op.Cancel ctx') tt ])%list.

Definition run_result (r v : option error) : option error :=
  if negb (errors.Is r http.ErrServerClosed) then r else v.

(** What [run] still has to do once [ListenAndServe] has returned [r]:
    the rest of its body, then the deferred cancel. *)
Definition after_serve (ctx' : Context) (errChan : chan) (r : option error)
    : prog (option error) :=
  bind (if negb (errors.Is r http.ErrServerClosed) then Ret r
        else Do (op.Recv errChan) Ret)
       (fun r0 => Do (op.Cancel ctx') (fun _ => Ret r0)).

(** What [run] does before [ListenAndServe] returns. *)
Definition run_setup (ctx : Context) (getenv : EnvGetter) (ctx' : Context)
    (srv : ptr) (errChan : chan) : list event :=
  [ Ev (op.NotifyContext ctx [os.Interrupt; syscall.SIGTERM]) ctx';
    Ev (op.New (RealServer (newServer (hostport getenv)))) srv;
    Ev op.Make errChan;
    Ev (op.Go (go_shutdown ctx' srv errChan (30 * time.Second))) tt ].

(** The server and the result of a [ListenAndServe] event. *)
Definition served (e : event) : option (ptr * option error) :=
  match e with Ev (op.ListenAndServe srv) r => Some (srv, r) | _ => None end.

(** The operations [run] performs itself. *)
Definition run_event (e : event) : bool :=
  match e with
  | Ev (op.NotifyContext _ _) _ | Ev (op.New _) _ | Ev op.Make _
  | Ev (op.Go (go_shutdown _ _ _ _)) _ | Ev (op.ListenAndServe _) _
  | Ev (op.Recv _) _ | Ev (op.Cancel _) _ => true
  | _ => false
  end.

(** The program at its start: one goroutine running [run]. *)
Definition run_system (ctx : Context) (getenv : EnvGetter) : config (option error) :=
  ([Main (run ctx getenv)], boot).

(** What holds of every state the program reaches: next to [run] there
    are only goroutines that have nothing left to do, and no channel is
    closed. *)
Definition run_invariant (ctx : Context) (getenv : EnvGetter)
    (cfg : config (option error)) : Prop :=
  exists (q : prog (option error)) (n : nat) (tr0 : list event),
    cfg.1 = Main q :: replicate n (Goroutine (Ret tt)) /\
    lexec (run ctx getenv) tr0 q /\
    forall id : nat, chans cfg.2 !! id <> Some true.

(** Code blocked in a receive. *)
Definition waiting {R : Type} (p : prog R) : bool :=
  match p with
  | Do (op.Recv _) _ => true
  | _ => false
  end.

(** A server that serves until it is shut down and whose drains succeed,
    for running the examples. *)
Definition serve_until_shutdown : http.Server -> time.Time -> option (option error) :=
  fun s _ => if http.inShutdown s then Some (Some http.ErrServerClosed) else None.

Definition drain_clean : http.Server -> Context -> time.Time -> option error :=
  fun _ _ _ => None.

(** A server whose [ListenAndServe] returns the sentinel whatever happens,
    as it would after a [Close] from elsewhere. *)
Definition serve_closed : http.Server -> time.Time -> option (option error) :=
  fun _ _ => Some (Some http.ErrServerClosed).

(** The lookup function of [TestRun]. *)
Definition TestRun_getenv : EnvGetter :=
  fun env => if String.eqb env envVarAddress then ":4001" else "".

(** U+00A0, no-break space, in UTF-8. *)
Definition nbsp : string := String (ascii_of_nat 194) (String (ascii_of_nat 160) "").

(** [TestShutdown] once its [go] statement has run: goroutine 0 is the
    test, goroutine 1 the coordinator about to start. *)
Definition harness (returns : option error) : config (option error) :=
  match schedule serve_until_shutdown drain_clean [Run O; Run O; Run O; Run O]
          ([Main (TestShutdown returns)], boot) with
  | Some (_, cfg) => cfg
  | None => ([], boot)
  end.

(** A schedule that takes the harness to its end when the drain fails, and
    one for when it succeeds. *)
Definition harness_failing : list choice :=
  [Run 0; Run 1; Run 1; Run 1; Run 1; Sync 1 0; Run 1; Run 1]%nat.

Definition harness_clean : list choice :=
  [Run 0; Run 1; Run 1; Run 1; Run 1; Run 1; Run 0; Run 1]%nat.

Definition trace_of {R : Type} (chs : list choice) (cfg : config R) : list label :=
  match schedule serve_until_shutdown drain_clean chs cfg with
  | Some (tr, _) => tr
  | None => []
  end.

Definition after {R : Type} (chs : list choice) (cfg : config R) : config R :=
  match schedule serve_until_shutdown drain_clean chs cfg with
  | Some (_, cfg') => cfg'
  | None => cfg
  end.

(** The decoder of [utf8.DecodeRuneInString] as a function of the length
    of the string and of its first four bytes. *)
Definition decode4 (n s0 b1 b2 b3 : Z) : Z * Z :=
  if n <? 1 then (utf8.RuneError, 0) else
  let x := utf8.first s0 in
  if utf8.as_ <=? x then
    let mask := Z.shiftr (wrap32 (Z.shiftl x 31)) 31 in
    (Z.lor (Z.land s0 (Z.lnot mask)) (Z.land utf8.RuneError mask), 1)
  else
  let sz := Z.land x 7 in
  let accept := utf8.acceptRanges (Z.shiftr x 4) in
  if n <? sz then (utf8.RuneError, 1) else
  if (b1 <? fst accept) || (snd accept <? b1) then (utf8.RuneError, 1) else
  if sz <=? 2 then
    (Z.lor (Z.shiftl (Z.land s0 utf8.mask2) 6) (Z.land b1 utf8.maskx), 2)
  else
  if (b2 <? utf8.locb) || (utf8.hicb <? b2) then (utf8.RuneError, 1) else
  if sz <=? 3 then
    (Z.lor (Z.lor (Z.shiftl (Z.land s0 utf8.mask3) 12) (Z.shiftl (Z.land b1 utf8.maskx) 6))
           (Z.land b2 utf8.maskx), 3)
  else
  if (b3 <? utf8.locb) || (utf8.hicb <? b3) then (utf8.RuneError, 1) else
  (Z.lor (Z.lor (Z.lor (Z.shiftl (Z.land s0 utf8.mask4) 18) (Z.shiftl (Z.land b1 utf8.maskx) 12))
                (Z.shiftl (Z.land b2 utf8.maskx) 6))
         (Z.land b3 utf8.maskx), 4).

Definition is_Cancel (e : event) : bool :=
  match e with Ev (op.Cancel _) _ => true | _ => false end.

(** The errors reached from an error by unwrapping, itself first. *)
Fixpoint error_chain (e : error) : list error :=
  e :: match e with
       | errors.Wrap _ inner => error_chain inner
       | _ => []
       end.

(** The trace and the final state of a schedule, for given behaviours of
    the server. *)
Definition trace_under {R : Type}
    (serve : http.Server -> time.Time -> option (option error))
    (drain : http.Server -> Context -> time.Time -> option error)
    (chs : list choice) (cfg : config R) : list label :=
  match schedule serve drain chs cfg with
  | Some (tr, _) => tr
  | None => []
  end.

Definition after_under {R : Type}
    (serve : http.Server -> time.Time -> option (option error))
    (drain : http.Server -> Context -> time.Time -> option error)
    (chs : list choice) (cfg : config R) : config R :=
  match schedule serve drain chs cfg with
  | Some (_, cfg') => cfg'
  | None => cfg
  end.

(** [run] up to the return of [ListenAndServe], then a SIGTERM and half a
    minute. *)
Definition run_demo : list choice :=
  [Run 0%nat; Run 0%nat; Run 0%nat; Run 0%nat; Run 0%nat; Signal os.SIGTERM;
   Tick (30 * time.Second)].

(** What was sent, for the events that are sends. *)
Definition sent (e : event) : option (chan * option error) :=
  match e with Ev (op.Send ch v) _ => Some (ch, v) | _ => None end.

(** The harness left alone for five seconds, with an interrupt signal, and
    no cancellation. *)
Definition harness_idle : list choice :=
  [Tick (5 * time.Second); Signal os.SIGINT; Tick (5 * time.Second)].

Definition is_Go (e : event) : bool :=
  match e with Ev (op.Go _) _ => true | _ => false end.

(** [TestShutdown] from start to end: the context, channel and server it
    was handed and the value it read. *)
Definition test_trace (returns : option error) (ctx : Context) (errChan : chan)
    (m : ptr) (v : option error) : list event :=
  [ Ev (op.WithCancel context.TODO) ctx;
    Ev op.Make errChan;
    Ev (op.New (MockServer {| Returns := returns |})) m;
    Ev (op.Go (go_shutdown_returned ctx m errChan time.Second)) tt;
    Ev (op.Cancel ctx) tt;
    Ev (op.Recv errChan) v ].

(** The test at its start. *)
Definition test_system (returns : option error) : config (option error) :=
  ([Main (TestShutdown returns)], boot).

(** The goroutines of the test: the test alone, with no coordinator yet,
    or the test and the coordinator it started with its [go] statement. *)
Definition test_shape (returns : option error) (tr : list label)
    (cfg : config (option error)) : Prop :=
  (exists q,
      cfg.1 = [Main q] /\
      lexec (TestShutdown returns) (projs 0 tr) q /\
      projs 1 tr = [] /\
      List.filter is_Go (projs 0 tr) = []) \/
  (exists q p ctx m ch,
      cfg.1 = [Main q; Goroutine p] /\
      lexec (TestShutdown returns) (projs 0 tr) q /\
      lexec (shutdown ctx m ch time.Second) (projs 1 tr) p /\
      Ev (op.Go (go_shutdown_returned ctx m ch time.Second)) tt ∈ projs 0 tr).

(** What holds of every state of the test, given the trace that led to
    it. *)
Definition test_invariant (returns : option error) (tr : list label)
    (cfg : config (option error)) : Prop :=
  test_shape returns tr cfg /\
  halted cfg.2 = None /\
  (forall id, chans cfg.2 !! id = Some true ->
     Ev (op.Close (Chan id)) tt ∈ projs 1 tr) /\
  (forall id o, servers cfg.2 !! id = Some o ->
     o = MockServer {| Returns := returns |}) /\
  (forall srv sctx err, Ev (op.Shutdown srv sctx) err ∈ projs 1 tr -> err = returns) /\
  (forall ch v, Ev (op.Send ch v) tt ∈ projs 1 tr -> Ev (op.Recv ch) v ∈ projs 0 tr) /\
  (forall ch v, Ev (op.Recv ch) v ∈ projs 0 tr -> v = returns).

(** Two schedules of the whole test: the coordinator runs as soon as it
    can and hands its error over, or the test gets to its receive first
    and the coordinator closes the channel. *)
Definition test_handover : list choice :=
  [Run 0; Run 0; Run 0; Run 0; Run 0; Run 1; Run 1; Run 1; Run 1; Sync 1 0;
   Run 1; Run 1]%nat.

Definition test_closing : list choice :=
  [Run 0; Run 0; Run 0; Run 0; Run 0; Run 1; Tick time.Second; Run 1; Run 1; Run 1;
   Signal os.Interrupt; Run 1; Run 0; Run 1]%nat.

(** [main] with a server that cannot bind its port: the trace up to the
    call of [os.Exit], and [main] at that call. *)
Definition main_demo_environ : gmap string string := {[ envVarAddress := ":80" ]}.

Definition bind_failure : error :=
  errors.New 7 "listen tcp :80: bind: permission denied".

Definition main_demo_trace : list event :=
  (run_trace context.Background (os.Getenv main_demo_environ)
     (context.Derived context.Background 0 None) (Ptr 1) (Chan 2)
     (Some bind_failure) None
   ++ [Ev (op.Stderr (errors.Error bind_failure +:+ newline)) tt])%list.

Definition main_at_exit : prog unit :=
  Do (op.Exit errorExitCode) (fun x : Empty_set => match x with end).

(** ** The readiness probe of the tests

    [waitForReady] polls an endpoint until it answers 200. What it sees of
    the world: a clock, standard output, the number of requests it has
    sent, and the number of error values it has made with [fmt.Errorf]
    (each is a new pointer). *)
Record clientWorld : Type := {
  wall : time.Time;
  stdout : string;
  requests : nat;
  allocs : nat }.

(** What a run of [waitForReady] comes to: it returned, or it is still in
    its loop after the iterations it was given. *)
Inductive outcome : Type :=
| Returned (err : option error) (w : clientWorld)
| Looping (w : clientWorld).

Definition Printf (text : string) (w : clientWorld) : clientWorld :=
  {| wall := wall w; stdout := stdout w +:+ text; requests := requests w;
     allocs := allocs w |}.

(** [time.Sleep] returns at once for a duration that is not positive. *)
Definition Sleep (d : time.Duration) (w : clientWorld) : clientWorld :=
  {| wall := wall w + Z.max 0 d; stdout := stdout w; requests := requests w;
     allocs := allocs w |}.

(** [%d] of an int. *)
Definition Itoa (n : Z) : string := NilZero.string_of_int (Z.to_int n).

Section Client.

(** What the probe cannot see into: whether the endpoint parses as a URL
    (and the error when it does not); for the n-th request, sent at a given
    time by a client with a given timeout, how long [client.Do] took and
    the error or the status code it came back with; [ctx.Err()] at a given
    time, nil until the context is done; and how a duration prints. *)
Variable url_Parse : string -> option error.
Variable client_Do :
  time.Duration -> Context -> string -> nat -> time.Time -> time.Duration * (error + Z).
Variable ctx_Err : Context -> time.Time -> option error.
Variable Duration_String : time.Duration -> string.

(** The [for] loop of [waitForReady], for at most [fuel] iterations. *)
Fixpoint waitForReady_loop (fuel : nat) (ctx : Context) (endpoint : string)
    (timeout interval : time.Duration) (startTime : time.Time) (w : clientWorld)
    : outcome :=
  match fuel with
  | O => Looping w
  | S fuel' =>
      let '(took, result) := client_Do timeout ctx endpoint (requests w) (wall w) in
      let w := {| wall := wall w + took; stdout := stdout w;
                  requests := S (requests w); allocs := allocs w |} in
      match result with
      | inl err =>
          let w := Printf (fmt.Sprintf ("error making request, got %s" +:+ newline)
                             [errors.Error err]) w in
          waitForReady_loop fuel' ctx endpoint timeout interval startTime w
      | inr StatusCode =>
          if StatusCode =? http.StatusOK then
            let w := Printf ("successfull response, got " +:+ Itoa StatusCode +:+ newline)
                       w in
            Returned None w
          else
            match ctx_Err ctx (wall w) with
            | Some err => Returned (Some err) w
            | None =>
                if timeout <=? wall w - startTime then
                  Returned
                    (Some (errors.New (allocs w)
                             (fmt.Sprintf "server did not reply after %v"
                                [Duration_String timeout])))
                    {| wall := wall w; stdout := stdout w; requests := requests w;
                       allocs := S (allocs w) |}
                else
                  waitForReady_loop fuel' ctx endpoint timeout interval startTime
                    (Sleep interval w)
            end
      end
  end.

(** waitForReady waits for the specified endpoint to become available
    checking every interval for a maximum of timeout in duration. *)
Definition waitForReady (fuel : nat) (ctx : Context) (endpoint : string)
    (timeout interval : time.Duration) (w : clientWorld) : outcome :=
  let startTime := wall w in
  match url_Parse endpoint with
  | Some err => Returned (Some (errors.Wrap "failed to create request, " err)) w
  | None => waitForReady_loop fuel ctx endpoint timeout interval startTime w
  end.

End Client.

(** The probe of [TestRun], and three worlds for it: one where nothing
    listens and the context is done, one where the server takes until the
    third request to come up, and one where it answers 503 for ever. *)
Definition probe_start : clientWorld :=
  {| wall := 0; stdout := ""; requests := 0; allocs := 0 |}.

Definition probe_endpoint : string := "http://localhost:4001/hello/name".

Definition probe_timeout : time.Duration := 5 * time.Second.

Definition probe_interval : time.Duration := 100 * time.Millisecond.

Definition url_fine (endpoint : string) : option error := None.

Definition refused (timeout : time.Duration) (ctx : Context) (endpoint : string)
    (n : nat) (t : time.Time) : time.Duration * (error + Z) :=
  (time.Millisecond, inl (errors.New 0 "dial tcp 127.0.0.1:4001: connect: connection refused")).

Definition up_at_third (timeout : time.Duration) (ctx : Context) (endpoint : string)
    (n : nat) (t : time.Time) : time.Duration * (error + Z) :=
  if (n <? 2)%nat
  then (time.Millisecond,
        inl (errors.New 0 "dial tcp 127.0.0.1:4001: connect: connection refused"))
  else (2 * time.Millisecond, inr http.StatusOK).

Definition unavailable (timeout : time.Duration) (ctx : Context) (endpoint : string)
    (n : nat) (t : time.Time) : time.Duration * (error + Z) :=
  (time.Millisecond, inr 503).

Definition ctx_cancelled (ctx : Context) (t : time.Time) : option error :=
  Some errors.Canceled.

Definition ctx_live (ctx : Context) (t : time.Time) : option error := None.

(** How a duration of whole seconds, less than a minute, prints. *)
Definition seconds (d : time.Duration) : string := Itoa (d / time.Second) +:+ "s".

(** A request as the mux hands it to the handler of [GET /hello/{name}]. *)
Definition routed_request : http.Request :=
  {| http.Method := http.MethodGet; http.URLPath := "/hello/Testing";
     http.RawQuery := ""; http.ReqHeader := ∅; http.ReqBody := "";
     http.RemoteAddr := "192.0.2.1:1234"; http.pat := ["name"];
     http.matches := ["Testing"]; http.otherValues := ∅ |}.

#[global] Instance Context_eq_dec : EqDecision Context.
Proof. solve_decision. Defined.

(** The first registration for signals in a trace: the context it
    returned, and what happened since. *)
Fixpoint registration (tr : list label) : option (Context * list label) :=
  match tr with
  | [] => None
  | LCall _ (Ev (op.NotifyContext _ _) ctx') :: rest => Some (ctx', rest)
  | _ :: rest => registration rest
  end.

(** What ends the life of the context [run] works under: one of the two
    signals it asked for, or a call of its cancel function. *)
Definition stops (ctx : Context) (l : label) : bool :=
  match l with
  | LSignal sig => bool_decide (sig ∈ [os.Interrupt; syscall.SIGTERM])
  | LCall _ (Ev (op.Cancel c) _) => bool_decide (c = ctx)
  | _ => false
  end.

(** What holds of the program before and after [run] has registered. *)
Definition signal_invariant (getenv : EnvGetter) (pre : list label)
    (cfg : config (option error)) : Prop :=
  (exists q n,
      cfg.1 = Main q :: replicate n (Goroutine (Ret tt)) /\
      lexec (run context.Background getenv) (projs 0 pre) q) /\
  match registration pre with
  | None =>
      projs 0 pre = [] /\ notify cfg.2 = ∅ /\ (forall id, id ∉ cancelled cfg.2) /\
      next cfg.2 = O
  | Some (ctx', rest) =>
      projs 0 pre !! 0%nat
      = Some (Ev (op.NotifyContext context.Background [os.Interrupt; syscall.SIGTERM])
                ctx') /\
      ctx' = context.Derived context.Background 0 None /\
      (1 <= next cfg.2)%nat /\
      (0%nat ∈ cancelled cfg.2 <-> existsb (stops ctx') rest = true) /\
      (existsb (stops ctx') rest = false ->
       notify cfg.2 !! 0%nat = Some [os.Interrupt; syscall.SIGTERM])
  end.

(** [run] registers; then a SIGHUP arrives and half a minute passes. *)
Definition run_hup : list choice :=
  [Run 0%nat; Signal os.SIGHUP; Tick (30 * time.Second)].


(** The operation of an event. *)
Definition call_of (e : event) : op.call :=
  match e with Ev c _ => c end.

(** The goroutine a [go] statement started. *)
Definition spawned (e : event) : option goroutine :=
  match e with Ev (op.Go g) _ => Some g | _ => None end.

(** What an event leaves behind in the world for good: a context made by
    [WithCancel] is a fresh one below its parent; a context that was
    cancelled stays cancelled; a server or channel that was made stays;
    a channel that was closed stays closed. *)
Definition recorded (e : event) (w : world) : Prop :=
  match e with
  | Ev c x =>
      match c return op.ret c -> Prop with
      | op.WithCancel parent => fun ctx => exists id, ctx = context.Derived parent id None
      | op.Cancel ctx => fun _ =>
          match ctx with
          | context.Derived _ id _ => id ∈ cancelled w
          | _ => True
          end
      | op.New _ => fun srv => match srv with Ptr i => is_Some (servers w !! i) end
      | op.Make => fun ch => match ch with Chan i => is_Some (chans w !! i) end
      | op.Close ch => fun _ => match ch with Chan i => chans w !! i = Some true end
      | _ => fun _ => True
      end x
  end.

(** Channels are numbered below the next free number. *)
Definition fresh (w : world) : Prop :=
  forall i, is_Some (chans w !! i) -> (i < next w)%nat.

(** A step of a goroutine, as opposed to a signal, the passing of time, or
    the end of the process. *)
Definition is_move (l : label) : bool :=
  match l with
  | LCall _ _ | LSync _ _ _ _ => true
  | _ => false
  end.

(** The test left alone until half a second after its [go] statement,
    with the coordinator not yet scheduled. *)
Definition test_midway : list choice :=
  [Run 0; Run 0; Run 0; Tick time.Second; Run 0; Signal os.SIGHUP]%nat.


(** The server and the context of a call of [Shutdown]. *)
Definition drain_of (e : event) : option (ptr * Context) :=
  match e with Ev (op.Shutdown srv ctx) _ => Some (srv, ctx) | _ => None end.


(** The whole program: one goroutine, running [main]. *)
Definition main_system (environ : gmap string string) : config unit :=
  ([Main (main environ)], boot).

(** Standard error after the operations of a trace, given what it held
    before. *)
Fixpoint written (acc : string) (tr : list event) : string :=
  match tr with
  | [] => acc
  | Ev (op.Stderr text) _ :: rest => written (acc +:+ text) rest
  | _ :: rest => written acc rest
  end.

(** What holds of every state of the program: beside [main] there are
    only goroutines with nothing left to do, no channel is closed,
    standard error holds what [main] wrote, and if the process has ended,
    it is [main] that ended it, by [os.Exit]. *)
Definition main_invariant (environ : gmap string string) (pre : list label)
    (cfg : config unit) : Prop :=
  exists (q : prog unit) (n : nat),
    cfg.1 = Main q :: replicate n (Goroutine (Ret tt)) /\
    lexec (main environ) (projs 0 pre) q /\
    (forall id : nat, chans cfg.2 !! id <> Some true) /\
    stderr cfg.2 = written "" (projs 0 pre) /\
    match halted cfg.2 with
    | None => True
    | Some Crashed => False
    | Some (Exited code) => head (Main q) = Some (op.Exit code)
    end.

(** The program with a server that cannot bind its port, to its end. *)
Definition main_demo : list choice :=
  [Run 0; Run 0; Run 0; Run 0; Run 0; Run 0; Run 0; Run 0]%nat.

Definition serve_fails (s : http.Server) (now : time.Time) : option (option error) :=
  Some (Some bind_failure).

(* ===================================================================== *)
(** * Part IV: properties                                                *)
(* ===================================================================== *)

(** ** The scheduler only takes steps of the system *)

Section Scheduler.

Variable serve : http.Server -> time.Time -> option (option error).
Variable drain : http.Server -> Context -> time.Time -> option error.

Lemma fire_call_sound {R : Type} (t : nat) (c : op.call) (k : op.ret c -> thread R)
    (th : thread R) (ts : list (thread R)) (w : world) (l : label) (cfg' : config R) :
  halted w = None ->
  ts !! t = Some th ->
  head th = Some c ->
  (forall x, thread_step th (Ev c x) (k x)) ->
  fire_call serve drain t c k ts w = Some (l, cfg') ->
  step serve drain (ts, w) l cfg'.
Proof.
  intros Hh Ht Hhead Hk. unfold fire_call.
  destruct (panics w c) eqn:Hp.
  - intros [= <- <-]. eapply step_panic; eauto.
  - destruct c;
      try (destruct (exec_call serve drain w _) as [[[x w'] st]|] eqn:E; [|done];
           intros [= <- <-]; eapply step_call; eauto; exact E).
    intros [= <- <-]. eapply step_exit; eauto.
Qed.

Lemma sending_step {R : Type} (th th' : thread R) (i : nat) (v : option error) :
  sending th = Some (i, v, th') ->
  thread_step th (Ev (op.Send (Chan i) v) tt) th'.
Proof.
  destruct th as [[r|c k]|[r|c k]]; simpl; try done;
    destruct c as [| | | | | | | | | |[j] v'| | | | |]; try done;
    intros [= -> -> <-]; simpl; by exists tt.
Qed.

Lemma receiving_step {R : Type} (th : thread R) (i : nat)
    (k : option error -> thread R) (v : option error) :
  receiving th = Some (i, k) ->
  thread_step th (Ev (op.Recv (Chan i)) v) (k v).
Proof.
  destruct th as [[r|c k']|[r|c k']]; simpl; try done;
    destruct c as [| | | | | | | | | | |[j]| | | |]; try done;
    intros [= -> <-]; simpl; by exists v.
Qed.

Lemma fire_sound {R : Type} (ch : choice) (cfg cfg' : config R) (l : label) :
  fire serve drain ch cfg = Some (l, cfg') -> step serve drain cfg l cfg'.
Proof.
  destruct cfg as [ts w]. unfold fire.
  destruct (halted w) eqn:Hh; [done|].
  destruct ch as [t|s r|sig|d].
  - destruct (ts !! t) as [[[v|c k]|[v|c k]]|] eqn:Ht; try done;
      intros Hf; eapply fire_call_sound in Hf; eauto; intros x; simpl; by exists x.
  - destruct (ts !! s) as [ths|] eqn:Hs; [|done].
    destruct (ts !! r) as [thr|] eqn:Hr; [|done].
    destruct (sending ths) as [[[i v] ths']|] eqn:Hsend; [|done].
    destruct (receiving thr) as [[j kr]|] eqn:Hrecv; [|done].
    destruct (negb (s =? r)%nat) eqn:Hne; [|done].
    destruct (i =? j)%nat eqn:Hij; [|done].
    case_bool_decide as Hopen; [|done]. simpl.
    intros [= <- <-].
    apply Nat.eqb_eq in Hij as <-.
    apply negb_true_iff, Nat.eqb_neq in Hne.
    eapply step_sync; eauto using sending_step, receiving_step.
  - intros [= <- <-]. by apply step_signal.
  - destruct (0 <? d) eqn:Hd; [|done]. intros [= <- <-].
    apply step_tick; [done|]. by apply Z.ltb_lt.
Qed.

Lemma schedule_sound {R : Type} (chs : list choice) (cfg cfg' : config R)
    (tr : list label) :
  schedule serve drain chs cfg = Some (tr, cfg') -> steps serve drain cfg tr cfg'.
Proof.
  revert cfg tr. induction chs as [|ch chs IH]; intros cfg tr; simpl.
  - intros [= <- <-]. constructor.
  - destruct (fire serve drain ch cfg) as [[l cfg1]|] eqn:Hf; [|done].
    destruct (schedule serve drain chs cfg1) as [[tr1 cfg2]|] eqn:Hs; [|done].
    intros [= <- <-]. econstructor; eauto using fire_sound.
Qed.

End Scheduler.

(** ** What one goroutine does, seen from the whole system *)

Lemma thread_exec_app {R : Type} (th th'' : thread R) (a b : list event) :
  thread_exec th (a ++ b) th'' <->
  exists th', thread_exec th a th' /\ thread_exec th' b th''.
Proof.
  revert th. induction a as [|e a IH]; intros th; simpl.
  - split; [intros H; by exists th | by intros (th' & -> & H)].
  - split.
    + intros (th1 & Hs & H). apply IH in H as (th' & Ha & Hb). eauto 6.
    + intros (th' & (th1 & Hs & Ha) & Hb). exists th1. split; [done|].
      apply IH. eauto.
Qed.

Lemma lexec_app {R : Type} (p p'' : prog R) (a b : list event) :
  lexec p (a ++ b) p'' <-> exists p', lexec p a p' /\ lexec p' b p''.
Proof.
  revert p. induction a as [|e a IH]; intros p; simpl.
  - split; [intros H; by exists p | by intros (p' & -> & H)].
  - split.
    + intros (p1 & Hs & H). apply IH in H as (p' & Ha & Hb). eauto 6.
    + intros (p' & (p1 & Hs & Ha) & Hb). exists p1. split; [done|].
      apply IH. eauto.
Qed.


Lemma thread_exec_goroutine {R : Type} (p : prog unit) (tr : list event) (th' : thread R) :
  thread_exec (Goroutine p) tr th' -> exists q, th' = Goroutine q /\ lexec p tr q.
Proof.
  revert p. induction tr as [|e tr IH]; intros p; simpl.
  - intros ->. eauto.
  - intros ([p1|p1] & Hs & H); [done|].
    apply IH in H as (q & -> & H). eauto.
Qed.

Section Projection.

Variable serve : http.Server -> time.Time -> option (option error).
Variable drain : http.Server -> Context -> time.Time -> option error.

Lemma step_proj {R : Type} (cfg cfg' : config R) (l : label) (t : nat) (th : thread R) :
  step serve drain cfg l cfg' ->
  cfg.1 !! t = Some th ->
  exists th', cfg'.1 !! t = Some th' /\ thread_exec th (proj t l) th'.
Proof.
  intros Hstep Ht.
  destruct Hstep as [ts w t0 th0 e th' w' started Hh Ht0 Hstp Hret
                    |ts w s r ths ths' thr thr' id v Hh Hne Hs Hr Hch Hsend Hrecv
                    |ts w t0 th0 c Hh Ht0 Hhd Hp
                    |ts w t0 th0 code Hh Ht0 Hhd
                    |ts w sig Hh
                    |ts w d Hh Hd]; simpl in *.
  - destruct (Nat.eqb_spec t t0) as [->|Hne].
    + assert (th0 = th) as -> by congruence.
      exists th'. split; [|by exists th'].
      rewrite lookup_app_l by (rewrite length_insert; by eapply lookup_lt_Some).
      apply list_lookup_insert_eq. by eapply lookup_lt_Some.
    + exists th. split; [|done].
      rewrite lookup_app_l by (rewrite length_insert; by eapply lookup_lt_Some).
      by rewrite list_lookup_insert_ne.
  - destruct (Nat.eqb_spec t s) as [Es|Hts]; destruct (Nat.eqb_spec t r) as [Er|Htr];
      simpl.
    + congruence.
    + subst s. assert (ths = th) as -> by congruence.
      exists ths'. split; [|by exists ths'].
      rewrite list_lookup_insert_ne by done.
      apply list_lookup_insert_eq. by eapply lookup_lt_Some.
    + subst r. assert (thr = th) as -> by congruence.
      exists thr'. split; [|by exists thr'].
      apply list_lookup_insert_eq. rewrite length_insert. by eapply lookup_lt_Some.
    + exists th. split; [|done]. by rewrite !list_lookup_insert_ne.
  - by exists th.
  - by exists th.
  - by exists th.
  - by exists th.
Qed.

Lemma steps_proj {R : Type} (cfg cfg' : config R) (tr : list label) (t : nat)
    (th : thread R) :
  steps serve drain cfg tr cfg' ->
  cfg.1 !! t = Some th ->
  exists th', cfg'.1 !! t = Some th' /\ thread_exec th (projs t tr) th'.
Proof.
  intros Hsteps. revert th. induction Hsteps as [cfg|cfg l cfg1 tr cfg2 Hs _ IH]; intros th Ht.
  - by exists th.
  - destruct (step_proj _ _ _ _ _ Hs Ht) as (th1 & Ht1 & He1).
    destruct (IH _ Ht1) as (th2 & Ht2 & He2).
    exists th2. split; [done|]. unfold projs. simpl.
    apply thread_exec_app. eauto.
Qed.

End Projection.

(** ** The shutdown coordinator *)

Ltac lexec_inv H x :=
  match type of H with
  | lexec _ ?tr _ =>
      destruct tr as [|? tr];
      [ cbn in H; subst
      | cbn in H; destruct H as (? & (x & -> & ->) & H) ];
      repeat match goal with u : unit |- _ => destruct u end
  end.

Ltac lexec_end H :=
  match type of H with
  | lexec _ ?tr _ =>
      destruct tr as [|? tr]; cbn in H; [subst | by destruct H as (? & [] & _)]
  end.

Ltac trace_end :=
  unfold coordinator_trace; cbn;
  split; [ by eexists | split; [ done | discriminate ] ].

(** The coordinator, run alone, does a prefix of [coordinator_trace], and
    all of it when it returns. *)
Lemma shutdown_lexec (ctx : Context) (srv : ptr) (ch : chan) (d : time.Duration)
    (tr : list event) (q : prog unit) :
  lexec (shutdown ctx srv ch d) tr q ->
  exists sctx err,
    tr `prefix_of` coordinator_trace ctx srv ch d sctx err /\
    (finished q <-> tr = coordinator_trace ctx srv ch d sctx err).
Proof.
  intros H. unfold shutdown, defer, perform in H.
  lexec_inv H x1. { exists context.Background, None. trace_end. }
  lexec_inv H sctx. { exists context.Background, None. trace_end. }
  lexec_inv H x3. { exists sctx, None. trace_end. }
  lexec_inv H err. { exists sctx, None. trace_end. }
  exists sctx, err.
  destruct err as [e|].
  - lexec_inv H x5. { trace_end. }
    lexec_inv H x6. { trace_end. }
    lexec_inv H x7. { trace_end. }
    lexec_end H.
    unfold coordinator_trace; cbn. split; [by exists []|done].
  - lexec_inv H x5. { trace_end. }
    lexec_inv H x6. { trace_end. }
    lexec_end H.
    unfold coordinator_trace; cbn. split; [by exists []|done].
Qed.

(** The same, for the coordinator as one goroutine among others. *)
Lemma coordinator_observed {R : Type}
    (serve : http.Server -> time.Time -> option (option error))
    (drain : http.Server -> Context -> time.Time -> option error)
    (cfg cfg' : config R) (tr : list label) (t : nat)
    (ctx : Context) (srv : ptr) (ch : chan) (d : time.Duration) :
  cfg.1 !! t = Some (Goroutine (shutdown ctx srv ch d)) ->
  steps serve drain cfg tr cfg' ->
  exists q sctx err,
    cfg'.1 !! t = Some (Goroutine q) /\
    projs t tr `prefix_of` coordinator_trace ctx srv ch d sctx err /\
    (finished q <-> projs t tr = coordinator_trace ctx srv ch d sctx err).
Proof.
  intros Ht Hsteps.
  destruct (steps_proj _ _ _ _ _ _ _ Hsteps Ht) as (th' & Ht' & Hex).
  apply thread_exec_goroutine in Hex as (q & -> & Hex).
  apply shutdown_lexec in Hex as (sctx & err & Hpre & Hfin).
  by exists q, sctx, err.
Qed.





(** The harness reaches its end under both schedules. *)
Lemma harness_failing_steps (e : error) :
  steps serve_until_shutdown drain_clean (harness (Some e))
    (trace_of harness_failing (harness (Some e)))
    (after harness_failing (harness (Some e))).
Proof. apply schedule_sound with (chs := harness_failing). vm_compute. reflexivity. Qed.

Lemma harness_clean_steps :
  steps serve_until_shutdown drain_clean (harness None)
    (trace_of harness_clean (harness None))
    (after harness_clean (harness None)).
Proof. apply schedule_sound with (chs := harness_clean). vm_compute. reflexivity. Qed.

Example harness_failing_ends (e : error) :
  (after harness_failing (harness (Some e))).1
  = [Main (Ret (Some e)); Goroutine (Ret tt)].
Proof. vm_compute. reflexivity. Qed.

Example harness_clean_ends :
  (after harness_clean (harness None)).1 = [Main (Ret None); Goroutine (Ret tt)].
Proof. vm_compute. reflexivity. Qed.


Lemma filter_prefix (f : event -> bool) (l l' : list event) :
  l' `prefix_of` l -> List.filter f l' `prefix_of` List.filter f l.
Proof. intros [k ->]. rewrite List.filter_app. by eexists. Qed.

Lemma prefix_length_le (l l' : list event) :
  l' `prefix_of` l -> (length l' <= length l)%nat.
Proof. intros [k ->]. rewrite length_app. lia. Qed.

Lemma coordinator_trace_no_send_after_close ctx srv ch d sctx err pre e post :
  coordinator_trace ctx srv ch d sctx err = (pre ++ e :: post)%list ->
  is_Close e = true ->
  List.filter is_Send post = [].
Proof.
  unfold coordinator_trace. intros H He.
  destruct err; cbn in H;
    do 8 (try (destruct pre as [|? pre];
               [ simplify_eq/=; done
               | cbn in H; first [injection H as <- H | discriminate H] ])).
Qed.

(** C3. Whatever the drain returns and however the goroutines are
    interleaved, the coordinator sends at most once and closes at most
    once, sends nothing after the close, and sends nothing at all when the
    drain returned no error; when it has returned, it has sent exactly the
    drain's error if there was one, nothing otherwise, and has closed the
    channel once. *)
Theorem shutdown_sends_at_most_once_then_closes {R : Type}
    (serve : http.Server -> time.Time -> option (option error))
    (drain : http.Server -> Context -> time.Time -> option error)
    (cfg cfg' : config R) (tr : list label) (t : nat)
    (ctx : Context) (srv : ptr) (ch : chan) (d : time.Duration) :
  cfg.1 !! t = Some (Goroutine (shutdown ctx srv ch d)) ->
  steps serve drain cfg tr cfg' ->
  (length (List.filter is_Send (projs t tr)) <= 1)%nat /\
  (length (List.filter is_Close (projs t tr)) <= 1)%nat /\
  (forall pre e post, projs t tr = (pre ++ e :: post)%list -> is_Close e = true ->
     List.filter is_Send post = []) /\
  (forall sctx, Ev (op.Shutdown srv sctx) None ∈ projs t tr ->
     List.filter is_Send (projs t tr) = []) /\
  (forall q, cfg'.1 !! t = Some (Goroutine q) -> finished q ->
     exists sctx err,
       Ev (op.Shutdown srv sctx) err ∈ projs t tr /\
       List.filter is_Send (projs t tr)
       = match err with
         | Some _ => [Ev (op.Send ch err) tt]
         | None => []
         end /\
       List.filter is_Close (projs t tr) = [Ev (op.Close ch) tt]).
Proof.
  intros Ht Hsteps.
  destruct (coordinator_observed _ _ _ _ _ _ _ _ _ _ Ht Hsteps)
    as (q & sctx & err & Hq & Hpre & Hfin).
  split_and!.
  - apply (filter_prefix is_Send), prefix_length_le in Hpre.
    etrans; [exact Hpre|]. unfold coordinator_trace. destruct err; cbn; lia.
  - apply (filter_prefix is_Close), prefix_length_le in Hpre.
    etrans; [exact Hpre|]. unfold coordinator_trace. destruct err; cbn; lia.
  - intros pre e post Hobs He. destruct Hpre as [k Hk].
    rewrite Hobs in Hk. rewrite <- app_assoc in Hk. simpl in Hk.
    eapply coordinator_trace_no_send_after_close in Hk; [|done].
    rewrite List.filter_app in Hk. by apply app_eq_nil in Hk as [? _].
  - intros sctx' Hin.
    assert (err = None) as ->.
    { destruct Hpre as [k Hk].
      assert (Ev (op.Shutdown srv sctx') None
                ∈ coordinator_trace ctx srv ch d sctx err) as Hin'.
      { rewrite Hk. apply elem_of_app. by left. }
      unfold coordinator_trace in Hin'. destruct err as [e|]; [|done].
      apply (list_elem_of_fmap_2 drained) in Hin'. cbn in Hin'.
      do 7 (apply elem_of_cons in Hin' as [Hin'|Hin']; [done|]).
      by apply elem_of_nil in Hin'. }
    apply (filter_prefix is_Send), prefix_length_le in Hpre.
    cbn in Hpre. destruct (List.filter is_Send (projs t tr)); [done|simpl in Hpre; lia].
  - intros q' Hq' Hdone. assert (q' = q) as -> by congruence.
    apply Hfin in Hdone. exists sctx, err. rewrite Hdone.
    unfold coordinator_trace.
    destruct err; cbn; (split_and!; [|done|done]);
      apply list_elem_of_lookup; by exists 3%nat.
Qed.

Lemma shutdown_sends_at_most_once_then_closes_witness :
  let obs := projs 1 (trace_of harness_failing (harness (Some errors.Canceled))) in
  (length (List.filter is_Send obs) <= 1)%nat /\
  (length (List.filter is_Close obs) <= 1)%nat /\
  (forall pre e post, obs = (pre ++ e :: post)%list -> is_Close e = true ->
     List.filter is_Send post = []) /\
  (forall sctx, Ev (op.Shutdown (Ptr 2) sctx) None ∈ obs ->
     List.filter is_Send obs = []) /\
  (forall q,
     (after harness_failing (harness (Some errors.Canceled))).1 !! 1%nat
     = Some (Goroutine q) -> finished q ->
     exists sctx err,
       Ev (op.Shutdown (Ptr 2) sctx) err ∈ obs /\
       List.filter is_Send obs
       = match err with
         | Some _ => [Ev (op.Send (Chan 1) err) tt]
         | None => []
         end /\
       List.filter is_Close obs = [Ev (op.Close (Chan 1)) tt]).
Proof.
  apply (shutdown_sends_at_most_once_then_closes serve_until_shutdown drain_clean
           (harness (Some errors.Canceled))
           (after harness_failing (harness (Some errors.Canceled)))
           _ 1 (context.Derived context.TODO 0 None) (Ptr 2) (Chan 1) time.Second).
  - vm_compute. reflexivity.
  - apply schedule_sound with (chs := harness_failing). vm_compute. reflexivity.
Defined.

(** C9. Of the methods of the server, the coordinator calls
    [SetKeepAlivesEnabled(false)] and then [Shutdown], each once and in
    that order, and nothing else, whatever the drain returns. *)
Theorem shutdown_touches_server_twice {R : Type}
    (serve : http.Server -> time.Time -> option (option error))
    (drain : http.Server -> Context -> time.Time -> option error)
    (cfg cfg' : config R) (tr : list label) (t : nat)
    (ctx : Context) (srv : ptr) (ch : chan) (d : time.Duration) :
  cfg.1 !! t = Some (Goroutine (shutdown ctx srv ch d)) ->
  steps serve drain cfg tr cfg' ->
  exists sctx err,
    List.filter on_server (projs t tr)
    `prefix_of` [ Ev (op.SetKeepAlivesEnabled srv false) tt;
                  Ev (op.Shutdown srv sctx) err ] /\
    (forall q, cfg'.1 !! t = Some (Goroutine q) -> finished q ->
       List.filter on_server (projs t tr)
       = [ Ev (op.SetKeepAlivesEnabled srv false) tt;
           Ev (op.Shutdown srv sctx) err ]).
Proof.
  intros Ht Hsteps.
  destruct (coordinator_observed _ _ _ _ _ _ _ _ _ _ Ht Hsteps)
    as (q & sctx & err & Hq & Hpre & Hfin).
  exists sctx, err. split.
  - apply (filter_prefix on_server) in Hpre.
    unfold coordinator_trace in Hpre. by destruct err.
  - intros q' Hq' Hdone. assert (q' = q) as -> by congruence.
    apply Hfin in Hdone. rewrite Hdone. unfold coordinator_trace. by destruct err.
Qed.

Lemma shutdown_touches_server_twice_witness :
  exists sctx err,
    List.filter on_server (projs 1 (trace_of harness_clean (harness None)))
    `prefix_of` [ Ev (op.SetKeepAlivesEnabled (Ptr 2) false) tt;
                  Ev (op.Shutdown (Ptr 2) sctx) err ] /\
    (forall q, (after harness_clean (harness None)).1 !! 1%nat = Some (Goroutine q) ->
       finished q ->
       List.filter on_server (projs 1 (trace_of harness_clean (harness None)))
       = [ Ev (op.SetKeepAlivesEnabled (Ptr 2) false) tt;
           Ev (op.Shutdown (Ptr 2) sctx) err ]).
Proof.
  apply (shutdown_touches_server_twice serve_until_shutdown drain_clean
           (harness None) (after harness_clean (harness None))
           _ 1 (context.Derived context.TODO 0 None) (Ptr 2) (Chan 1) time.Second).
  - vm_compute. reflexivity.
  - apply schedule_sound with (chs := harness_clean). vm_compute. reflexivity.
Defined.

(** ** Errors *)

Lemma errors_eqb_refl (e : error) : errors.eqb e e = true.
Proof.
  induction e as [| | |i s|s e IH]; simpl; try done.
  - by rewrite Nat.eqb_refl, String.eqb_refl.
  - by rewrite String.eqb_refl, IH.
Qed.

(** For an error that wraps nothing, [errors.Is] against the sentinel is
    identity with the sentinel. *)
Lemma Is_sentinel_unwrapped (e : error) :
  errors.Unwrap e = None ->
  errors.Is (Some e) http.ErrServerClosed = true <-> e = errors.ErrServerClosed.
Proof. destruct e; simpl; intros H; split; try done. Qed.

Example Is_sees_through_wrapping :
  errors.Is (Some (errors.Wrap "serve: " errors.ErrServerClosed)) http.ErrServerClosed
  = true.
Proof. reflexivity. Qed.

(** ** The lifecycle [run] *)

(** [run] gets as far as a returned [ListenAndServe] in one way only. *)
Lemma run_reaches_serve (ctx : Context) (getenv : EnvGetter) (ctx' : Context)
    (srv : ptr) (ch : chan) (r : option error) :
  lexec (run ctx getenv)
        (run_setup ctx getenv ctx' srv ch ++ [Ev (op.ListenAndServe srv) r])
        (after_serve ctx' ch r).
Proof. cbn. repeat (eexists; split; [by eexists|]). reflexivity. Qed.

Ltac pre_inv H pre x :=
  destruct pre as [|? pre]; cbn in H;
  [ destruct H as (? & (x & ? & _) & _); discriminate
  | destruct H as (? & (x & -> & ->) & H) ];
  repeat match goal with u : unit |- _ => destruct u end.

Lemma run_after_serve (ctx : Context) (getenv : EnvGetter) (pre : list event)
    (srv : ptr) (r : option error) (q : prog (option error)) :
  lexec (run ctx getenv) (pre ++ [Ev (op.ListenAndServe srv) r]) q ->
  exists ctx' ch,
    pre = run_setup ctx getenv ctx' srv ch /\ q = after_serve ctx' ch r.
Proof.
  intros H. unfold run, defer, perform in H.
  pre_inv H pre ctx'.
  pre_inv H pre srv'.
  pre_inv H pre ch.
  pre_inv H pre x4.
  destruct pre as [|e pre]; cbn in H.
  - destruct H as (? & (r' & Heq & ->) & ->).
    apply (f_equal served) in Heq. cbn in Heq. injection Heq as -> ->.
    by exists ctx', ch.
  - destruct H as (? & (r' & -> & ->) & H). exfalso.
    destruct (negb (errors.Is r' http.ErrServerClosed)); cbn in H.
    + pre_inv H pre x6. destruct pre; cbn in H; by destruct H as (? & [] & _).
    + pre_inv H pre x6. pre_inv H pre x7.
      destruct pre; cbn in H; by destruct H as (? & [] & _).
Qed.

(** After a result that is not the sentinel, only the deferred cancel is
    left, and then [run] returns that result. *)
Lemma after_serve_error (ctx' : Context) (ch : chan) (r : option error)
    (tr : list event) (q : prog (option error)) :
  errors.Is r http.ErrServerClosed = false ->
  lexec (after_serve ctx' ch r) tr q ->
  tr `prefix_of` [Ev (op.Cancel ctx') tt] /\ (finished q -> q = Ret r).
Proof.
  intros Hr H. unfold after_serve in H. rewrite Hr in H. cbn in H.
  lexec_inv H x1. { split; [by eexists|done]. }
  lexec_end H. split; [by exists []|done].
Qed.

(** After the sentinel, [run] receives once, runs the deferred cancel and
    returns what it received. *)
Lemma after_serve_clean (ctx' : Context) (ch : chan) (r : option error)
    (tr : list event) (q : prog (option error)) :
  errors.Is r http.ErrServerClosed = true ->
  lexec (after_serve ctx' ch r) tr q ->
  exists v,
    tr `prefix_of` [Ev (op.Recv ch) v; Ev (op.Cancel ctx') tt] /\
    (finished q -> tr = [Ev (op.Recv ch) v; Ev (op.Cancel ctx') tt] /\ q = Ret v).
Proof.
  intros Hr H. unfold after_serve in H. rewrite Hr in H. cbn in H.
  lexec_inv H v. { exists None. split; [by eexists|done]. }
  exists v.
  lexec_inv H x2. { split; [by eexists|done]. }
  lexec_end H. split; [by exists []|done].
Qed.

(** The code of [run] on its own, with the channel taken as something
    that yields: when [ListenAndServe] returns the sentinel, what is left
    of [run] is one receive on the channel it made, the deferred cancel,
    and the return of the value received, if one is received. Whether the
    channel ever yields is a matter of the whole program; it is settled
    at the end of this part. *)
Theorem run_clean_closure_returns_what_channel_yields
    (ctx : Context) (getenv : EnvGetter) (pre : list event)
    (srv : ptr) (r : option error) (q : prog (option error)) :
  lexec (run ctx getenv) (pre ++ [Ev (op.ListenAndServe srv) r]) q ->
  errors.Is r http.ErrServerClosed = true ->
  exists ctx' ch,
    Ev op.Make ch ∈ pre /\
    waiting q = true /\
    (forall v, lexec q [Ev (op.Recv ch) v; Ev (op.Cancel ctx') tt] (Ret v)) /\
    (forall tr' q', lexec q tr' q' ->
       (length (List.filter is_Recv tr') <= 1)%nat /\
       (finished q' ->
          exists v, tr' = [Ev (op.Recv ch) v; Ev (op.Cancel ctx') tt] /\ q' = Ret v)) /\
    (forall serve drain w id, chans w !! id = Some true ->
       exec_call serve drain w (op.Recv (Chan id)) = Some (None, w, [])).
Proof.
  intros H Hr.
  apply run_after_serve in H as (ctx' & ch & -> & ->).
  exists ctx', ch. split_and!.
  - unfold run_setup. apply list_elem_of_lookup. by exists 2%nat.
  - unfold after_serve. by rewrite Hr.
  - intros v. unfold after_serve. rewrite Hr. cbn.
    eexists; split; [by eexists|]. eexists; split; [by exists tt|]. done.
  - intros tr' q' H.
    apply after_serve_clean in H as (v & Hpre & Hfin); [|done].
    split.
    + apply (filter_prefix is_Recv), prefix_length_le in Hpre. exact Hpre.
    + intros Hq. exists v. by apply Hfin.
  - intros serve drain w id Hc. cbn. by rewrite Hc.
Qed.

Lemma run_clean_closure_returns_what_channel_yields_witness :
  exists ctx' ch,
    Ev op.Make ch
      ∈ run_setup context.Background (fun _ => "")
          (context.Derived context.Background 0 None) (Ptr 1) (Chan 2) /\
    waiting (after_serve (context.Derived context.Background 0 None) (Chan 2)
               (Some http.ErrServerClosed)) = true /\
    (forall v,
       lexec (after_serve (context.Derived context.Background 0 None) (Chan 2)
                (Some http.ErrServerClosed))
             [Ev (op.Recv ch) v; Ev (op.Cancel ctx') tt] (Ret v)) /\
    (forall tr' q',
       lexec (after_serve (context.Derived context.Background 0 None) (Chan 2)
                (Some http.ErrServerClosed)) tr' q' ->
       (length (List.filter is_Recv tr') <= 1)%nat /\
       (finished q' ->
          exists v, tr' = [Ev (op.Recv ch) v; Ev (op.Cancel ctx') tt] /\ q' = Ret v)) /\
    (forall serve drain w id, chans w !! id = Some true ->
       exec_call serve drain w (op.Recv (Chan id)) = Some (None, w, [])).
Proof.
  apply (run_clean_closure_returns_what_channel_yields context.Background (fun _ => "")
           (run_setup context.Background (fun _ => "")
              (context.Derived context.Background 0 None) (Ptr 1) (Chan 2))
           (Ptr 1) (Some http.ErrServerClosed)).
  - cbn. repeat (eexists; split; [by eexists|]). reflexivity.
  - reflexivity.
Defined.

(** C5. When [ListenAndServe] returns anything that is not the sentinel,
    [run] has not read the channel, does not read it, and returns that
    result after nothing but its deferred cancel. *)
Theorem run_serve_error_returned_at_once
    (ctx : Context) (getenv : EnvGetter) (pre : list event)
    (srv : ptr) (r : option error) (q : prog (option error)) :
  lexec (run ctx getenv) (pre ++ [Ev (op.ListenAndServe srv) r]) q ->
  errors.Is r http.ErrServerClosed = false ->
  List.filter is_Recv pre = [] /\
  waiting q = false /\
  exists ctx',
    lexec q [Ev (op.Cancel ctx') tt] (Ret r) /\
    (forall tr' q', lexec q tr' q' ->
       List.filter is_Recv tr' = [] /\
       tr' `prefix_of` [Ev (op.Cancel ctx') tt] /\
       (finished q' -> q' = Ret r)).
Proof.
  intros H Hr.
  apply run_after_serve in H as (ctx' & ch & -> & ->).
  split_and!; [done|by unfold after_serve; rewrite Hr|].
  exists ctx'. split.
  - unfold after_serve. rewrite Hr. cbn. eexists; split; [by exists tt|]. done.
  - intros tr' q' H. apply after_serve_error in H as [Hpre Hfin]; [|done].
    split_and!; [|done|done].
    apply (filter_prefix is_Recv) in Hpre. cbn in Hpre.
    by apply prefix_nil_inv in Hpre.
Qed.

Lemma run_serve_error_returned_at_once_witness :
  List.filter is_Recv
    (run_setup context.Background (fun _ => "")
       (context.Derived context.Background 0 None) (Ptr 1) (Chan 2)) = [] /\
  waiting (after_serve (context.Derived context.Background 0 None) (Chan 2)
             (Some (errors.New 7 "listen tcp :4000: bind: address already in use")))
  = false /\
  exists ctx',
    lexec (after_serve (context.Derived context.Background 0 None) (Chan 2)
             (Some (errors.New 7 "listen tcp :4000: bind: address already in use")))
          [Ev (op.Cancel ctx') tt]
          (Ret (Some (errors.New 7 "listen tcp :4000: bind: address already in use"))) /\
    (forall tr' q',
       lexec (after_serve (context.Derived context.Background 0 None) (Chan 2)
                (Some (errors.New 7 "listen tcp :4000: bind: address already in use")))
             tr' q' ->
       List.filter is_Recv tr' = [] /\
       tr' `prefix_of` [Ev (op.Cancel ctx') tt] /\
       (finished q' ->
        q' = Ret (Some (errors.New 7 "listen tcp :4000: bind: address already in use")))).
Proof.
  apply (run_serve_error_returned_at_once context.Background (fun _ => "")
           (run_setup context.Background (fun _ => "")
              (context.Derived context.Background 0 None) (Ptr 1) (Chan 2))
           (Ptr 1)
           (Some (errors.New 7 "listen tcp :4000: bind: address already in use"))).
  - cbn. repeat (eexists; split; [by eexists|]). reflexivity.
  - reflexivity.
Defined.

(** C8. Once [ListenAndServe] has returned, [run] is blocked in a receive
    exactly when the result is the sentinel, and it reads the channel
    only then. A [nil] result is not the sentinel: [run] then returns
    [nil] after its deferred cancel, with no read of the channel. *)
Theorem run_waits_iff_clean_closure
    (ctx : Context) (getenv : EnvGetter) (pre : list event)
    (srv : ptr) (r : option error) (q : prog (option error)) :
  lexec (run ctx getenv) (pre ++ [Ev (op.ListenAndServe srv) r]) q ->
  waiting q = errors.Is r http.ErrServerClosed /\
  (forall tr' q', lexec q tr' q' ->
     (List.filter is_Recv tr' <> [] -> errors.Is r http.ErrServerClosed = true) /\
     (finished q' -> errors.Is r http.ErrServerClosed = true ->
      List.filter is_Recv tr' <> [])) /\
  errors.Is None http.ErrServerClosed = false /\
  (r = None ->
   exists ctx',
     lexec q [Ev (op.Cancel ctx') tt] (Ret None) /\
     (forall tr' q', lexec q tr' q' ->
        List.filter is_Recv tr' = [] /\ (finished q' -> q' = Ret None))).
Proof.
  intros H.
  apply run_after_serve in H as (ctx' & ch & -> & ->).
  split_and!.
  - unfold after_serve. by destruct (errors.Is r http.ErrServerClosed).
  - intros tr' q' H. destruct (errors.Is r http.ErrServerClosed) eqn:Hr.
    + split; [done|]. intros Hq _.
      apply after_serve_clean in H as (v & _ & Hfin); [|done].
      destruct (Hfin Hq) as [-> _]. done.
    + apply after_serve_error in H as [Hpre _]; [|done].
      apply (filter_prefix is_Recv) in Hpre. cbn in Hpre.
      apply prefix_nil_inv in Hpre. by rewrite Hpre.
  - done.
  - intros ->. exists ctx'. split.
    + cbn. eexists; split; [by exists tt|]. done.
    + intros tr' q' H. apply after_serve_error in H as [Hpre Hfin]; [|done].
      split; [|done].
      apply (filter_prefix is_Recv) in Hpre. cbn in Hpre.
      by apply prefix_nil_inv in Hpre.
Qed.

Lemma run_waits_iff_clean_closure_witness :
  waiting (after_serve (context.Derived context.Background 0 None) (Chan 2) None)
  = errors.Is None http.ErrServerClosed /\
  (forall tr' q',
     lexec (after_serve (context.Derived context.Background 0 None) (Chan 2) None)
           tr' q' ->
     (List.filter is_Recv tr' <> [] -> errors.Is None http.ErrServerClosed = true) /\
     (finished q' -> errors.Is None http.ErrServerClosed = true ->
      List.filter is_Recv tr' <> [])) /\
  errors.Is None http.ErrServerClosed = false /\
  (@None error = None ->
   exists ctx',
     lexec (after_serve (context.Derived context.Background 0 None) (Chan 2) None)
           [Ev (op.Cancel ctx') tt] (Ret None) /\
     (forall tr' q',
        lexec (after_serve (context.Derived context.Background 0 None) (Chan 2) None)
              tr' q' ->
        List.filter is_Recv tr' = [] /\ (finished q' -> q' = Ret None))).
Proof.
  apply (run_waits_iff_clean_closure context.Background (fun _ => "")
           (run_setup context.Background (fun _ => "")
              (context.Derived context.Background 0 None) (Ptr 1) (Chan 2))
           (Ptr 1) None).
  cbn. repeat (eexists; split; [by eexists|]). reflexivity.
Defined.

(** ** Strings, runes and white space *)

Lemma len_nonneg s : 0 <= len s.
Proof. unfold len. lia. Qed.

Lemma len_String c s : len (String c s) = 1 + len s.
Proof. unfold len. simpl. lia. Qed.

Lemma len_empty s : len s = 0 -> s = "".
Proof. destruct s; [done|]. rewrite len_String. pose proof (len_nonneg s). lia. Qed.

Lemma byte_of_range c : 0 <= byte_of c < 256.
Proof.
  unfold byte_of. pose proof (N_ascii_bounded c). lia.
Qed.

Lemma length_sdrop n s : String.length (sdrop n s) = (String.length s - n)%nat.
Proof. revert s. induction n as [|n IH]; intros [|c s]; simpl; auto with lia. Qed.

Lemma stake_all n s : (String.length s <= n)%nat -> stake n s = s.
Proof.
  revert s. induction n as [|n IH]; intros [|c s]; simpl; intros H; try done; try lia.
  f_equal. apply IH. lia.
Qed.

Lemma length_stake n s : String.length (stake n s) = Nat.min n (String.length s).
Proof. revert s. induction n as [|n IH]; intros [|c s]; simpl; auto with lia. Qed.

Lemma sdrop_sdrop n m s : sdrop n (sdrop m s) = sdrop (m + n) s.
Proof.
  revert s. induction m as [|m IH]; intros s; simpl; [done|].
  destruct s as [|c s]; [by destruct n|]. apply IH.
Qed.

Lemma slice_suffix s i : 0 <= i -> slice s i (len s) = sdrop (Z.to_nat i) s.
Proof.
  intros Hi. unfold slice. apply stake_all. rewrite length_sdrop. unfold len. lia.
Qed.

Lemma slice_full s : slice s 0 (len s) = s.
Proof. rewrite slice_suffix by lia. done. Qed.

Lemma len_slice s lo hi : 0 <= lo <= hi -> hi <= len s -> len (slice s lo hi) = hi - lo.
Proof.
  intros H1 H2. unfold slice, len in *. rewrite length_stake, length_sdrop. lia.
Qed.

Lemma get_sdrop n k s : String.get k (sdrop n s) = String.get (n + k) s.
Proof.
  revert s. induction n as [|n IH]; intros s; simpl; [done|].
  destruct s as [|c s]; [by destruct k|]. apply IH.
Qed.

Lemma get_stake n k s : (k < n)%nat -> String.get k (stake n s) = String.get k s.
Proof.
  revert k s. induction n as [|n IH]; intros k [|c s] Hk; simpl; try done; try lia.
  destruct k; [done|]. apply IH. lia.
Qed.

Lemma index_slice s lo hi k :
  0 <= lo -> 0 <= k < hi - lo -> index (slice s lo hi) k = index s (lo + k).
Proof.
  intros Hlo Hk. unfold index, slice.
  rewrite get_stake by lia. rewrite get_sdrop.
  by replace (Z.to_nat lo + Z.to_nat k)%nat with (Z.to_nat (lo + k)) by lia.
Qed.

Lemma index_String_0 c s : index (String c s) 0 = byte_of c.
Proof. done. Qed.

Lemma index_range s i : 0 <= index s i < 256.
Proof.
  unfold index. destruct (String.get _ s); [apply byte_of_range|lia].
Qed.

Lemma Decode_decode4 s :
  utf8.DecodeRuneInString s
  = decode4 (len s) (index s 0) (index s 1) (index s 2) (index s 3).
Proof. reflexivity. Qed.

Lemma first_cases b :
  utf8.first b = utf8.as_ \/ utf8.first b = utf8.xx \/ utf8.first b = utf8.s1 \/
  utf8.first b = utf8.s2 \/ utf8.first b = utf8.s3 \/ utf8.first b = utf8.s4 \/
  utf8.first b = utf8.s5 \/ utf8.first b = utf8.s6 \/ utf8.first b = utf8.s7.
Proof. unfold utf8.first. repeat case_match; tauto. Qed.

Lemma first_info b :
  ((utf8.as_ <=? utf8.first b) = true /\
   (utf8.first b = utf8.as_ \/ utf8.first b = utf8.xx)) \/
  ((utf8.as_ <=? utf8.first b) = false /\
   (Z.land (utf8.first b) 7 = 2 \/ Z.land (utf8.first b) 7 = 3 \/
    Z.land (utf8.first b) 7 = 4)).
Proof.
  destruct (first_cases b) as [Hf|[Hf|[Hf|[Hf|[Hf|[Hf|[Hf|[Hf|Hf]]]]]]]];
    rewrite Hf; vm_compute; tauto.
Qed.

Ltac zcases :=
  repeat (match goal with
          | |- context [?a <? ?b] => destruct (Z.ltb_spec a b)
          | |- context [?a <=? ?b] => destruct (Z.leb_spec a b)
          end; cbn [orb]; cbv iota).

Lemma decode4_size n s0 b1 b2 b3 :
  1 <= n -> 1 <= snd (decode4 n s0 b1 b2 b3) <= 4 /\ snd (decode4 n s0 b1 b2 b3) <= n.
Proof.
  intros Hn. unfold decode4. cbv zeta.
  destruct (n <? 1) eqn:E; [lia|].
  destruct (first_info s0) as [[-> Hx]|[-> Hsz]]; [simpl; lia|].
  generalize (utf8.acceptRanges (utf8.first s0 ≫ 4)). intros acc.
  destruct Hsz as [-> | [-> | ->] ]; zcases; cbn [snd]; lia.
Qed.

Lemma decode4_ext i n s0 b1 b2 b3 b1' b2' b3' r :
  decode4 i s0 b1' b2' b3' = (r, i) ->
  r <> utf8.RuneError ->
  i <= n ->
  (1 < i -> b1 = b1') -> (2 < i -> b2 = b2') -> (3 < i -> b3 = b3') ->
  decode4 n s0 b1 b2 b3 = (r, i).
Proof.
  unfold decode4. cbv zeta. intros H Hr Hn H1 H2 H3.
  destruct (i <? 1) eqn:Ei; [injection H as <- _; done|].
  assert ((n <? 1) = false) as -> by lia.
  revert H.
  destruct (first_info s0) as [[-> Hx]|[-> Hsz]].
  { intros [= <- <-]. done. }
  generalize (utf8.acceptRanges (utf8.first s0 ≫ 4)). intros acc.
  destruct Hsz as [-> | [-> | ->] ]; zcases; simpl;
    intros [= <- <-]; try done; try lia;
    rewrite ?H1, ?H2, ?H3 by lia; zcases; simpl; try done; try lia.
Qed.

Lemma decode4_ascii n s0 b1 b2 b3 :
  1 <= n -> (0 <= s0 < 0x80) -> decode4 n s0 b1 b2 b3 = (s0, 1).
Proof.
  intros Hn Hs. unfold decode4. cbv zeta.
  assert ((n <? 1) = false) as -> by lia.
  assert (utf8.first s0 = utf8.as_) as ->.
  { unfold utf8.first. by assert ((s0 <? 0x80) = true) as -> by lia. }
  change (utf8.as_ <=? utf8.as_) with true. cbv iota.
  change (wrap32 (utf8.as_ ≪ 31) ≫ 31) with 0.
  change (Z.lnot 0) with (-1).
  by rewrite Z.land_m1_r, Z.land_0_r, Z.lor_0_r.
Qed.

Lemma IsSpace_RuneError : unicode.IsSpace utf8.RuneError = false.
Proof. reflexivity. Qed.

Lemma IsSpace_ascii c :
  0 <= c < 0x80 -> unicode.IsSpace c = negb (strings.asciiSpace c =? 0).
Proof.
  intros Hc. unfold unicode.IsSpace, strings.asciiSpace, unicode.MaxLatin1.
  assert ((0 <=? c) && (c <=? 0xFF) = true) as -> by lia.
  assert ((c =? 0x85) = false) as -> by lia.
  assert ((c =? 0xA0) = false) as -> by lia.
  rewrite !orb_false_r.
  by destruct ((c =? 9) || (c =? 10) || (c =? 11) || (c =? 12) || (c =? 13) || (c =? 32)).
Qed.

Lemma Decode_size t :
  1 <= len t ->
  1 <= snd (utf8.DecodeRuneInString t) <= 4 /\
  snd (utf8.DecodeRuneInString t) <= len t.
Proof. intros H. rewrite Decode_decode4. by apply decode4_size. Qed.

Lemma Decode_ascii t :
  1 <= len t -> index t 0 < 0x80 ->
  utf8.DecodeRuneInString t = (index t 0, 1).
Proof.
  intros H H0. rewrite Decode_decode4. apply decode4_ascii; [done|].
  pose proof (index_range t 0). lia.
Qed.

(** A rune decoded from a prefix that it fills is the first rune of the
    whole string. *)
Lemma Decode_prefix t i r :
  0 < i <= len t ->
  utf8.DecodeRuneInString (slice t 0 i) = (r, i) ->
  r <> utf8.RuneError ->
  utf8.DecodeRuneInString t = (r, i).
Proof.
  intros Hi H Hr. rewrite Decode_decode4 in *.
  rewrite len_slice in H by lia. rewrite Z.sub_0_r in H.
  rewrite (index_slice t 0 i 0) in H by lia. simpl in H.
  eapply decode4_ext; [exact H|done|lia|..]; intros Hk;
    by rewrite index_slice by lia.
Qed.

Lemma findStart_le fuel s st lim : utf8.findStart fuel s st lim <= st.
Proof.
  revert st. induction fuel as [|fuel IH]; intros st; simpl; [lia|].
  repeat case_match; try lia. specialize (IH (st - 1)). lia.
Qed.

Lemma DecodeLast_spec t :
  1 <= len t ->
  1 <= snd (utf8.DecodeLastRuneInString t) <= len t /\
  (snd (utf8.DecodeLastRuneInString t) = len t ->
   unicode.IsSpace (fst (utf8.DecodeLastRuneInString t)) = true ->
   utf8.DecodeRuneInString t = utf8.DecodeLastRuneInString t).
Proof.
  intros Hl. unfold utf8.DecodeLastRuneInString. cbv zeta.
  assert ((len t =? 0) = false) as -> by lia.
  destruct (index t (len t - 1) <? utf8.RuneSelf) eqn:Ha.
  { simpl. split; [lia|]. intros Hone _.
    rewrite Decode_ascii; [|lia|].
    - by replace (len t - 1) with 0 by lia.
    - replace (len t - 1) with 0 in Ha by lia. unfold utf8.RuneSelf in Ha. lia. }
  pose proof (findStart_le (Z.to_nat utf8.UTFMax) t (len t - 1 - 1)
                (Z.max 0 (len t - utf8.UTFMax))) as Hfs.
  set (fs := utf8.findStart _ _ _ _) in *.
  set (start := if fs <? 0 then 0 else fs).
  assert (0 <= start /\ start < len t) as Hstart.
  { unfold start. destruct (Z.ltb_spec fs 0); lia. }
  pose proof (Decode_size (slice t start (len t))) as Hsz.
  rewrite len_slice in Hsz by lia.
  destruct (utf8.DecodeRuneInString (slice t start (len t))) as [r size] eqn:Hd.
  simpl in Hsz.
  destruct (Z.eqb_spec (start + size) (len t)) as [He|Hne]; simpl.
  - split; [lia|]. intros Hfull _.
    assert (start = 0) as Hz by lia. rewrite Hz in Hd.
    by rewrite slice_full in Hd.
  - split; [lia|]. intros _ Hsp. by rewrite IsSpace_RuneError in Hsp.
Qed.

Lemma lastIndexFunc_loop_range fuel t i :
  0 <= i <= len t ->
  strings.lastIndexFunc_loop fuel t i unicode.IsSpace false = -1 \/
  0 <= strings.lastIndexFunc_loop fuel t i unicode.IsSpace false < i.
Proof.
  revert i. induction fuel as [|fuel IH]; intros i Hi; simpl; [by left|].
  destruct (Z.leb_spec i 0); [by left|].
  pose proof (DecodeLast_spec (slice t 0 i)) as [Hsz _].
  { rewrite len_slice; lia. }
  rewrite len_slice in Hsz by lia.
  destruct (utf8.DecodeLastRuneInString (slice t 0 i)) as [r size]. simpl in Hsz.
  destruct (eqb (unicode.IsSpace r) false); [lia|].
  destruct (IH (i - size)); [lia|by left|lia].
Qed.

Lemma lastIndexFunc_loop_none fuel t i :
  0 < i <= len t -> i <= Z.of_nat fuel ->
  strings.lastIndexFunc_loop fuel t i unicode.IsSpace false = -1 ->
  unicode.IsSpace (fst (utf8.DecodeRuneInString t)) = true.
Proof.
  revert i. induction fuel as [|fuel IH]; intros i Hi Hf; [lia|]. simpl.
  destruct (Z.leb_spec i 0); [lia|].
  pose proof (DecodeLast_spec (slice t 0 i)) as [Hsz Hfull].
  { rewrite len_slice; lia. }
  rewrite len_slice in Hsz, Hfull by lia. rewrite Z.sub_0_r in *.
  destruct (utf8.DecodeLastRuneInString (slice t 0 i)) as [r size].
  simpl in Hsz, Hfull.
  destruct (unicode.IsSpace r) eqn:Hr; simpl; [|lia].
  destruct (Z.eq_dec size i) as [->|Hne].
  - intros _. specialize (Hfull eq_refl eq_refl).
    apply Decode_prefix in Hfull; [|lia|].
    + by rewrite Hfull.
    + intros ->. by rewrite IsSpace_RuneError in Hr.
  - apply IH; lia.
Qed.

Lemma slice_nonempty t lo hi :
  0 <= lo < hi -> lo < len t -> slice t lo hi <> "".
Proof.
  intros H1 H2 Heq. apply (f_equal len) in Heq. unfold len, slice in Heq.
  rewrite length_stake, length_sdrop in Heq. simpl in Heq. unfold len in H2. lia.
Qed.

(** A string that starts with a rune other than white space keeps it when
    trimmed on the right. *)
Lemma TrimRightFunc_nonempty t :
  1 <= len t ->
  unicode.IsSpace (fst (utf8.DecodeRuneInString t)) = false ->
  strings.TrimRightFunc t unicode.IsSpace <> "".
Proof.
  intros Hl Hns. unfold strings.TrimRightFunc, strings.lastIndexFunc. cbv zeta.
  pose proof (lastIndexFunc_loop_range (String.length t) t (len t)) as Hr.
  set (i := strings.lastIndexFunc_loop _ _ _ _ _) in *.
  assert (i <> -1) as Hi.
  { intros Hm. apply lastIndexFunc_loop_none in Hm; [congruence|lia|unfold len; lia]. }
  assert (0 <= i < len t) as Hi' by lia.
  pose proof (Decode_size (slice t i (len t))) as Hw.
  rewrite len_slice in Hw by lia.
  destruct ((0 <=? i) && (utf8.RuneSelf <=? index t i));
    apply slice_nonempty; lia.
Qed.

Lemma slice_slice_suffix s i k :
  0 <= i -> 0 <= k -> i + k <= len s ->
  slice (slice s i (len s)) k (len (slice s i (len s))) = slice s (i + k) (len s).
Proof.
  intros Hi Hk Hik.
  rewrite (slice_suffix (slice s i (len s))) by done.
  rewrite !slice_suffix by lia. rewrite sdrop_sdrop. f_equal. lia.
Qed.

Lemma runes_loop_empty fuel t : len t < 1 -> strings.runes_loop fuel t = [].
Proof. intros H. destruct fuel; simpl; [done|]. by assert ((len t <? 1) = true) as -> by lia. Qed.

Lemma runes_loop_fuel n t :
  (String.length t <= n)%nat ->
  strings.runes_loop n t = strings.runes_loop (String.length t) t.
Proof.
  revert t. induction n as [n IH] using lt_wf_ind. intros t Hn.
  destruct (Z.ltb_spec (len t) 1) as [He|Hne].
  { by rewrite !runes_loop_empty by done. }
  destruct n as [|n]; [unfold len in Hne; lia|].
  destruct (String.length t) as [|m] eqn:Hm; [unfold len in Hne; lia|].
  simpl. assert ((len t <? 1) = false) as -> by lia.
  pose proof (Decode_size t Hne) as Hsz.
  destruct (utf8.DecodeRuneInString t) as [r size]. simpl in Hsz. f_equal.
  assert (String.length (slice t size (len t)) <= m)%nat as Hu.
  { pose proof (len_slice t size (len t)) as Hl.
    pose proof (eq_refl : len t = Z.of_nat (String.length t)).
    pose proof (eq_refl : len (slice t size (len t))
                          = Z.of_nat (String.length (slice t size (len t)))).
    lia. }
  rewrite (IH n) by lia. rewrite (IH m) by lia. done.
Qed.

(** The runes of a string that is not empty: its first rune, then the
    runes of the rest. *)
Lemma only_whitespace_step t :
  1 <= len t ->
  only_whitespace t
  = unicode.IsSpace (fst (utf8.DecodeRuneInString t))
    && only_whitespace (slice t (snd (utf8.DecodeRuneInString t)) (len t)).
Proof.
  intros Hl. unfold only_whitespace, strings.runes.
  destruct (String.length t) as [|m] eqn:Hm; [unfold len in Hl; lia|].
  simpl. assert ((len t <? 1) = false) as -> by lia.
  pose proof (Decode_size t Hl) as Hsz.
  destruct (utf8.DecodeRuneInString t) as [r size]. simpl in *. f_equal.
  rewrite runes_loop_fuel; [done|].
  pose proof (len_slice t size (len t)) as Hlen.
  pose proof (eq_refl : len t = Z.of_nat (String.length t)).
  pose proof (eq_refl : len (slice t size (len t))
                        = Z.of_nat (String.length (slice t size (len t)))).
  lia.
Qed.

Lemma only_whitespace_empty t : len t < 1 -> only_whitespace t = true.
Proof.
  intros H. unfold only_whitespace, strings.runes. by rewrite runes_loop_empty.
Qed.

(** [indexFunc] finds the first rune that is not white space, if any. *)
Lemma indexFunc_loop_spec fuel s i :
  0 <= i <= len s -> len s - i <= Z.of_nat fuel ->
  (strings.indexFunc_loop fuel s i unicode.IsSpace false = -1 /\
   only_whitespace (slice s i (len s)) = true) \/
  (i <= strings.indexFunc_loop fuel s i unicode.IsSpace false < len s /\
   only_whitespace (slice s i (len s)) = false /\
   unicode.IsSpace
     (fst (utf8.DecodeRuneInString
             (slice s (strings.indexFunc_loop fuel s i unicode.IsSpace false) (len s))))
   = false).
Proof.
  revert i. induction fuel as [|fuel IH]; intros i Hi Hf.
  { left. split; [done|]. apply only_whitespace_empty. rewrite len_slice; lia. }
  simpl. destruct (Z.leb_spec (len s) i).
  { left. split; [done|]. apply only_whitespace_empty. rewrite len_slice; lia. }
  assert (1 <= len (slice s i (len s))) as Hl by (rewrite len_slice; lia).
  rewrite (only_whitespace_step _ Hl).
  pose proof (Decode_size _ Hl) as Hsz. rewrite len_slice in Hsz by lia.
  rewrite slice_slice_suffix by lia.
  destruct (utf8.DecodeRuneInString (slice s i (len s))) as [r size] eqn:Hd.
  simpl in *.
  destruct (unicode.IsSpace r) eqn:Hr; simpl.
  - destruct (IH (i + size)) as [[-> Hw]|(Hj & Hw & Hns)]; [lia|lia|by left; split|].
    right. split_and!; [lia|lia|done|done].
  - right. rewrite Hd. simpl. split_and!; [lia|lia|done|done].
Qed.

Lemma TrimFunc_empty_iff t :
  strings.TrimFunc t unicode.IsSpace = "" <-> only_whitespace t = true.
Proof.
  unfold strings.TrimFunc, strings.TrimLeftFunc, strings.indexFunc. cbv zeta.
  destruct (indexFunc_loop_spec (String.length t) t 0) as [[Hi Hw]|(Hj & Hw & Hns)].
  { pose proof (len_nonneg t). lia. }
  { unfold len. lia. }
  - rewrite Hi. simpl. rewrite slice_full in Hw. done.
  - rewrite slice_full in Hw.
    set (j := strings.indexFunc_loop _ _ _ _ _) in *.
    assert ((j =? -1) = false) as -> by lia.
    split; [|congruence]. intros He. exfalso.
    revert He. apply TrimRightFunc_nonempty; [|done].
    rewrite len_slice; lia.
Qed.

Lemma scanStart_spec fuel s i :
  0 <= i <= len s -> len s - i <= Z.of_nat fuel ->
  match strings.scanStart fuel s i with
  | strings.Stopped j =>
      i <= j <= len s /\
      only_whitespace (slice s i (len s)) = only_whitespace (slice s j (len s)) /\
      (j < len s -> index s j < 0x80 /\ strings.asciiSpace (index s j) = 0)
  | strings.NonASCII j =>
      i <= j < len s /\
      only_whitespace (slice s i (len s)) = only_whitespace (slice s j (len s))
  end.
Proof.
  revert i. induction fuel as [|fuel IH]; intros i Hi Hf; simpl.
  { split_and!; (done || lia). }
  destruct (Z.leb_spec (len s) i); [split_and!; (done || lia)|].
  unfold utf8.RuneSelf.
  destruct (Z.leb_spec 0x80 (index s i)); [split_and!; (done || lia)|].
  destruct (Z.eqb_spec (strings.asciiSpace (index s i)) 0) as [Hz|Hnz].
  { split_and!; (done || lia). }
  specialize (IH (i + 1)).
  assert (only_whitespace (slice s i (len s))
          = only_whitespace (slice s (i + 1) (len s))) as ->.
  { assert (1 <= len (slice s i (len s))) as Hl by (rewrite len_slice; lia).
    rewrite (only_whitespace_step _ Hl).
    rewrite Decode_ascii; [|done|rewrite index_slice by lia; by rewrite Z.add_0_r].
    simpl. rewrite slice_slice_suffix by lia.
    rewrite index_slice by lia. rewrite Z.add_0_r.
    pose proof (index_range s i).
    rewrite IsSpace_ascii by lia.
    by destruct (Z.eqb_spec (strings.asciiSpace (index s i)) 0). }
  destruct (strings.scanStart fuel s (i + 1)).
  - destruct IH as (? & ? & ?); [lia|lia|]. split_and!; (done || lia).
  - destruct IH as (? & ?); [lia|lia|]. split_and!; (done || lia).
Qed.

Lemma scanStop_spec fuel s start stop :
  0 <= start < stop -> stop <= len s ->
  index s start < 0x80 -> strings.asciiSpace (index s start) = 0 ->
  match strings.scanStop fuel s start stop with
  | strings.Stopped j | strings.NonASCII j => start < j <= stop
  end.
Proof.
  intros Hs Hl Ha Hn. revert stop Hs Hl.
  induction fuel as [|fuel IH]; intros stop Hs Hl; simpl; [lia|].
  destruct (Z.leb_spec stop start); [lia|].
  unfold utf8.RuneSelf.
  destruct (Z.leb_spec 0x80 (index s (stop - 1))); [lia|].
  destruct (Z.eqb_spec (strings.asciiSpace (index s (stop - 1))) 0); [lia|].
  assert (stop - 1 <> start) by congruence.
  specialize (IH (stop - 1)).
  destruct (strings.scanStop fuel s start (stop - 1)); lia.
Qed.

(** [TrimSpace] leaves nothing exactly when the string consists only of
    white space. *)
Lemma TrimSpace_empty_iff s :
  strings.TrimSpace s = "" <-> only_whitespace s = true.
Proof.
  unfold strings.TrimSpace.
  pose proof (scanStart_spec (String.length s) s 0) as Hscan.
  rewrite slice_full in Hscan.
  destruct (strings.scanStart (String.length s) s 0) as [start|start].
  - destruct Hscan as (Hr & -> & Hb); [pose proof (len_nonneg s); lia|unfold len; lia|].
    destruct (Z.eq_dec start (len s)) as [->|Hne].
    + rewrite (only_whitespace_empty (slice _ _ _)) by (rewrite len_slice; lia).
      split; [done|intros _].
      destruct (String.length s); simpl; [|rewrite Z.leb_refl];
        unfold slice; by rewrite Z.sub_diag.
    + destruct Hb as [Ha Hn]; [lia|].
      assert (1 <= len (slice s start (len s))) as Hl by (rewrite len_slice; lia).
      rewrite (only_whitespace_step _ Hl).
      rewrite Decode_ascii; [|done|rewrite index_slice by lia; by rewrite Z.add_0_r].
      simpl. rewrite index_slice by lia. rewrite Z.add_0_r.
      pose proof (index_range s start).
      rewrite IsSpace_ascii by lia. rewrite Hn. simpl.
      split; [|done]. intros He. exfalso. revert He.
      pose proof (scanStop_spec (String.length s) s start (len s)) as Hstop.
      destruct (strings.scanStop (String.length s) s start (len s)) as [stop|stop].
      * apply slice_nonempty; lia.
      * apply TrimRightFunc_nonempty.
        { rewrite len_slice; lia. }
        rewrite Decode_ascii;
          [|rewrite len_slice; lia|rewrite index_slice by lia; by rewrite Z.add_0_r].
        simpl. rewrite index_slice by lia. rewrite Z.add_0_r.
        rewrite IsSpace_ascii by lia. by rewrite Hn.
  - destruct Hscan as (Hr & ->); [pose proof (len_nonneg s); lia|unfold len; lia|].
    apply TrimFunc_empty_iff.
Qed.

(** ** The listen address *)

(** C7. Whatever the lookup returns, the address [run] listens on is the
    default [":4000"] when the value of the variable consists only of white
    space (an unset variable reads as the empty string), and the value
    itself otherwise. *)
Theorem hostport_default_iff_blank :
  (forall getenv : EnvGetter,
     hostport getenv
     = if only_whitespace (getenv envVarAddress) then defaultHostPort
       else getenv envVarAddress) /\
  (forall environ : gmap string string,
     hostport (os.Getenv (delete envVarAddress environ)) = defaultHostPort) /\
  defaultHostPort = ":4000" /\
  (forall getenv : EnvGetter,
     http.Addr (newServer (hostport getenv)) = hostport getenv).
Proof.
  assert (forall getenv : EnvGetter,
            hostport getenv
            = if only_whitespace (getenv envVarAddress) then defaultHostPort
              else getenv envVarAddress) as Hmain.
  { intros getenv. unfold hostport.
    destruct (String.eqb_spec (strings.TrimSpace (getenv envVarAddress)) "") as [He|Hne].
    - apply TrimSpace_empty_iff in He. by rewrite He.
    - destruct (only_whitespace (getenv envVarAddress)) eqn:Hw; [|done].
      apply TrimSpace_empty_iff in Hw. done. }
  split_and!; [done| |done|done].
  intros environ. rewrite Hmain. unfold os.Getenv. by rewrite lookup_delete_eq.
Qed.

Example hostport_unset : hostport (os.Getenv ∅) = ":4000".
Proof. reflexivity. Qed.

Example hostport_TestRun : hostport TestRun_getenv = ":4001".
Proof. reflexivity. Qed.

Example hostport_blank : hostport (fun _ => "   ") = ":4000".
Proof. reflexivity. Qed.

Example hostport_nbsp : hostport (fun _ => " " +:+ nbsp) = ":4000".
Proof. vm_compute. reflexivity. Qed.

Example hostport_verbatim : hostport (fun _ => " :8080 ") = " :8080 ".
Proof. vm_compute. reflexivity. Qed.

Example TrimSpace_inner :
  strings.TrimSpace (" " +:+ nbsp +:+ " a b " +:+ nbsp) = "a b".
Proof. vm_compute. reflexivity. Qed.

(** ** The hello handler *)

Lemma Sprintf_hello (name : string) :
  fmt.Sprintf ("Hello %s" +:+ newline) [name] = "Hello " +:+ name +:+ newline.
Proof. reflexivity. Qed.

Lemma canonical_content_type :
  http.CanonicalMIMEHeaderKey "Content-Type" = "Content-Type".
Proof. reflexivity. Qed.

(** On any writer, the handler sets the content type, writes the status
    and writes the greeting, in that order. *)
Lemma handleHello_unfold (W : Type) (H : http.ResponseWriter W) (w : W)
    (req : http.Request) :
  handleHello W H w req
  = http.Write ("Hello " +:+ http.PathValue req "name" +:+ newline)
      (http.WriteHeader 200
         (http.updHeader (http.Header_Set "Content-Type" "text/plain; charset=utf-8") w)).
Proof. reflexivity. Qed.

Lemma Header_Set_content_type (v : string) (h : gmap string (list string)) :
  http.Header_Set "Content-Type" v h = <["Content-Type" := [v]]> h.
Proof. unfold http.Header_Set. by rewrite canonical_content_type. Qed.

Lemma Header_Get_content_type (h : gmap string (list string)) :
  http.Header_Get "Content-Type" h
  = match h !! "Content-Type" with Some (v :: _) => v | _ => "" end.
Proof. unfold http.Header_Get. by rewrite canonical_content_type. Qed.

(** The recorder after a first [WriteHeader] with a valid code and a
    [Write]. *)
Lemma recorder_WriteHeader_Write (detect : string -> string)
    (rw : httptest.ResponseRecorder) (code : Z) (buf : string) :
  httptest.wroteHeader rw = false -> 100 <= code <= 999 ->
  httptest.rec_Write detect buf (httptest.rec_WriteHeader code rw)
  = {| httptest.Code := code; httptest.HeaderMap := httptest.HeaderMap rw;
       httptest.Body := httptest.Body rw +:+ buf;
       httptest.snapHeader := Some (httptest.HeaderMap rw);
       httptest.wroteHeader := true; httptest.panicked := httptest.panicked rw |}.
Proof.
  intros Hw Hc. unfold httptest.rec_Write, httptest.rec_writeHeader, httptest.rec_WriteHeader.
  rewrite Hw. assert ((code <? 100) || (999 <? code) = false) as -> by lia.
  reflexivity.
Qed.

(** What the recorder holds once the handler has run. *)
Lemma handleHello_recorded (detect : string -> string) (req : http.Request) :
  let resp :=
    httptest.Result
      (handleHello _ (httptest.recorder_writer detect) httptest.NewRecorder req) in
  httptest.StatusCode resp = http.StatusOK /\
  http.StatusOK = 200 /\
  httptest.RespHeader resp = {[ "Content-Type" := ["text/plain; charset=utf-8"] ]} /\
  http.Header_Get "Content-Type" (httptest.RespHeader resp)
  = "text/plain; charset=utf-8" /\
  httptest.RespBody resp = "Hello " +:+ http.PathValue req "name" +:+ newline.
Proof.
  cbv zeta.
  change (handleHello _ (httptest.recorder_writer detect) httptest.NewRecorder req)
    with (httptest.rec_Write detect
            ("Hello " +:+ http.PathValue req "name" +:+ newline)
            (httptest.rec_WriteHeader 200
               (httptest.rec_updHeader
                  (http.Header_Set "Content-Type" "text/plain; charset=utf-8")
                  httptest.NewRecorder))).
  rewrite recorder_WriteHeader_Write by (done || lia).
  unfold httptest.Result, httptest.rec_updHeader. cbn [httptest.Code httptest.snapHeader httptest.Body httptest.HeaderMap httptest.NewRecorder httptest.StatusCode httptest.RespHeader httptest.RespBody default].
  rewrite Header_Set_content_type, Header_Get_content_type.
  rewrite insert_empty. unfold id. rewrite lookup_singleton_eq.
  split_and!; reflexivity.
Qed.

Example TestHandleHello_direct_passes (detect : string -> string) :
  httptest.StatusCode (TestHandleHello_direct detect) = 200 /\
  http.Header_Get "Content-Type" (httptest.RespHeader (TestHandleHello_direct detect))
  = "text/plain; charset=utf-8" /\
  httptest.RespBody (TestHandleHello_direct detect) = "Hello Testing" +:+ newline.
Proof.
  unfold TestHandleHello_direct.
  destruct (handleHello_recorded detect
              (http.SetPathValue "name" "Testing"
                 {| http.Method := http.MethodGet; http.URLPath := "/hello/Testing";
                    http.RawQuery := ""; http.ReqHeader := ∅; http.ReqBody := "";
                    http.RemoteAddr := "192.0.2.1:1234"; http.pat := [];
                    http.matches := []; http.otherValues := ∅ |}))
    as (H1 & _ & _ & H3 & H4).
  split_and!; [exact H1|exact H3|]. rewrite H4. reflexivity.
Qed.

(** C6. The response to a request whose path value [name] is given: status
    200, the one header [Content-Type: text/plain; charset=utf-8], and the
    body ["Hello "], the name as it is, and a newline. *)
Theorem handleHello_response (detect : string -> string) (req : http.Request) :
  let resp :=
    httptest.Result
      (handleHello _ (httptest.recorder_writer detect) httptest.NewRecorder req) in
  httptest.StatusCode resp = http.StatusOK /\
  http.StatusOK = 200 /\
  httptest.RespHeader resp = {[ "Content-Type" := ["text/plain; charset=utf-8"] ]} /\
  http.Header_Get "Content-Type" (httptest.RespHeader resp)
  = "text/plain; charset=utf-8" /\
  httptest.RespBody resp = "Hello " +:+ http.PathValue req "name" +:+ newline.
Proof. apply handleHello_recorded. Qed.

(** C10. The handler reads nothing of the request but the path value
    [name]: on the same writer, two requests with the same name get the
    same response, whatever else differs between them. *)
Theorem handleHello_depends_only_on_name (W : Type) (H : http.ResponseWriter W)
    (w : W) (r1 r2 : http.Request) :
  http.PathValue r1 "name" = http.PathValue r2 "name" ->
  handleHello W H w r1 = handleHello W H w r2.
Proof. intros Heq. rewrite !handleHello_unfold. by rewrite Heq. Qed.

Lemma handleHello_depends_only_on_name_witness :
  handleHello _ (httptest.recorder_writer (fun _ => "application/octet-stream"))
    httptest.NewRecorder
    {| http.Method := "GET"; http.URLPath := "/hello/Ada"; http.RawQuery := "";
       http.ReqHeader := ∅; http.ReqBody := ""; http.RemoteAddr := "192.0.2.1:1234";
       http.pat := ["name"]; http.matches := ["Ada"]; http.otherValues := ∅ |}
  = handleHello _ (httptest.recorder_writer (fun _ => "application/octet-stream"))
      httptest.NewRecorder
      {| http.Method := "HEAD"; http.URLPath := "/hello/Ada"; http.RawQuery := "x=1";
         http.ReqHeader := {[ "Accept" := ["text/html"] ]}; http.ReqBody := "ignored";
         http.RemoteAddr := "198.51.100.7:80";
         http.pat := []; http.matches := [];
         http.otherValues := {[ "name" := "Ada" ]} |}.
Proof.
  apply (handleHello_depends_only_on_name _
           (httptest.recorder_writer (fun _ => "application/octet-stream"))).
  vm_compute. reflexivity.
Defined.

(** ** The program as wired in [run] *)

Ltac run_trace_end :=
  unfold run_trace; cbn;
  split; [ by eexists | split; [ done | discriminate ] ].

(** [run], run alone, does a prefix of [run_trace], and all of it when it
    returns. *)
Lemma run_lexec (ctx : Context) (getenv : EnvGetter) (tr : list event)
    (q : prog (option error)) :
  lexec (run ctx getenv) tr q ->
  exists ctx' srv ch r v,
    tr `prefix_of` run_trace ctx getenv ctx' srv ch r v /\
    (finished q <-> tr = run_trace ctx getenv ctx' srv ch r v).
Proof.
  intros H. unfold run, defer, perform in H.
  lexec_inv H ctx'.
  { exists context.Background, (Ptr 0), (Chan 0), None, None. run_trace_end. }
  lexec_inv H srv.
  { exists ctx', (Ptr 0), (Chan 0), None, None. run_trace_end. }
  lexec_inv H ch.
  { exists ctx', srv, (Chan 0), None, None. run_trace_end. }
  lexec_inv H x4.
  { exists ctx', srv, ch, None, None. run_trace_end. }
  lexec_inv H r.
  { exists ctx', srv, ch, None, None. run_trace_end. }
  destruct (negb (errors.Is r http.ErrServerClosed)) eqn:Hr; cbn in H.
  - exists ctx', srv, ch, r, None. unfold run_trace. rewrite Hr.
    lexec_inv H x6. { cbn. split; [by eexists|split; [done|discriminate]]. }
    lexec_end H. cbn. split; [by exists []|done].
  - lexec_inv H v.
    { exists ctx', srv, ch, r, None. unfold run_trace. rewrite Hr.
      cbn. split; [by eexists|split; [done|discriminate]]. }
    exists ctx', srv, ch, r, v. unfold run_trace. rewrite Hr.
    lexec_inv H x7. { cbn. split; [by eexists|split; [done|discriminate]]. }
    lexec_end H. cbn. split; [by exists []|done].
Qed.

Lemma run_trace_events ctx getenv ctx' srv ch r v :
  Forall (fun e => run_event e = true) (run_trace ctx getenv ctx' srv ch r v).
Proof.
  unfold run_trace. destruct (negb (errors.Is r http.ErrServerClosed));
    cbn; repeat constructor.
Qed.

Lemma run_lexec_events (ctx : Context) (getenv : EnvGetter) (tr : list event)
    (q : prog (option error)) :
  lexec (run ctx getenv) tr q -> Forall (fun e => run_event e = true) tr.
Proof.
  intros H. apply run_lexec in H as (ctx' & srv & ch & r & v & [k Hk] & _).
  pose proof (run_trace_events ctx getenv ctx' srv ch r v) as Hall.
  rewrite Hk in Hall. by apply Forall_app in Hall as [? _].
Qed.

(** C1, the code as it is. [run] starts the coordinator with a grace
    period of 30 seconds where the constant [gracePeriod] is 29 seconds;
    and the goroutine it starts is the call to [shutdown] alone, which
    returns the coordinator without running it. *)
Theorem run_grace_period_is_30s (ctx : Context) (getenv : EnvGetter)
    (ctx' : Context) (srv : ptr) (ch : chan) (r : option error) :
  lexec (run ctx getenv)
        (run_setup ctx getenv ctx' srv ch ++ [Ev (op.ListenAndServe srv) r])
        (after_serve ctx' ch r) /\
  run_setup ctx getenv ctx' srv ch !! 3%nat
  = Some (Ev (op.Go (go_shutdown ctx' srv ch (30 * time.Second))) tt) /\
  30 * time.Second <> gracePeriod /\
  gracePeriod = 29 * time.Second /\
  body (go_shutdown ctx' srv ch (30 * time.Second)) = Ret tt.
Proof. split_and!; [apply run_reaches_serve|done|done|done|done]. Qed.

Section Wiring.

Variable serve : http.Server -> time.Time -> option (option error).
Variable drain : http.Server -> Context -> time.Time -> option error.
Variable ctx : Context.
Variable getenv : EnvGetter.

Lemma run_invariant_start : run_invariant ctx getenv (run_system ctx getenv).
Proof. exists (run ctx getenv), 0%nat, []. split_and!; done. Qed.

Lemma replicate_lookup_main (q : prog (option error)) (n t : nat)
    (th : thread (option error)) :
  (Main q :: replicate n (Goroutine (Ret tt))) !! t = Some th ->
  (t = 0%nat /\ th = Main q) \/ th = Goroutine (Ret tt).
Proof.
  destruct t as [|t]; simpl.
  - intros [= <-]. by left.
  - intros H. apply lookup_replicate in H as [-> _]. by right.
Qed.

(** A step of the program is a step of [run] itself, and not a receive. *)
Lemma run_invariant_step (cfg cfg' : config (option error)) (l : label) :
  run_invariant ctx getenv cfg ->
  step serve drain cfg l cfg' ->
  run_invariant ctx getenv cfg' /\
  forall t e, e ∈ proj t l -> t = 0%nat /\ run_event e = true /\ is_Recv e = false.
Proof.
  intros (q & n & tr0 & Hts & Hex & Hch) Hstep.
  destruct Hstep as [ts w t0 th0 e th' w' started Hh Ht0 Hstp Hret
                    |ts w s r ths ths' thr thr' id v Hh Hne Hs Hr Hopen Hsend Hrecv
                    |ts w t0 th0 c Hh Ht0 Hhd Hp
                    |ts w t0 th0 code Hh Ht0 Hhd
                    |ts w sig Hh
                    |ts w d Hh Hd]; simpl in *; subst ts.
  - apply replicate_lookup_main in Ht0 as [[-> ->]| ->]; [|by destruct th'].
    destruct th' as [q'|]; [|done]. simpl in Hstp.
    assert (lexec (run ctx getenv) (tr0 ++ [e]) q') as Hex'.
    { apply lexec_app. exists q. split; [done|]. by exists q'. }
    pose proof (run_lexec_events _ _ _ _ Hex') as Hev.
    apply Forall_app in Hev as [_ Hev]. rewrite Forall_singleton in Hev.
    assert (is_Recv e = false /\
            (forall i, chans w' !! i <> Some true) /\
            (started = [] \/ started = [Ret tt])) as (HnoRecv & Hw' & Hst).
    { destruct e as [c x]. destruct c; try discriminate Hev; simpl in Hret.
      - injection Hret as <- <- <-. split_and!; [done|exact Hch|by left].
      - destruct ctx0; injection Hret as <- <- <-;
          (split_and!; [done|exact Hch|by left]).
      - injection Hret as <- <- <-. split_and!; [done|exact Hch|by left].
      - destruct srv as [i]. destruct (servers w !! i) as [[s|m]|]; try done.
        destruct (serve s (clock w)); [|done].
        injection Hret as <- <- <-. split_and!; [done|exact Hch|by left].
      - injection Hret as <- <- <-. split_and!; [done| |by left].
        intros i. simpl. destruct (decide (next w = i)) as [->|Hmi].
        + by rewrite lookup_insert_eq.
        + rewrite lookup_insert_ne by done. apply Hch.
      - destruct ch as [i]. destruct (chans w !! i) as [[|]|] eqn:Hc; try done.
        by destruct (Hch i).
      - destruct g; try discriminate Hev.
        injection Hret as <- <- <-. split_and!; [done|exact Hch|by right]. }
    split.
    + exists q', (n + length started)%nat, (tr0 ++ [e])%list. split_and!.
      * simpl. destruct Hst as [-> | ->]; simpl.
        -- by rewrite app_nil_r, Nat.add_0_r.
        -- rewrite Nat.add_1_r. by rewrite replicate_S_end.
      * done.
      * done.
    + intros t e' He'. destruct (Nat.eqb_spec t 0) as [->|]; [|by apply elem_of_nil in He'].
      apply list_elem_of_singleton in He' as ->. done.
  - exfalso.
    apply replicate_lookup_main in Hs as [[-> ->]| ->];
      apply replicate_lookup_main in Hr as [[-> ->]| ->]; try done.
    + by destruct thr'.
    + by destruct ths'.
    + by destruct ths'.
  - split; [|intros t e He; by apply elem_of_nil in He].
    exists q, n, tr0. done.
  - split; [|intros t e He; by apply elem_of_nil in He].
    exists q, n, tr0. done.
  - split; [|intros t e He; by apply elem_of_nil in He].
    exists q, n, tr0. done.
  - split; [|intros t e He; by apply elem_of_nil in He].
    exists q, n, tr0. done.
Qed.

Lemma run_invariant_steps (cfg cfg' : config (option error)) (tr : list label) :
  run_invariant ctx getenv cfg ->
  steps serve drain cfg tr cfg' ->
  run_invariant ctx getenv cfg' /\
  forall t e, e ∈ projs t tr -> t = 0%nat /\ run_event e = true /\ is_Recv e = false.
Proof.
  intros Hinv Hsteps. induction Hsteps as [cfg|cfg l cfg1 tr cfg2 Hs _ IH].
  - split; [done|]. intros t e He. by apply elem_of_nil in He.
  - destruct (run_invariant_step _ _ _ Hinv Hs) as [Hinv1 Hl].
    destruct (IH Hinv1) as [Hinv2 Htr].
    split; [done|]. intros t e He. unfold projs in He. simpl in He.
    apply elem_of_app in He as [He|He]; eauto.
Qed.

(** X2. In every execution of the program, whatever the schedule, the signals
    and the behaviour of the server: only [run] itself ever does anything;
    keep-alives are never disabled, the server is never drained, nothing is
    ever sent on the result channel and it is never closed or read. *)
Theorem run_never_starts_the_coordinator (tr : list label)
    (cfg' : config (option error)) :
  steps serve drain (run_system ctx getenv) tr cfg' ->
  forall t e, e ∈ projs t tr ->
    t = 0%nat /\
    is_SetKeepAlivesEnabled e = false /\ is_Shutdown e = false /\
    is_Send e = false /\ is_Close e = false /\ is_Recv e = false.
Proof.
  intros Hsteps t e He.
  destruct (run_invariant_steps _ _ _ run_invariant_start Hsteps) as [_ H].
  destruct (H t e He) as (-> & Hev & Hr).
  split_and!; try done; destruct e as [c x]; by destruct c.
Qed.


End Wiring.

(** The premise of the theorem above can hold: with a server
    whose [ListenAndServe] returns the sentinel, [run] gets to its receive
    and stays there. *)
Example run_reaches_its_receive :
  match fire serve_closed drain_clean (Run 0)
          (after [Run 0; Run 0; Run 0; Run 0]
             (run_system context.Background (fun _ => ""))) with
  | Some (l, cfg') =>
      proj 0 l = [Ev (op.ListenAndServe (Ptr 1)) (Some http.ErrServerClosed)] /\
      cfg'.1 = [Main (after_serve (context.Derived context.Background 0 None) (Chan 2)
                        (Some http.ErrServerClosed));
                Goroutine (Ret tt)] /\
      fire serve_closed drain_clean (Run 0) cfg' = None /\
      fire serve_closed drain_clean (Run 1) cfg' = None
  | None => False
  end.
Proof. vm_compute. split_and!; reflexivity. Qed.

(** ** The clean closure in the program as wired *)


Section CleanClosure.

Variable serve : http.Server -> time.Time -> option (option error).
Variable drain : http.Server -> Context -> time.Time -> option error.
Variable ctx : Context.
Variable getenv : EnvGetter.


End CleanClosure.


(* ===================================================================== *)
(** * Part V: further properties of the code                             *)
(* ===================================================================== *)

(** ** The address is never blank *)

(** X1. Whatever the environment holds, the address handed to the server is
    not blank: a blank value is replaced by the default, which is not
    blank, and any other value is kept. *)
Theorem hostport_never_blank (getenv : EnvGetter) :
  only_whitespace (hostport getenv) = false /\
  strings.TrimSpace (hostport getenv) <> "".
Proof.
  assert (only_whitespace (hostport getenv) = false) as H.
  { unfold hostport.
    destruct (String.eqb_spec (strings.TrimSpace (getenv envVarAddress)) "") as [He|Hne].
    - reflexivity.
    - destruct (only_whitespace (getenv envVarAddress)) eqn:Hw; [|done].
      by apply TrimSpace_empty_iff in Hw. }
  split; [done|]. intros He. apply TrimSpace_empty_iff in He. congruence.
Qed.

(** ** The wiring of [run], on an execution *)

Lemma run_never_starts_the_coordinator_witness :
  0%nat = 0%nat /\
  is_SetKeepAlivesEnabled (Ev (op.ListenAndServe (Ptr 1)) (Some http.ErrServerClosed))
  = false /\
  is_Shutdown (Ev (op.ListenAndServe (Ptr 1)) (Some http.ErrServerClosed)) = false /\
  is_Send (Ev (op.ListenAndServe (Ptr 1)) (Some http.ErrServerClosed)) = false /\
  is_Close (Ev (op.ListenAndServe (Ptr 1)) (Some http.ErrServerClosed)) = false /\
  is_Recv (Ev (op.ListenAndServe (Ptr 1)) (Some http.ErrServerClosed)) = false.
Proof.
  apply (run_never_starts_the_coordinator serve_closed drain_clean
           context.Background (fun _ => "")
           (trace_under serve_closed drain_clean run_demo
              (run_system context.Background (fun _ => "")))
           (after_under serve_closed drain_clean run_demo
              (run_system context.Background (fun _ => "")))).
  - apply schedule_sound with (chs := run_demo). vm_compute. reflexivity.
  - vm_compute. apply list_elem_of_lookup. by exists 4%nat.
Defined.


(** ** The deferred cancel of [run] *)

Lemma prefix_snoc_strict (l' l : list event) (x : event) :
  l' `prefix_of` (l ++ [x])%list -> l' <> (l ++ [x])%list -> l' `prefix_of` l.
Proof.
  intros [k Hk] Hne. destruct k as [|y k _] using rev_ind.
  - rewrite app_nil_r in Hk. congruence.
  - rewrite app_assoc in Hk. apply app_inj_tail in Hk as [-> _]. by exists k.
Qed.

(** X4. [run] releases its signal registration exactly once, as the last
    thing it does before it returns, on both ways out; until then it has
    not released it. *)
Theorem run_cancels_once_at_the_end (ctx : Context) (getenv : EnvGetter)
    (tr : list event) (q : prog (option error)) :
  lexec (run ctx getenv) tr q ->
  (finished q ->
   exists ctx' rest,
     tr = (Ev (op.NotifyContext ctx [os.Interrupt; syscall.SIGTERM]) ctx'
             :: rest ++ [Ev (op.Cancel ctx') tt])%list /\
     List.filter is_Cancel rest = []) /\
  (~ finished q -> List.filter is_Cancel tr = []).
Proof.
  intros H. apply run_lexec in H as (ctx' & srv & ch & r & v & Hpre & Hfin).
  split.
  - intros Hq. apply Hfin in Hq. exists ctx'. rewrite Hq. unfold run_trace.
    destruct (negb (errors.Is r http.ErrServerClosed)); cbn.
    + by exists [ Ev (op.New (RealServer (newServer (hostport getenv)))) srv;
                  Ev op.Make ch;
                  Ev (op.Go (go_shutdown ctx' srv ch (30 * time.Second))) tt;
                  Ev (op.ListenAndServe srv) r ].
    + by exists [ Ev (op.New (RealServer (newServer (hostport getenv)))) srv;
                  Ev op.Make ch;
                  Ev (op.Go (go_shutdown ctx' srv ch (30 * time.Second))) tt;
                  Ev (op.ListenAndServe srv) r; Ev (op.Recv ch) v ].
  - intros Hq.
    assert (tr <> run_trace ctx getenv ctx' srv ch r v) as Hne by (intros E; by apply Hq, Hfin).
    unfold run_trace in Hpre, Hne. rewrite !app_assoc in Hpre, Hne.
    apply prefix_snoc_strict in Hpre; [|done].
    apply (filter_prefix is_Cancel) in Hpre.
    destruct (negb (errors.Is r http.ErrServerClosed)); cbn in Hpre;
      by apply prefix_nil_inv in Hpre.
Qed.

Lemma run_cancels_once_at_the_end_witness :
  (finished (Ret (Some errors.Canceled) : prog (option error)) ->
   exists ctx' rest,
     (run_setup context.Background (fun _ => "")
        (context.Derived context.Background 0 None) (Ptr 1) (Chan 2)
      ++ [Ev (op.ListenAndServe (Ptr 1)) (Some http.ErrServerClosed);
          Ev (op.Recv (Chan 2)) (Some errors.Canceled);
          Ev (op.Cancel (context.Derived context.Background 0 None)) tt])%list
     = (Ev (op.NotifyContext context.Background [os.Interrupt; syscall.SIGTERM]) ctx'
          :: rest ++ [Ev (op.Cancel ctx') tt])%list /\
     List.filter is_Cancel rest = []) /\
  (~ finished (Ret (Some errors.Canceled) : prog (option error)) ->
   List.filter is_Cancel
     (run_setup context.Background (fun _ => "")
        (context.Derived context.Background 0 None) (Ptr 1) (Chan 2)
      ++ [Ev (op.ListenAndServe (Ptr 1)) (Some http.ErrServerClosed);
          Ev (op.Recv (Chan 2)) (Some errors.Canceled);
          Ev (op.Cancel (context.Derived context.Background 0 None)) tt])%list = []).
Proof.
  apply (run_cancels_once_at_the_end context.Background (fun _ => "")).
  cbn. repeat (eexists; split; [by eexists|]). reflexivity.
Defined.

(** ** A wrapped sentinel *)

Lemma errors_eqb_eq (a b : error) : errors.eqb a b = true <-> a = b.
Proof.
  split; [|intros ->; apply errors_eqb_refl].
  revert b. induction a as [| | |i s|s a IH]; intros [| | |j t|t b]; simpl; try done.
  - intros [Hi Hs]%andb_true_iff.
    apply Nat.eqb_eq in Hi as ->. by apply String.eqb_eq in Hs as ->.
  - intros [Hs Hab]%andb_true_iff.
    apply String.eqb_eq in Hs as ->. by rewrite (IH b Hab).
Qed.

(** [errors.Is] holds exactly when the target is met while unwrapping. *)
Lemma errors_is_chain (e target : error) :
  errors.is_ e target = true <-> target ∈ error_chain e.
Proof.
  induction e as [| | |i s|s e IH]; cbn [errors.is_ error_chain];
    (match goal with
     | |- context [errors.eqb ?a target] => destruct (errors.eqb a target) eqn:Heq
     end;
     [apply errors_eqb_eq in Heq as <-; split; [intros _; by left|done]|]).
  1-4: split; [done|]; intros Hin; apply list_elem_of_singleton in Hin as ->;
       by rewrite errors_eqb_refl in Heq.
  rewrite IH. split; [by right|].
  intros [->|Hin]%elem_of_cons; [by rewrite errors_eqb_refl in Heq|done].
Qed.

(** X5. [run] takes the way of the clean closure, and waits for the
    coordinator, exactly when the sentinel is somewhere in the chain of
    the error [ListenAndServe] returned: an error that wraps the
    sentinel is not returned to the caller. *)
Theorem run_waits_iff_sentinel_in_chain (ctx : Context) (getenv : EnvGetter)
    (pre : list event) (srv : ptr) (e : error) (q : prog (option error)) :
  lexec (run ctx getenv) (pre ++ [Ev (op.ListenAndServe srv) (Some e)]) q ->
  (waiting q = true <-> errors.ErrServerClosed ∈ error_chain e) /\
  (errors.ErrServerClosed ∉ error_chain e ->
   exists ctx', lexec q [Ev (op.Cancel ctx') tt] (Ret (Some e))).
Proof.
  intros H. apply run_after_serve in H as (ctx' & ch & -> & ->).
  unfold after_serve, errors.Is, http.ErrServerClosed.
  destruct (errors.is_ e errors.ErrServerClosed) eqn:His; simpl.
  - apply errors_is_chain in His. split; [done|]. intros Hn. by destruct Hn.
  - assert (errors.ErrServerClosed ∉ error_chain e) as Hn.
    { intros Hin. apply errors_is_chain in Hin. congruence. }
    split; [split; [done|by intros ?]|].
    intros _. exists ctx'. cbn. eexists; split; [by exists tt|]. done.
Qed.

Lemma run_waits_iff_sentinel_in_chain_witness :
  (waiting (after_serve (context.Derived context.Background 0 None) (Chan 2)
              (Some (errors.Wrap "serve: " errors.ErrServerClosed))) = true
   <-> errors.ErrServerClosed ∈ error_chain (errors.Wrap "serve: " errors.ErrServerClosed)) /\
  (errors.ErrServerClosed ∉ error_chain (errors.Wrap "serve: " errors.ErrServerClosed) ->
   exists ctx',
     lexec (after_serve (context.Derived context.Background 0 None) (Chan 2)
              (Some (errors.Wrap "serve: " errors.ErrServerClosed)))
           [Ev (op.Cancel ctx') tt]
           (Ret (Some (errors.Wrap "serve: " errors.ErrServerClosed)))).
Proof.
  apply (run_waits_iff_sentinel_in_chain context.Background (fun _ => "")
           (run_setup context.Background (fun _ => "")
              (context.Derived context.Background 0 None) (Ptr 1) (Chan 2))
           (Ptr 1) (errors.Wrap "serve: " errors.ErrServerClosed)).
  cbn. repeat (eexists; split; [by eexists|]). reflexivity.
Defined.

(** ** The error is handed over before the channel is closed *)

Section Handover.

Variable serve : http.Server -> time.Time -> option (option error).
Variable drain : http.Server -> Context -> time.Time -> option error.

(** A send completes only by a hand-over to another goroutine. *)
Lemma step_send_is_handover {R : Type} (cfg cfg' : config R) (l : label)
    (t : nat) (c : chan) (v : option error) (x : unit) :
  step serve drain cfg l cfg' ->
  Ev (op.Send c v) x ∈ proj t l ->
  exists r, r <> t /\ l = LSync t r c v.
Proof.
  intros Hstep Hin.
  destruct Hstep as [ts w t0 th0 e th' w' started Hh Ht0 Hstp Hret
                    |ts w s r ths ths' thr thr' id v0 Hh Hne Hs Hr Hopen Hsend Hrecv
                    |ts w t0 th0 c0 Hh Ht0 Hhd Hp
                    |ts w t0 th0 code Hh Ht0 Hhd
                    |ts w sig Hh
                    |ts w d Hh Hd]; simpl in Hin;
    try (by apply elem_of_nil in Hin).
  - destruct (Nat.eqb_spec t t0); [|by apply elem_of_nil in Hin].
    apply list_elem_of_singleton in Hin as <-. simpl in Hret. discriminate.
  - apply elem_of_app in Hin as [Hin|Hin].
    + destruct (Nat.eqb_spec t s) as [->|]; [|by apply elem_of_nil in Hin].
      apply list_elem_of_singleton in Hin.
      apply (f_equal sent) in Hin. injection Hin as -> ->.
      exists r. split; [congruence|done].
    + destruct (Nat.eqb_spec t r); [|by apply elem_of_nil in Hin].
      apply list_elem_of_singleton in Hin. by apply (f_equal sent) in Hin.
Qed.

Lemma steps_send_is_handover {R : Type} (cfg cfg' : config R) (tr : list label)
    (t : nat) (c : chan) (v : option error) (x : unit) :
  steps serve drain cfg tr cfg' ->
  Ev (op.Send c v) x ∈ projs t tr ->
  exists r, r <> t /\ LSync t r c v ∈ tr.
Proof.
  intros Hsteps. induction Hsteps as [cfg|cfg l cfg1 tr cfg2 Hs _ IH]; intros Hin.
  - by apply elem_of_nil in Hin.
  - unfold projs in Hin. simpl in Hin. apply elem_of_app in Hin as [Hin|Hin].
    + destruct (step_send_is_handover _ _ _ _ _ _ _ Hs Hin) as (r & Hr & ->).
      exists r. split; [done|by left].
    + destruct (IH Hin) as (r & Hr & Hl). exists r. split; [done|by right].
Qed.

(** X6. When the drain has failed and the coordinator has closed the channel,
    another goroutine has received the error: the close is never what a
    reader of a failed drain sees first. *)
Theorem shutdown_closes_after_handover {R : Type}
    (cfg cfg' : config R) (tr : list label) (t : nat)
    (ctx : Context) (srv : ptr) (ch : chan) (d : time.Duration)
    (sctx : Context) (e : error) :
  cfg.1 !! t = Some (Goroutine (shutdown ctx srv ch d)) ->
  steps serve drain cfg tr cfg' ->
  Ev (op.Shutdown srv sctx) (Some e) ∈ projs t tr ->
  Ev (op.Close ch) tt ∈ projs t tr ->
  exists r, r <> t /\ LSync t r ch (Some e) ∈ tr.
Proof.
  intros Ht Hsteps Hdrain Hclose.
  destruct (coordinator_observed _ _ _ _ _ _ _ _ _ _ Ht Hsteps)
    as (q & sctx0 & err & _ & Hpre & _).
  apply (steps_send_is_handover _ _ _ _ _ _ tt Hsteps).
  destruct Hpre as [k Hk].
  assert (err = Some e) as ->.
  { assert (Ev (op.Shutdown srv sctx) (Some e)
              ∈ coordinator_trace ctx srv ch d sctx0 err) as Hin.
    { rewrite Hk. apply elem_of_app. by left. }
    apply (list_elem_of_fmap_2 drained) in Hin. unfold coordinator_trace in Hin.
    destruct err; cbn in Hin;
      repeat (apply elem_of_cons in Hin as [Hin|Hin]; [by simplify_eq|]);
      by apply elem_of_nil in Hin. }
  unfold coordinator_trace in Hk. cbn in Hk.
  destruct (projs t tr) as [|e1 [|e2 [|e3 [|e4 [|e5 l]]]]]; simpl in Hk;
    simplify_eq;
    try (repeat (apply elem_of_cons in Hclose as [Hclose|Hclose]; [discriminate|]);
         by apply elem_of_nil in Hclose).
  apply list_elem_of_lookup. by exists 4%nat.
Qed.

End Handover.

Lemma shutdown_closes_after_handover_witness :
  exists r, r <> 1%nat /\
    LSync 1 r (Chan 1) (Some errors.Canceled)
      ∈ trace_of harness_failing (harness (Some errors.Canceled)).
Proof.
  apply (shutdown_closes_after_handover serve_until_shutdown drain_clean
           (harness (Some errors.Canceled))
           (after harness_failing (harness (Some errors.Canceled)))
           _ 1 (context.Derived context.TODO 0 None) (Ptr 2) (Chan 1) time.Second
           (context.Derived context.Background 3 (Some time.Second))
           errors.Canceled).
  - vm_compute. reflexivity.
  - apply schedule_sound with (chs := harness_failing). vm_compute. reflexivity.
  - vm_compute. apply list_elem_of_lookup. by exists 3%nat.
  - vm_compute. apply list_elem_of_lookup. by exists 5%nat.
Defined.

(** ** Nothing happens before cancellation *)

Lemma done_mono (c c' : gset nat) (now now' : time.Time) (ctx : Context) :
  c ⊆ c' -> now <= now' ->
  context.done c now ctx = true -> context.done c' now' ctx = true.
Proof.
  intros Hc Hn. induction ctx as [| |parent IH id deadline]; simpl; try done.
  rewrite !orb_true_iff. intros [[Hid|Hd]|Hp].
  - left. left. apply bool_decide_eq_true. apply bool_decide_eq_true in Hid.
    by apply Hc.
  - left. right. destruct deadline as [dl|]; [|done]. lia.
  - right. by apply IH.
Qed.

Section Waiting.

Variable serve : http.Server -> time.Time -> option (option error).
Variable drain : http.Server -> Context -> time.Time -> option error.

(** No operation un-cancels a context or turns the clock back. *)
Lemma exec_call_mono (w w' : world) (c : op.call) (x : op.ret c)
    (started : list (prog unit)) :
  exec_call serve drain w c = Some (x, w', started) ->
  cancelled w ⊆ cancelled w' /\ clock w <= clock w'.
Proof.
  destruct c; simpl; intros H;
    repeat match type of H with
           | context [match ?s with _ => _ end] => destruct s eqn:?; try done
           end;
    try (injection H as <- <- <-); simpl; try done; try (split; [set_solver|lia]).
Qed.

Lemma step_mono {R : Type} (cfg cfg' : config R) (l : label) :
  step serve drain cfg l cfg' ->
  cancelled cfg.2 ⊆ cancelled cfg'.2 /\ clock cfg.2 <= clock cfg'.2.
Proof.
  intros Hstep.
  destruct Hstep as [ts w t0 th0 e th' w' started Hh Ht0 Hstp Hret
                    |ts w s r ths ths' thr thr' id v0 Hh Hne Hs Hr Hopen Hsend Hrecv
                    |ts w t0 th0 c0 Hh Ht0 Hhd Hp
                    |ts w t0 th0 code Hh Ht0 Hhd
                    |ts w sig Hh
                    |ts w d Hh Hd]; simpl; try done.
  - destruct e as [c x]. by eapply exec_call_mono.
  - split; [set_solver|lia].
  - split; [done|lia].
Qed.

Lemma steps_mono {R : Type} (cfg cfg' : config R) (tr : list label) :
  steps serve drain cfg tr cfg' ->
  cancelled cfg.2 ⊆ cancelled cfg'.2 /\ clock cfg.2 <= clock cfg'.2.
Proof.
  intros Hsteps. induction Hsteps as [cfg|cfg l cfg1 tr cfg2 Hs _ IH]; [done|].
  apply step_mono in Hs. destruct Hs as [Hc Hn], IH as [Hc' Hn'].
  split; [by etrans|lia].
Qed.

(** X7. As long as the lifecycle context is not done, the coordinator has
    done nothing at all: it has not touched the server, the channel or
    the clock, however long the system has run. *)
Theorem shutdown_idle_until_cancelled {R : Type}
    (cfg cfg' : config R) (tr : list label) (t : nat)
    (ctx : Context) (srv : ptr) (ch : chan) (d : time.Duration) :
  cfg.1 !! t = Some (Goroutine (shutdown ctx srv ch d)) ->
  steps serve drain cfg tr cfg' ->
  context.done (cancelled cfg'.2) (clock cfg'.2) ctx = false ->
  projs t tr = [] /\ cfg'.1 !! t = Some (Goroutine (shutdown ctx srv ch d)).
Proof.
  intros Ht Hsteps. revert Ht.
  induction Hsteps as [cfg|cfg l cfg1 tr cfg2 Hs Hrest IH]; intros Ht Hnot; [done|].
  assert (proj t l = [] /\ cfg1.1 !! t = Some (Goroutine (shutdown ctx srv ch d)))
    as [Hl Ht1].
  { destruct (step_proj _ _ _ _ _ _ _ Hs Ht) as (th1 & Ht1 & Hex).
    destruct (proj t l) as [|e rest] eqn:Hp; [simpl in Hex; by subst|].
    exfalso.
    assert (context.done (cancelled cfg.2) (clock cfg.2) ctx = true) as Hdone.
    { destruct Hs as [ts w t0 th0 e0 th' w' started Hh Ht0 Hstp Hret
                     |ts w s r ths ths' thr thr' id v0 Hh Hne Hs' Hr Hopen Hsend Hrecv
                     |ts w t0 th0 c0 Hh Ht0 Hhd Hp'
                     |ts w t0 th0 code Hh Ht0 Hhd
                     |ts w sig Hh
                     |ts w d0 Hh Hd]; simpl in *; try done.
      - destruct (Nat.eqb_spec t t0) as [->|]; [|done].
        assert (th0 = Goroutine (shutdown ctx srv ch d)) as -> by congruence.
        destruct th' as [|p']; [done|]. cbn in Hstp.
        destruct Hstp as (x & -> & _). simpl in Hret.
        by destruct (context.done (cancelled w) (clock w) ctx).
      - destruct (Nat.eqb_spec t s) as [->|].
        + assert (ths = Goroutine (shutdown ctx srv ch d)) as -> by congruence.
          destruct ths' as [|p']; [done|]. cbn in Hsend.
          by destruct Hsend as (x & Hx & _).
        + destruct (Nat.eqb_spec t r) as [->|]; [|done].
          assert (thr = Goroutine (shutdown ctx srv ch d)) as -> by congruence.
          destruct thr' as [|p']; [done|]. cbn in Hrecv.
          by destruct Hrecv as (x & Hx & _). }
    pose proof (step_mono _ _ _ Hs) as [Hc1 Hn1].
    pose proof (steps_mono _ _ _ Hrest) as [Hc2 Hn2].
    eapply done_mono in Hdone; [by rewrite Hdone in Hnot| |]; [by etrans|lia]. }
  destruct (IH Ht1 Hnot) as [Htr Ht2].
  split; [|done]. unfold projs in *. simpl. by rewrite Hl, Htr.
Qed.

End Waiting.

Lemma shutdown_idle_until_cancelled_witness :
  projs 1 (trace_of harness_idle (harness None)) = [] /\
  (after harness_idle (harness None)).1 !! 1%nat
  = Some (Goroutine (shutdown (context.Derived context.TODO 0 None) (Ptr 2) (Chan 1)
                       time.Second)).
Proof.
  apply (shutdown_idle_until_cancelled serve_until_shutdown drain_clean
           (harness None) (after harness_idle (harness None))).
  - vm_compute. reflexivity.
  - apply schedule_sound with (chs := harness_idle). vm_compute. reflexivity.
  - vm_compute. reflexivity.
Defined.

(** ** [TestShutdown] under every schedule *)

Ltac test_trace_end :=
  unfold test_trace; cbn;
  split; [ by eexists | split; [ split; [ done | discriminate ] | done ] ].

(** The test, run alone, does a prefix of [test_trace], and all of it
    when it returns; what it returns is what it read. *)
Lemma TestShutdown_lexec (returns : option error) (tr : list event)
    (q : prog (option error)) :
  lexec (TestShutdown returns) tr q ->
  exists ctx ch m v,
    tr `prefix_of` test_trace returns ctx ch m v /\
    (finished q <-> tr = test_trace returns ctx ch m v) /\
    (finished q -> q = Ret v).
Proof.
  intros H. unfold TestShutdown, perform in H.
  lexec_inv H ctx.
  { exists context.Background, (Chan 0), (Ptr 0), None. test_trace_end. }
  lexec_inv H ch. { exists ctx, (Chan 0), (Ptr 0), None. test_trace_end. }
  lexec_inv H m. { exists ctx, ch, (Ptr 0), None. test_trace_end. }
  lexec_inv H x4. { exists ctx, ch, m, None. test_trace_end. }
  lexec_inv H x5. { exists ctx, ch, m, None. test_trace_end. }
  lexec_inv H v. { exists ctx, ch, m, None. test_trace_end. }
  exists ctx, ch, m, v. lexec_end H.
  unfold test_trace. split; [by exists []|done].
Qed.

Lemma projs_snoc (t : nat) (tr : list label) (l : label) :
  projs t (tr ++ [l]) = (projs t tr ++ proj t l)%list.
Proof.
  unfold projs. rewrite map_app, concat_app. simpl. by rewrite app_nil_r.
Qed.

Lemma projs_app (t : nat) (tr tr' : list label) :
  projs t (tr ++ tr') = (projs t tr ++ projs t tr')%list.
Proof. unfold projs. by rewrite map_app, concat_app. Qed.

Lemma lexec_snoc {R : Type} (p q q' : prog R) (tr : list event) (e : event) :
  lexec p tr q -> lstep q e q' -> lexec p (tr ++ [e]) q'.
Proof. intros H Hs. apply lexec_app. exists q. split; [done|]. by exists q'. Qed.

(** The next event of the test is one of its trace; a [go] or a receive
    is the first of its kind. *)
Lemma TestShutdown_next (returns : option error) (tr : list event) (e : event)
    (q : prog (option error)) :
  lexec (TestShutdown returns) (tr ++ [e]) q ->
  (exists ctx ch m v, e ∈ test_trace returns ctx ch m v) /\
  (is_Go e = true -> List.filter is_Go tr = []) /\
  (is_Recv e = true -> List.filter is_Recv tr = []).
Proof.
  intros H. apply TestShutdown_lexec in H as (ctx & ch & m & v & [k Hk] & _).
  split; [exists ctx, ch, m, v; rewrite Hk; set_solver|].
  split; intros He.
  - apply (f_equal (List.filter is_Go)) in Hk.
    rewrite !List.filter_app in Hk. simpl in Hk. rewrite He in Hk.
    destruct (List.filter is_Go tr); [done|]. simpl in Hk.
    injection Hk as _ Hk. by destruct l.
  - apply (f_equal (List.filter is_Recv)) in Hk.
    rewrite !List.filter_app in Hk. simpl in Hk. rewrite He in Hk.
    destruct (List.filter is_Recv tr); [done|]. simpl in Hk.
    injection Hk as _ Hk. by destruct l.
Qed.

Ltac mem_explicit :=
  first [ done
        | apply list_elem_of_lookup; first
            [ by exists 0%nat | by exists 1%nat | by exists 2%nat | by exists 3%nat
            | by exists 4%nat | by exists 5%nat | by exists 6%nat ] ].

Ltac not_mem H :=
  repeat (apply elem_of_cons in H as [H|H]; [discriminate|]);
  by apply elem_of_nil in H.

Lemma snoc_prefix_lookup (l ctr k : list event) (e : event) :
  l = ((ctr ++ [e]) ++ k)%list ->
  ctr = take (length ctr) l /\ l !! length ctr = Some e.
Proof.
  intros ->. rewrite <- !app_assoc. split.
  - by rewrite take_app_length.
  - by apply list_lookup_middle.
Qed.

Lemma prefix_take (l l' : list event) :
  l' `prefix_of` l -> l' = take (length l') l.
Proof. intros [k ->]. by rewrite take_app_length. Qed.

(** Splitting on how far a goroutine has come in a trace of at most
    seven events. *)
Ltac by_position Hctr He n :=
  destruct n as [|[|[|[|[|[|[|n]]]]]]]; cbn in Hctr, He;
  try discriminate He; injection He as <-; subst.

(** The next event of the coordinator is one of its trace; a send is of
    the error the drain returned, and nothing is sent or closed after the
    close. *)
Lemma shutdown_next (ctx : Context) (m : ptr) (ch : chan) (d : time.Duration)
    (ctr : list event) (e : event) (p : prog unit) :
  lexec (shutdown ctx m ch d) (ctr ++ [e]) p ->
  exists sctx err,
    e ∈ coordinator_trace ctx m ch d sctx err /\
    (is_Send e = true ->
       e = Ev (op.Send ch err) tt /\ Ev (op.Shutdown m sctx) err ∈ ctr) /\
    (forall c, Ev (op.Close c) tt ∈ ctr -> is_Send e = false /\ is_Close e = false).
Proof.
  intros H. apply shutdown_lexec in H as (sctx & err & [k Hk] & _).
  exists sctx, err. split; [rewrite Hk; set_solver|].
  apply snoc_prefix_lookup in Hk as [Hctr He].
  unfold coordinator_trace in Hctr, He.
  remember (length ctr) as n eqn:Hn. clear Hn.
  destruct err; by_position Hctr He n;
    (split; [intros Hs; try done; split; mem_explicit
            |intros c Hc; try (by not_mem Hc); done]).
Qed.

(** Once the coordinator has closed the channel, the drain has returned,
    and its error, if any, has been sent. *)
Lemma shutdown_closed (ctx : Context) (m : ptr) (ch : chan) (d : time.Duration)
    (ctr : list event) (p : prog unit) (c : chan) :
  lexec (shutdown ctx m ch d) ctr p ->
  Ev (op.Close c) tt ∈ ctr ->
  exists sctx err,
    Ev (op.Shutdown m sctx) err ∈ ctr /\
    (err <> None -> Ev (op.Send ch err) tt ∈ ctr).
Proof.
  intros H Hc. apply shutdown_lexec in H as (sctx & err & Hpre & _).
  exists sctx, err. apply prefix_take in Hpre.
  unfold coordinator_trace in Hpre.
  remember (length ctr) as n eqn:Hn. clear Hn.
  destruct err;
    (destruct n as [|[|[|[|[|[|[|n]]]]]]]; cbn in Hpre; subst;
     try (by not_mem Hc); (split; [mem_explicit|intros ?; mem_explicit])).
Qed.

Section TestInvariant.

Variable serve : http.Server -> time.Time -> option (option error).
Variable drain : http.Server -> Context -> time.Time -> option error.
Variable returns : option error.

(** A step of the test itself keeps the invariant. *)
Lemma test_invariant_main_step (tr : list label) (q q' : prog (option error))
    (rest : list (thread (option error))) (w w' : world) (e : event)
    (started : list (prog unit)) :
  test_invariant returns tr (Main q :: rest, w) ->
  lstep q e q' ->
  call_returns serve drain w e w' started ->
  test_invariant returns (tr ++ [LCall 0 e])
    ((<[0%nat := Main q']> (Main q :: rest) ++ map Goroutine started)%list, w').
Proof.
  intros (Hshape & Hhalt & Hchan & Hsrv & Hdrain & Hsend & Hrecv) Hstp Hret.
  simpl in *.
  assert (lexec (TestShutdown returns) (projs 0 tr) q) as Hq.
  { destruct Hshape as [(q0 & [= <- ->] & ? & _)|(q0 & p & ? & ? & ? & [= <- ->] & ? & _)];
      done. }
  pose proof (lexec_snoc _ _ _ _ _ Hq Hstp) as Hq'.
  destruct (TestShutdown_next _ _ _ _ Hq') as ((ctx & ch & m & v & Hin) & Hgo1 & Hrecv1).
  unfold test_invariant, test_shape. rewrite !projs_snoc. simpl. rewrite ?app_nil_r.
  unfold test_trace in Hin.
  repeat (apply elem_of_cons in Hin as [->|Hin]); [..|by apply elem_of_nil in Hin];
    simpl in Hret.
  - (* WithCancel *)
    injection Hret as <- <- <-. simpl. rewrite ?app_nil_r.
    split_and!; try done.
    + destruct Hshape as [(q0 & [= <- ->] & _ & Hp1 & Hgo)
                         |(q0 & p & c0 & m0 & ch0 & [= <- ->] & _ & Hp & Hgo)].
      * left. exists q'. split_and!; try done.
        rewrite List.filter_app. simpl. by rewrite Hgo.
      * right. exists q', p, c0, m0, ch0. split_and!; try done.
        apply elem_of_app. by left.
    + intros c0 v0 H0. apply elem_of_app. left. by apply Hsend.
    + intros c0 v0 [H0|H0]%elem_of_app; [by eapply Hrecv|].
      by apply list_elem_of_singleton in H0.
  - (* Make *)
    injection Hret as <- <- <-. simpl. rewrite ?app_nil_r.
    split_and!; try done.
    + destruct Hshape as [(q0 & [= <- ->] & _ & Hp1 & Hgo)
                         |(q0 & p & c0 & m0 & ch0 & [= <- ->] & _ & Hp & Hgo)].
      * left. exists q'. split_and!; try done.
        rewrite List.filter_app. simpl. by rewrite Hgo.
      * right. exists q', p, c0, m0, ch0. split_and!; try done.
        apply elem_of_app. by left.
    + intros id Hid. apply Hchan.
      destruct (decide (id = next w)) as [->|Hne].
      * by rewrite lookup_insert_eq in Hid.
      * by rewrite lookup_insert_ne in Hid.
    + intros c0 v0 H0. apply elem_of_app. left. by apply Hsend.
    + intros c0 v0 [H0|H0]%elem_of_app; [by eapply Hrecv|].
      by apply list_elem_of_singleton in H0.
  - (* New *)
    injection Hret as <- <- <-. simpl. rewrite ?app_nil_r.
    split_and!; try done.
    + destruct Hshape as [(q0 & [= <- ->] & _ & Hp1 & Hgo)
                         |(q0 & p & c0 & m0 & ch0 & [= <- ->] & _ & Hp & Hgo)].
      * left. exists q'. split_and!; try done.
        rewrite List.filter_app. simpl. by rewrite Hgo.
      * right. exists q', p, c0, m0, ch0. split_and!; try done.
        apply elem_of_app. by left.
    + intros id o Hid.
      destruct (decide (id = next w)) as [->|Hne].
      * rewrite lookup_insert_eq in Hid. by injection Hid as <-.
      * rewrite lookup_insert_ne in Hid by done. by eapply Hsrv.
    + intros c0 v0 H0. apply elem_of_app. left. by apply Hsend.
    + intros c0 v0 [H0|H0]%elem_of_app; [by eapply Hrecv|].
      by apply list_elem_of_singleton in H0.
  - (* Go *)
    injection Hret as <- <-. simpl.
    specialize (Hgo1 eq_refl).
    destruct Hshape as [(q0 & [= <- ->] & _ & Hp1 & Hgo)
                       |(q0 & p & c0 & m0 & ch0 & [= <- ->] & _ & Hp & Hgo)].
    2:{ exfalso. apply list_elem_of_In in Hgo.
        assert (In (Ev (op.Go (go_shutdown_returned c0 m0 ch0 time.Second)) tt)
                  (List.filter is_Go (projs 0 tr))) as Hf by (by apply filter_In).
        by rewrite Hgo1 in Hf. }
    split_and!; try done.
    + right. exists q', (shutdown ctx m ch time.Second), ctx, m, ch.
      split_and!; try done.
      * by rewrite Hp1.
      * apply elem_of_app. right. by apply list_elem_of_singleton.
    + intros c0 v0 H0. apply elem_of_app. left. by apply Hsend.
    + intros c0 v0 [H0|H0]%elem_of_app; [by eapply Hrecv|].
      by apply list_elem_of_singleton in H0.
  - (* Cancel *)
    assert (halted w' = None /\ chans w' = chans w /\ servers w' = servers w
            /\ started = []) as (Hh' & Hc' & Hs' & ->).
    { destruct ctx; injection Hret as <- <-; done. }
    simpl. rewrite ?app_nil_r, Hc', Hs'.
    split_and!; try done.
    + destruct Hshape as [(q0 & [= <- ->] & _ & Hp1 & Hgo)
                         |(q0 & p & c0 & m0 & ch0 & [= <- ->] & _ & Hp & Hgo)].
      * left. exists q'. split_and!; try done.
        rewrite List.filter_app. simpl. by rewrite Hgo.
      * right. exists q', p, c0, m0, ch0. split_and!; try done.
        apply elem_of_app. by left.
    + intros c0 v0 H0. apply elem_of_app. left. by apply Hsend.
    + intros c0 v0 [H0|H0]%elem_of_app; [by eapply Hrecv|].
      by apply list_elem_of_singleton in H0.
  - (* Recv, from a closed channel *)
    destruct ch as [i]. destruct (chans w !! i) as [[|]|] eqn:Hci; try done.
    injection Hret as <- <- <-. simpl. rewrite ?app_nil_r.
    specialize (Hrecv1 eq_refl).
    pose proof (Hchan i Hci) as Hclosed.
    destruct Hshape as [(q0 & [= <- ->] & _ & Hp1 & Hgo)
                       |(q0 & p & c0 & m0 & ch0 & [= <- ->] & _ & Hp & Hgo)].
    { rewrite Hp1 in Hclosed. by apply elem_of_nil in Hclosed. }
    destruct (shutdown_closed _ _ _ _ _ _ _ Hp Hclosed) as (sctx & err & Hd & Hs).
    assert (err = None) as ->.
    { destruct err as [e0|]; [|done]. exfalso.
      assert (In (Ev (op.Recv ch0) (Some e0)) (List.filter is_Recv (projs 0 tr))) as Hf.
      { apply filter_In. split; [|done].
        assert (Ev (op.Recv ch0) (Some e0) ∈ projs 0 tr) as Hr' by (apply Hsend, Hs; done).
        by apply list_elem_of_In. }
      by rewrite Hrecv1 in Hf. }
    assert (returns = None) as Hret0 by (symmetry; by eapply Hdrain).
    split_and!; try done.
    + right. exists q', p, c0, m0, ch0. split_and!; try done.
      apply elem_of_app. by left.
    + intros c1 v1 H1. apply elem_of_app. left. by apply Hsend.
    + intros c1 v1 [H1|H1]%elem_of_app; [by eapply Hrecv|].
      apply list_elem_of_singleton in H1.
      apply (f_equal (fun e => match e with Ev (op.Recv _) r => r | _ => None end)) in H1.
      simpl in H1. congruence.
Qed.

(** A step of the coordinator keeps the invariant. *)
Lemma test_invariant_coordinator_step (tr : list label) (q : prog (option error))
    (p p' : prog unit) (w w' : world) (e : event) (started : list (prog unit)) :
  test_invariant returns tr ([Main q; Goroutine p], w) ->
  lstep p e p' ->
  call_returns serve drain w e w' started ->
  test_invariant returns (tr ++ [LCall 1 e])
    ((<[1%nat := Goroutine p']> [Main q; Goroutine p] ++ map Goroutine started)%list, w').
Proof.
  intros (Hshape & Hhalt & Hchan & Hsrv & Hdrain & Hsend & Hrecv) Hstp Hret.
  simpl in *.
  destruct Hshape as [(q0 & [=] & _)
                     |(q0 & p0 & ctx & m & ch & [= <- <-] & Hq & Hp & Hgo)].
  pose proof (lexec_snoc _ _ _ _ _ Hp Hstp) as Hp'.
  destruct (shutdown_next _ _ _ _ _ _ _ Hp') as (sctx & err & Hin & Hsend1 & Hclose1).
  unfold test_invariant, test_shape. rewrite !projs_snoc. simpl. rewrite ?app_nil_r.
  assert (halted w' = None /\ started = [] /\ is_Send e = false /\
          (forall id, chans w' !! id = Some true ->
             Ev (op.Close (Chan id)) tt ∈ (projs 1 tr ++ [e])%list) /\
          (forall id o, servers w' !! id = Some o ->
             o = MockServer {| Returns := returns |}) /\
          (forall srv' sctx' err', e = Ev (op.Shutdown srv' sctx') err' -> err' = returns))
    as (Hh' & -> & Hns & Hchan' & Hsrv' & Hdrain').
  { unfold coordinator_trace in Hin.
    assert (forall id, chans w !! id = Some true ->
              Ev (op.Close (Chan id)) tt ∈ (projs 1 tr ++ [e])%list) as Hchan0.
    { intros id Hid. apply elem_of_app. left. by apply Hchan. }
    destruct err as [e0|]; cbn in Hin;
      repeat (apply elem_of_cons in Hin as [->|Hin]); try (by apply elem_of_nil in Hin);
      simpl in Hret.
    all: try (destruct (context.done (cancelled w) (clock w) ctx); [|done]).
    all: try (destruct m as [i]; destruct (servers w !! i) as [o|] eqn:Ho; [|done];
              pose proof (Hsrv i o Ho) as ->; simpl in Hret).
    all: try (destruct ch as [j]; destruct (chans w !! j) as [[|]|] eqn:Hj; try done).
    all: try (destruct sctx).
    all: try discriminate Hret.
    all: simplify_eq; simpl.
    all: split_and!; try done.
    all: try (intros srv' sctx' err' Heq; by apply (f_equal drained) in Heq).
    all: try (intros n o' Hn; destruct (decide (n = i)) as [->|Hne];
              [rewrite lookup_insert_eq in Hn; by injection Hn as <-
              |rewrite lookup_insert_ne in Hn by done; by eapply Hsrv]).
    all: try (intros srv' sctx' err' Heq; apply (f_equal drained) in Heq;
              simpl in Heq; congruence).
    all: try (intros n Hn; apply elem_of_app; destruct (decide (n = j)) as [->|Hne];
              [right; by apply list_elem_of_singleton
              |left; rewrite lookup_insert_ne in Hn by done; by apply Hchan]). }
  simpl. rewrite ?app_nil_r.
  split_and!; try done.
  - right. exists q, p', ctx, m, ch. split_and!; try done.
  - intros srv' sctx' err' [H0|H0]%elem_of_app; [by eapply Hdrain|].
    apply list_elem_of_singleton in H0. symmetry in H0. by eapply Hdrain'.
  - intros c0 v0 [H0|H0]%elem_of_app; [by apply Hsend|].
    apply list_elem_of_singleton in H0. subst e. done.
Qed.

(** A hand-over from the coordinator to the test keeps the invariant. *)
Lemma test_invariant_sync (tr : list label) (q q' : prog (option error))
    (p p' : prog unit) (w : world) (id : nat) (v : option error) :
  test_invariant returns tr ([Main q; Goroutine p], w) ->
  lstep p (Ev (op.Send (Chan id) v) tt) p' ->
  lstep q (Ev (op.Recv (Chan id)) v) q' ->
  test_invariant returns (tr ++ [LSync 1 0 (Chan id) v]) ([Main q'; Goroutine p'], w).
Proof.
  intros (Hshape & Hhalt & Hchan & Hsrv & Hdrain & Hsend & Hrecv) Hsnd Hrcv.
  simpl in *.
  destruct Hshape as [(q0 & [=] & _)
                     |(q0 & p0 & ctx & m & ch & [= <- <-] & Hq & Hp & Hgo)].
  pose proof (lexec_snoc _ _ _ _ _ Hp Hsnd) as Hp'.
  pose proof (lexec_snoc _ _ _ _ _ Hq Hrcv) as Hq'.
  destruct (shutdown_next _ _ _ _ _ _ _ Hp') as (sctx & err & _ & Hsend1 & _).
  destruct (Hsend1 eq_refl) as [Heq Hd].
  apply (f_equal sent) in Heq. simpl in Heq. injection Heq as <- <-.
  apply Hdrain in Hd as ->.
  unfold test_invariant, test_shape. rewrite !projs_snoc. simpl.
  split_and!; try done.
  - right. exists q', p', ctx, m, (Chan id). split_and!; try done.
    apply elem_of_app. by left.
  - intros i Hi. apply elem_of_app. left. by apply Hchan.
  - intros srv' sctx' err' [H0|H0]%elem_of_app; [by eapply Hdrain|].
    apply list_elem_of_singleton in H0. by apply (f_equal drained) in H0.
  - intros c0 v0 [H0|H0]%elem_of_app; apply elem_of_app.
    + left. by apply Hsend.
    + right. apply list_elem_of_singleton in H0.
      apply (f_equal sent) in H0. simpl in H0. injection H0 as -> ->.
      by apply list_elem_of_singleton.
  - intros c0 v0 [H0|H0]%elem_of_app; [by eapply Hrecv|].
    apply list_elem_of_singleton in H0.
    apply (f_equal (fun e => match e with Ev (op.Recv _) r => r | _ => None end)) in H0.
    simpl in H0. congruence.
Qed.

(** Neither goroutine of the test is ever about to call [os.Exit]. *)
Lemma TestShutdown_no_exit (tr : list event) (q : prog (option error)) (code : Z) :
  lexec (TestShutdown returns) tr q -> head (Main q) <> Some (op.Exit code).
Proof.
  intros H. unfold TestShutdown, perform in H.
  lexec_inv H x1; [done|]. lexec_inv H x2; [done|]. lexec_inv H x3; [done|].
  lexec_inv H x4; [done|]. lexec_inv H x5; [done|]. lexec_inv H x6; [done|].
  by lexec_end H.
Qed.

Lemma shutdown_no_exit (ctx : Context) (m : ptr) (ch : chan) (d : time.Duration)
    (tr : list event) (p : prog unit) (code : Z) :
  lexec (shutdown ctx m ch d) tr p ->
  head (@Goroutine (option error) p) <> Some (op.Exit code).
Proof.
  intros H. unfold shutdown, perform, defer in H. cbn in H.
  lexec_inv H x1; [done|]. lexec_inv H x2; [done|]. lexec_inv H x3; [done|].
  lexec_inv H x4; [done|].
  destruct x4 as [e0|]; cbn in H.
  - lexec_inv H y1; [done|]. lexec_inv H y2; [done|]. lexec_inv H y3; [done|].
    by lexec_end H.
  - lexec_inv H y1; [done|]. lexec_inv H y2; [done|]. by lexec_end H.
Qed.

Lemma head_send {R : Type} (th : thread R) (ch : chan) (v : option error) :
  head th = Some (op.Send ch v) ->
  exists th', thread_step th (Ev (op.Send ch v) tt) th'.
Proof.
  destruct th as [[|c k]|[|c k]]; simpl; try done; intros [= ->].
  - exists (Main (k tt)). by exists tt.
  - exists (Goroutine (k tt)). by exists tt.
Qed.

Lemma head_close {R : Type} (th : thread R) (ch : chan) :
  head th = Some (op.Close ch) ->
  exists th', thread_step th (Ev (op.Close ch) tt) th'.
Proof.
  destruct th as [[|c k]|[|c k]]; simpl; try done; intros [= ->].
  - exists (Main (k tt)). by exists tt.
  - exists (Goroutine (k tt)). by exists tt.
Qed.

Lemma test_invariant_start : test_invariant returns [] (test_system returns).
Proof.
  unfold test_invariant, test_shape, test_system. simpl.
  split_and!; try done.
  - left. by exists (TestShutdown returns).
  - intros srv sctx err H. by apply elem_of_nil in H.
  - intros ch v H. by apply elem_of_nil in H.
  - intros ch v H. by apply elem_of_nil in H.
Qed.

(** Every step of the system keeps the invariant; in particular no step
    is a panic or an exit. *)
Lemma test_invariant_step (tr : list label) (cfg cfg' : config (option error))
    (l : label) :
  test_invariant returns tr cfg ->
  step serve drain cfg l cfg' ->
  test_invariant returns (tr ++ [l]) cfg'.
Proof.
  intros Hinv Hstep.
  destruct Hstep as [ts w t0 th0 e th' w' started Hh Ht0 Hstp Hret
                    |ts w s r ths ths' thr thr' id v Hh Hne Hs Hr Hopen Hsnd Hrcv
                    |ts w t0 th0 c Hh Ht0 Hhd Hp
                    |ts w t0 th0 code Hh Ht0 Hhd
                    |ts w sig Hh
                    |ts w d Hh Hd].
  - pose proof Hinv as (Hshape & _). unfold test_shape in Hshape. simpl in Hshape.
    destruct Hshape as [(q & -> & _)|(q & p & ctx & m & ch & -> & Hq & Hp & _)].
    + destruct t0 as [|t0]; [|by destruct t0].
      injection Ht0 as <-. destruct th' as [q'|]; [|done].
      by apply (test_invariant_main_step tr q q' [] w).
    + destruct t0 as [|[|t0]]; [| |by destruct t0].
      * injection Ht0 as <-. destruct th' as [q'|]; [|done].
        by apply (test_invariant_main_step tr q q' [Goroutine p] w).
      * injection Ht0 as <-. destruct th' as [|p']; [done|].
        by apply (test_invariant_coordinator_step tr q p p' w).
  - pose proof Hinv as (Hshape & _). unfold test_shape in Hshape. simpl in Hshape.
    destruct Hshape as [(q & -> & _)|(q & p & ctx & m & ch & -> & Hq & Hp & _)].
    + destruct s as [|s]; [|by destruct s].
      destruct r as [|r]; [done|by destruct r].
    + destruct s as [|[|s]]; [| |by destruct s].
      * exfalso. injection Hs as <-. destruct ths' as [q'|]; [|done].
        simpl in Hsnd.
        pose proof (lexec_snoc _ _ _ _ _ Hq Hsnd) as Hq'.
        apply TestShutdown_next in Hq' as ((c1 & c2 & c3 & c4 & Hin) & _).
        unfold test_trace in Hin. not_mem Hin.
      * destruct r as [|[|r]]; [|done|by destruct r].
        injection Hs as <-. injection Hr as <-.
        destruct ths' as [|p']; [done|]. destruct thr' as [q'|]; [|done].
        by apply (test_invariant_sync tr q q' p p').
  - exfalso.
    destruct Hinv as (Hshape & _ & Hchan & _ & _ & _ & _).
    unfold test_shape in Hshape. simpl in Hshape, Hchan.
    assert (exists i e th', chans w !! i = Some true /\ thread_step th0 e th' /\
              (is_Send e = true \/ is_Close e = true)) as (i & e & th' & Hci & Hstp & He).
    { destruct c; simpl in Hp; try discriminate Hp;
        (destruct ch as [i]; destruct (chans w !! i) as [[|]|] eqn:Hci;
         try discriminate Hp).
      - apply head_send in Hhd as [th' Hth'].
        exists i, (Ev (op.Send (Chan i) v) tt), th'. split_and!; try done.
        by left.
      - apply head_close in Hhd as [th' Hth'].
        exists i, (Ev (op.Close (Chan i)) tt), th'. split_and!; try done.
        by right. }
    pose proof (Hchan i Hci) as Hclosed.
    destruct Hshape as [(q & -> & _ & Hnil & _)|(q & p & ctx & m & ch & -> & Hq & Hp0 & _)].
    { rewrite Hnil in Hclosed. by apply elem_of_nil in Hclosed. }
    destruct t0 as [|[|t0]]; [| |by destruct t0].
    + injection Ht0 as <-. destruct th' as [q'|]; [|done]. simpl in Hstp.
      pose proof (lexec_snoc _ _ _ _ _ Hq Hstp) as Hq'.
      apply TestShutdown_next in Hq' as ((c1 & c2 & c3 & c4 & Hin) & _).
      unfold test_trace in Hin.
      repeat (apply elem_of_cons in Hin as [->|Hin]; [by destruct He|]).
      by apply elem_of_nil in Hin.
    + injection Ht0 as <-. destruct th' as [|p']; [done|]. simpl in Hstp.
      pose proof (lexec_snoc _ _ _ _ _ Hp0 Hstp) as Hp'.
      apply shutdown_next in Hp' as (sctx & err & _ & _ & Hno).
      destruct (Hno _ Hclosed) as [H1 H2]. destruct He; congruence.
  - exfalso.
    destruct Hinv as (Hshape & _). unfold test_shape in Hshape. simpl in Hshape.
    destruct Hshape as [(q & -> & Hq & _)|(q & p & ctx & m & ch & -> & Hq & Hp0 & _)].
    + destruct t0 as [|t0]; [|by destruct t0]. injection Ht0 as <-.
      by eapply TestShutdown_no_exit.
    + destruct t0 as [|[|t0]]; [| |by destruct t0]; injection Ht0 as <-.
      * by eapply TestShutdown_no_exit.
      * by eapply shutdown_no_exit.
  - unfold test_invariant, test_shape in *. rewrite !projs_snoc. simpl in *.
    by rewrite !app_nil_r.
  - unfold test_invariant, test_shape in *. rewrite !projs_snoc. simpl in *.
    by rewrite !app_nil_r.
Qed.

Lemma test_invariant_steps (cfg cfg' : config (option error)) (tr : list label) :
  steps serve drain cfg tr cfg' ->
  forall pre, test_invariant returns pre cfg -> test_invariant returns (pre ++ tr) cfg'.
Proof.
  induction 1 as [cfg|cfg l cfg1 tr cfg2 Hstep _ IH]; intros pre Hinv.
  - by rewrite app_nil_r.
  - rewrite cons_middle, app_assoc. apply IH. by eapply test_invariant_step.
Qed.

(** X8. Whatever the scheduler does, and whenever signals arrive or time
    passes, the value [TestShutdown] reads from the channel is the error
    the mock server's [Shutdown] returns: the error itself when the
    coordinator hands it over, and nil, read from the closed channel, when
    there was none. So both sub-tests pass under every schedule in which
    they finish. *)
Theorem TestShutdown_reads_the_drain_outcome (tr : list label)
    (cfg : config (option error)) (v : option error) :
  steps serve drain (test_system returns) tr cfg ->
  cfg.1 !! 0%nat = Some (Main (Ret v)) ->
  v = returns.
Proof.
  intros Hsteps Hend.
  pose proof (test_invariant_steps _ _ _ Hsteps [] test_invariant_start) as Hinv.
  simpl in Hinv.
  destruct Hinv as (Hshape & _ & _ & _ & _ & _ & Hrecv).
  assert (lexec (TestShutdown returns) (projs 0 tr) (Ret v)) as Hq.
  { destruct Hshape as [(q & Hts & Hq & _)|(q & p & ctx & m & ch & Hts & Hq & _)];
      rewrite Hts in Hend; by injection Hend as ->. }
  apply TestShutdown_lexec in Hq as (ctx & ch & m & v' & _ & Hfin & Hv).
  specialize (Hv I). injection Hv as ->.
  apply (Hrecv ch). rewrite (proj1 Hfin I). unfold test_trace.
  apply list_elem_of_lookup. by exists 5%nat.
Qed.

(** X9. No schedule of [TestShutdown] panics or exits: the coordinator
    never sends on, or closes, a channel that is closed. And the test
    never has more than the one coordinator beside it. *)
Theorem TestShutdown_never_panics (tr : list label) (cfg : config (option error)) :
  steps serve drain (test_system returns) tr cfg ->
  halted cfg.2 = None /\ (length cfg.1 <= 2)%nat.
Proof.
  intros Hsteps.
  pose proof (test_invariant_steps _ _ _ Hsteps [] test_invariant_start) as Hinv.
  destruct Hinv as (Hshape & Hh & _). split; [done|].
  destruct Hshape as [(q & -> & _)|(q & p & ctx & m & ch & -> & _)]; simpl; lia.
Qed.

End TestInvariant.

Lemma TestShutdown_reads_the_drain_outcome_witness :
  (after test_handover (test_system (Some http.ErrServerClosed))).1 !! 0%nat
  = Some (Main (Ret (Some http.ErrServerClosed))) /\
  Some http.ErrServerClosed = Some http.ErrServerClosed.
Proof.
  split; [vm_compute; reflexivity|].
  apply (TestShutdown_reads_the_drain_outcome serve_until_shutdown drain_clean
           (Some http.ErrServerClosed)
           (trace_of test_handover (test_system (Some http.ErrServerClosed)))
           (after test_handover (test_system (Some http.ErrServerClosed)))).
  - apply schedule_sound with (chs := test_handover). vm_compute. reflexivity.
  - vm_compute. reflexivity.
Defined.

Lemma TestShutdown_never_panics_witness :
  halted (after test_closing (test_system None)).2 = None /\
  (length (after test_closing (test_system None)).1 <= 2)%nat.
Proof.
  apply (TestShutdown_never_panics serve_until_shutdown drain_clean None
           (trace_of test_closing (test_system None))).
  apply schedule_sound with (chs := test_closing). vm_compute. reflexivity.
Defined.

(** ** What [main] makes of the result of [run] *)

(** An execution of [p] followed by [k] is an execution of [p], or one of
    [p] to its end followed by one of [k]. *)
Lemma lexec_bind {A B : Type} (p : prog A) (k : A -> prog B) (tr : list event)
    (q : prog B) :
  lexec (bind p k) tr q <->
  (exists p', lexec p tr p' /\ q = bind p' k) \/
  (exists tr1 tr2 r,
      tr = (tr1 ++ tr2)%list /\ lexec p tr1 (Ret r) /\ lexec (k r) tr2 q).
Proof.
  revert p. induction tr as [|e tr IH]; intros p.
  - split.
    + intros ->. left. by exists p.
    + intros [(p' & -> & ->)|(tr1 & tr2 & r & Htr & H1 & H2)]; [done|].
      symmetry in Htr. apply app_eq_nil in Htr as [-> ->].
      simpl in *. by subst.
  - destruct p as [r|c k0].
    + split.
      * intros H. right. by exists [], (e :: tr), r.
      * intros [(p' & (p1 & [] & _) & _)|(tr1 & tr2 & r' & Htr & H1 & H2)].
        destruct tr1 as [|e1 tr1]; [|by destruct H1 as (p1 & [] & _)].
        simpl in Htr, H1. injection H1 as ->. by subst tr2.
    + split.
      * intros (p1 & (x & -> & ->) & H). apply IH in H
          as [(p' & H & ->)|(tr1 & tr2 & r & -> & H1 & H2)].
        -- left. exists p'. split; [|done]. exists (k0 x). split; [by exists x|done].
        -- right. exists (Ev c x :: tr1), tr2, r. split; [done|]. split; [|done].
           exists (k0 x). split; [by exists x|done].
      * intros [(p' & (p1 & (x & -> & ->) & H) & ->)
               |(tr1 & tr2 & r & Htr & H1 & H2)].
        -- exists (bind (k0 x) k). split; [by exists x|].
           apply IH. left. by exists p'.
        -- destruct tr1 as [|e1 tr1]; [done|].
           injection Htr as <- ->. destruct H1 as (p1 & (x & -> & ->) & H1).
           exists (bind (k0 x) k). split; [by exists x|].
           apply IH. right. by exists tr1, tr2, r.
Qed.

(** An event fixes the value its operation returned. *)
Lemma Ev_inj (c : op.call) (x y : op.ret c) : Ev c x = Ev c y -> x = y.
Proof.
  destruct c; simpl in x, y; intros H;
    try (by destruct x, y); try (by destruct x).
  - by apply (f_equal (fun e => match e with
                                | Ev (op.WithTimeout _ _) r => r
                                | _ => context.Background end)) in H.
  - by apply (f_equal (fun e => match e with
                                | Ev (op.WithCancel _) r => r
                                | _ => context.Background end)) in H.
  - by apply (f_equal (fun e => match e with
                                | Ev (op.NotifyContext _ _) r => r
                                | _ => context.Background end)) in H.
  - by apply (f_equal (fun e => match e with
                                | Ev (op.New _) r => r
                                | _ => Ptr 0 end)) in H.
  - by apply (f_equal (fun e => match e with
                                | Ev (op.Shutdown _ _) r => r
                                | _ => None end)) in H.
  - by apply (f_equal (fun e => match e with
                                | Ev (op.ListenAndServe _) r => r
                                | _ => None end)) in H.
  - by apply (f_equal (fun e => match e with
                                | Ev op.Make r => r
                                | _ => Chan 0 end)) in H.
  - by apply (f_equal (fun e => match e with
                                | Ev (op.Recv _) r => r
                                | _ => None end)) in H.
Qed.

(** Sequential code is determined by what its operations return. *)
Lemma lstep_det {R : Type} (p q q' : prog R) (e : event) :
  lstep p e q -> lstep p e q' -> q = q'.
Proof.
  destruct p as [r|c k]; [done|].
  intros (x & -> & ->) (y & Hy & ->). apply Ev_inj in Hy. by subst.
Qed.

Lemma lexec_det {R : Type} (p q q' : prog R) (tr : list event) :
  lexec p tr q -> lexec p tr q' -> q = q'.
Proof.
  revert p. induction tr as [|e tr IH]; intros p; simpl.
  - by intros -> ->.
  - intros (p1 & H1 & H1') (p2 & H2 & H2').
    rewrite (lstep_det _ _ _ _ H1 H2) in H1'. by eapply IH.
Qed.

(** [run] is never about to call [os.Exit]. *)
Lemma run_no_exit (ctx : Context) (getenv : EnvGetter) (tr : list event)
    (q : prog (option error)) (code : Z) :
  lexec (run ctx getenv) tr q -> head (Main q) <> Some (op.Exit code).
Proof.
  intros H. unfold run, defer, perform in H.
  lexec_inv H x1; [done|]. lexec_inv H x2; [done|]. lexec_inv H x3; [done|].
  lexec_inv H x4; [done|]. lexec_inv H r; [done|].
  destruct (negb (errors.Is r http.ErrServerClosed)) eqn:Hr; cbn in H.
  - lexec_inv H x6; [done|]. by lexec_end H.
  - lexec_inv H v; [done|]. lexec_inv H x7; [done|]. by lexec_end H.
Qed.

(** [run] writes nothing to standard error itself. *)
Lemma run_no_stderr (ctx : Context) (getenv : EnvGetter) (tr : list event)
    (q : prog (option error)) (text : string) :
  lexec (run ctx getenv) (tr ++ [Ev (op.Stderr text) tt]) q -> False.
Proof.
  intros H. apply run_lexec_events in H.
  apply Forall_app in H as [_ H]. by rewrite Forall_singleton in H.
Qed.

(** [main], run alone: when it is about to exit, and when it returns. *)
Lemma main_lexec (environ : gmap string string) (tr : list event)
    (q : prog unit) :
  lexec (main environ) tr q ->
  (forall code,
      head (@Main unit q) = Some (op.Exit code) <->
      code = 1 /\
      exists e tr',
        tr = (tr' ++ [Ev (op.Stderr (errors.Error e +:+ newline)) tt])%list /\
        lexec (run context.Background (os.Getenv environ)) tr' (Ret (Some e))) /\
  (finished q <-> lexec (run context.Background (os.Getenv environ)) tr (Ret None)).
Proof.
  unfold main. intros H.
  change (lexec (bind (run context.Background (os.Getenv environ))
                   (fun err => match err with
                    | Some e =>
                        _ ← perform (op.Stderr (fmt.Sprintf ("%s" +:+ newline) [errors.Error e]));
                        Do (op.Exit errorExitCode) (fun x : Empty_set => match x with end)
                    | None => mret tt
                    end)) tr q) in H.
  apply lexec_bind in H as [(p' & Hp' & ->)|(tr1 & tr2 & r & -> & H1 & H2)].
  - split.
    + intros code. split.
      * intros Hhd. exfalso. destruct p' as [[e|]|c k0]; simpl in Hhd; try done.
        by apply (run_no_exit _ _ _ _ code Hp').
      * intros (_ & e & tr' & -> & _). exfalso. by eapply run_no_stderr.
    + split.
      * intros Hf. destruct p' as [[e|]|c k0]; done.
      * intros Hr. by rewrite (lexec_det _ _ _ _ Hp' Hr).
  - destruct r as [e|].
    + cbn in H2. lexec_inv H2 x.
      { rewrite app_nil_r. split.
        - intros code. split; [done|].
          intros (_ & e' & tr' & -> & _). exfalso. by eapply run_no_stderr.
        - split; [done|]. intros Hr. by pose proof (lexec_det _ _ _ _ H1 Hr). }
      destruct tr2 as [|e2 tr2]; [|by destruct H2 as (? & [[] _] & _)].
      cbn in H2. subst q. split.
      * intros code. split.
        -- intros [= <-]. split; [done|]. by exists e, tr1.
        -- by intros [-> _].
      * split; [done|]. intros Hr. exfalso. by eapply run_no_stderr.
    + cbn in H2. destruct tr2 as [|e2 tr2]; [|by destruct H2 as (? & [] & _)].
      cbn in H2. subst q. rewrite app_nil_r. split.
      * intros code. split; [done|].
        intros (_ & e' & tr' & -> & _). exfalso. by eapply run_no_stderr.
      * done.
Qed.

(** X10. [main] is about to call [os.Exit] exactly when [run] has returned an
    error and its text, with a newline, has been written to standard
    error; the status is then 1. And [main] returns exactly when [run]
    has returned nil, with nothing written. *)
Theorem main_exits_with_1_on_error (environ : gmap string string) (tr : list event)
    (q : prog unit) :
  lexec (main environ) tr q ->
  (forall code,
      head (@Main unit q) = Some (op.Exit code) <->
      code = 1 /\
      exists e tr',
        tr = (tr' ++ [Ev (op.Stderr (errors.Error e +:+ newline)) tt])%list /\
        lexec (run context.Background (os.Getenv environ)) tr' (Ret (Some e))) /\
  (finished q <-> lexec (run context.Background (os.Getenv environ)) tr (Ret None)).
Proof. apply main_lexec. Qed.

Lemma main_exits_with_1_on_error_witness :
  head (Main main_at_exit) = Some (op.Exit 1) <->
  1 = 1 /\
  exists e tr',
    main_demo_trace = (tr' ++ [Ev (op.Stderr (errors.Error e +:+ newline)) tt])%list /\
    lexec (run context.Background (os.Getenv main_demo_environ)) tr' (Ret (Some e)).
Proof.
  refine (proj1 (main_exits_with_1_on_error main_demo_environ main_demo_trace
                   main_at_exit _) 1).
  cbn. repeat (eexists; split; [by eexists|]). reflexivity.
Defined.

(** ** The readiness probe *)

Section ClientProps.

Variable url_Parse : string -> option error.
Variable client_Do :
  time.Duration -> Context -> string -> nat -> time.Time -> time.Duration * (error + Z).
Variable ctx_Err : Context -> time.Time -> option error.
Variable Duration_String : time.Duration -> string.

Local Abbreviation loop := (waitForReady_loop client_Do ctx_Err Duration_String).
Local Abbreviation wait := (waitForReady url_Parse client_Do ctx_Err Duration_String).

(** The loop while requests fail: it goes round again at once. *)
Lemma waitForReady_loop_failing (fuel : nat) (ctx : Context) (endpoint : string)
    (timeout interval : time.Duration) (startTime : time.Time) (w : clientWorld) :
  (forall n t, (requests w <= n < requests w + fuel)%nat ->
     exists took err, client_Do timeout ctx endpoint n t = (took, inl err)) ->
  exists w',
    loop fuel ctx endpoint timeout interval startTime w = Looping w' /\
    requests w' = (requests w + fuel)%nat /\ allocs w' = allocs w.
Proof.
  revert w. induction fuel as [|fuel IH]; intros w Hfail; simpl.
  - exists w. split_and!; [done|lia|done].
  - destruct (Hfail (requests w) (wall w)) as (took & err & ->); [lia|].
    edestruct IH as (w' & Hw' & Hn & Ha); [|exists w'; split; [exact Hw'|]].
    + simpl. intros n t Hn. apply Hfail. lia.
    + simpl in Hn, Ha. split; [lia|done].
Qed.

(** X11. As long as its requests fail, [waitForReady] does not return: not when
    the time allowed has long passed, and not when the context is done.
    The deadline and the context are looked at only after a response. *)
Theorem waitForReady_spins_while_requests_fail (fuel : nat) (ctx : Context)
    (endpoint : string) (timeout interval : time.Duration) (w : clientWorld) :
  url_Parse endpoint = None ->
  (forall n t, (requests w <= n < requests w + fuel)%nat ->
     exists took err, client_Do timeout ctx endpoint n t = (took, inl err)) ->
  exists w',
    wait fuel ctx endpoint timeout interval w = Looping w' /\
    requests w' = (requests w + fuel)%nat /\ allocs w' = allocs w.
Proof.
  intros Hurl Hfail. unfold waitForReady. rewrite Hurl.
  by apply waitForReady_loop_failing.
Qed.

(** What the loop has seen when it returns. *)
Lemma waitForReady_loop_returned (fuel : nat) (ctx : Context) (endpoint : string)
    (timeout interval : time.Duration) (startTime : time.Time) (w w' : clientWorld)
    (r : option error) :
  loop fuel ctx endpoint timeout interval startTime w = Returned r w' ->
  exists n t took status,
    client_Do timeout ctx endpoint n t = (took, inr status) /\
    (requests w <= n)%nat /\ requests w' = S n /\ wall w' = t + took /\
    ((status = http.StatusOK /\ r = None) \/
     (status <> http.StatusOK /\ r <> None /\ ctx_Err ctx (wall w') = r) \/
     (status <> http.StatusOK /\ ctx_Err ctx (wall w') = None /\
      timeout <= wall w' - startTime /\
      r = Some (errors.New (allocs w)
                  (fmt.Sprintf "server did not reply after %v"
                     [Duration_String timeout])))).
Proof.
  revert w. induction fuel as [|fuel IH]; intros w; simpl; [done|].
  destruct (client_Do timeout ctx endpoint (requests w) (wall w))
    as [took [err|status]] eqn:Hdo.
  - intros H. apply IH in H as (n & t & took' & status & Hn & Hle & Hreq & Hwall & Hr).
    simpl in Hle, Hr. exists n, t, took', status. split_and!; try done. lia.
  - destruct (Z.eqb_spec status http.StatusOK) as [->|Hne].
    + intros [= <- <-]. exists (requests w), (wall w), took, http.StatusOK.
      split_and!; try done. by left.
    + cbn [wall]. destruct (ctx_Err ctx (wall w + took)) as [err|] eqn:Herr.
      * intros [= <- <-]. exists (requests w), (wall w), took, status.
        split_and!; try done. right. left. cbn [wall]. by rewrite Herr.
      * destruct (Z.leb_spec timeout (wall w + took - startTime)) as [Hle|Hlt].
        -- intros [= <- <-]. exists (requests w), (wall w), took, status.
           split_and!; try done. right. right. done.
        -- intros H. apply IH in H
             as (n & t & took' & status' & Hn & Hle & Hreq & Hwall & Hr).
           simpl in Hle, Hr. exists n, t, took', status'. split_and!; try done. lia.
Qed.

(** X12. A return of [waitForReady] is one of four: the endpoint is no URL and
    no request was sent; or the last response was a 200 and the result is
    nil; or the last response was not a 200 and the context was done, whose
    error is the result; or the last response was not a 200, the context
    was not done, and the time allowed had passed. *)
Theorem waitForReady_returns_after_a_response (fuel : nat) (ctx : Context)
    (endpoint : string) (timeout interval : time.Duration) (w w' : clientWorld)
    (r : option error) :
  wait fuel ctx endpoint timeout interval w = Returned r w' ->
  (exists err,
      url_Parse endpoint = Some err /\
      r = Some (errors.Wrap "failed to create request, " err) /\ w' = w) \/
  (url_Parse endpoint = None /\
   exists n t took status,
     client_Do timeout ctx endpoint n t = (took, inr status) /\
     requests w' = S n /\ wall w' = t + took /\
     ((status = http.StatusOK /\ r = None) \/
      (status <> http.StatusOK /\ r <> None /\ ctx_Err ctx (wall w') = r) \/
      (status <> http.StatusOK /\ ctx_Err ctx (wall w') = None /\
       timeout <= wall w' - wall w /\
       exists id text, r = Some (errors.New id text)))).
Proof.
  unfold waitForReady. destruct (url_Parse endpoint) as [err|].
  - intros [= <- <-]. left. by exists err.
  - intros H. right. split; [done|].
    apply waitForReady_loop_returned in H
      as (n & t & took & status & Hdo & _ & Hreq & Hwall & Hr).
    exists n, t, took, status. split_and!; try done.
    destruct Hr as [Hr|[Hr|(H1 & H2 & H3 & H4)]]; [by left|by right; left|].
    right. right. split_and!; try done. by eexists _, _.
Qed.

(** X13. The first 200 ends the wait: when the requests before it fail, the
    result is nil, with one request more than those that failed. *)
Theorem waitForReady_returns_nil_at_first_ok (k fuel : nat) (ctx : Context)
    (endpoint : string) (timeout interval : time.Duration) (w : clientWorld) :
  url_Parse endpoint = None ->
  (forall n t, (requests w <= n < requests w + k)%nat ->
     exists took err, client_Do timeout ctx endpoint n t = (took, inl err)) ->
  (forall t, exists took,
     client_Do timeout ctx endpoint (requests w + k) t = (took, inr http.StatusOK)) ->
  (k < fuel)%nat ->
  exists w',
    wait fuel ctx endpoint timeout interval w = Returned None w' /\
    requests w' = S (requests w + k).
Proof.
  intros Hurl Hfail Hok Hfuel. unfold waitForReady. rewrite Hurl.
  generalize (wall w) at 1. intros startTime.
  revert fuel w Hfail Hok Hfuel. induction k as [|k IH]; intros fuel w Hfail Hok Hfuel.
  - destruct fuel as [|fuel]; [lia|]. simpl.
    destruct (Hok (wall w)) as [took Hdo]. rewrite Nat.add_0_r in Hdo. rewrite Hdo.
    simpl. eexists. split; [done|]. simpl. lia.
  - destruct fuel as [|fuel]; [lia|]. simpl.
    destruct (Hfail (requests w) (wall w)) as (took & err & ->); [lia|].
    edestruct (IH fuel) as (w' & Hw' & Hn); [| | |exists w'; split; [exact Hw'|]].
    + simpl. intros n t Hn. apply Hfail. lia.
    + simpl. intros t. destruct (Hok t) as [took' Hdo]. exists took'.
      rewrite <- Hdo. f_equal. lia.
    + lia.
    + simpl in Hn. lia.
Qed.

(** X14. Against a server that answers, but never with a 200, and a context
    that is never done, the wait ends with the time-out error: one request
    for every [interval] that fits in [timeout], and one more, suffice. *)
Theorem waitForReady_gives_up_after_timeout (ctx : Context) (endpoint : string)
    (timeout interval : time.Duration) (w : clientWorld) :
  url_Parse endpoint = None ->
  0 < interval ->
  (forall n t, exists took status,
     client_Do timeout ctx endpoint n t = (took, inr status) /\
     0 <= took /\ status <> http.StatusOK) ->
  (forall t, ctx_Err ctx t = None) ->
  exists w' id text,
    wait (S (Z.to_nat (timeout / interval + 1))) ctx endpoint timeout interval w
    = Returned (Some (errors.New id text)) w' /\
    timeout <= wall w' - wall w.
Proof.
  intros Hurl Hpos Hdo Hctx. unfold waitForReady. rewrite Hurl.
  assert (forall k w0 startTime,
            timeout - (wall w0 - startTime) <= Z.of_nat k * interval ->
            exists w' id text,
              loop (S k) ctx endpoint timeout interval startTime w0
              = Returned (Some (errors.New id text)) w' /\
              timeout <= wall w' - startTime) as Hloop.
  { induction k as [|k IH]; intros w0 startTime Hrem.
    - simpl. destruct (Hdo (requests w0) (wall w0)) as (took & status & -> & Ht & Hs).
      simpl. destruct (Z.eqb_spec status http.StatusOK) as [|_]; [done|].
      rewrite Hctx.
      destruct (Z.leb_spec timeout (wall w0 + took - startTime)) as [Hle|Hlt]; [|lia].
      by eexists _, _, _.
    - cbn [waitForReady_loop].
      destruct (Hdo (requests w0) (wall w0)) as (took & status & -> & Ht & Hs).
      cbn [wall]. destruct (Z.eqb_spec status http.StatusOK) as [|_]; [done|].
      rewrite Hctx.
      destruct (Z.leb_spec timeout (wall w0 + took - startTime)) as [Hle|Hlt].
      + by eexists _, _, _.
      + apply IH. simpl. lia. }
  apply Hloop.
  assert (0 <= timeout / interval + 1 \/ timeout / interval + 1 < 0) as [Hq|Hq] by lia.
  - rewrite Z2Nat.id by done.
    pose proof (Z.mul_succ_div_gt timeout interval Hpos). lia.
  - assert (timeout < 0) as Hneg.
    { destruct (Z.lt_ge_cases timeout 0) as [|Hge]; [done|].
      pose proof (Z.div_pos timeout interval Hge Hpos). lia. }
    replace (Z.to_nat (timeout / interval + 1)) with 0%nat by lia. lia.
Qed.

End ClientProps.

Lemma waitForReady_spins_while_requests_fail_witness :
  exists w',
    waitForReady url_fine refused ctx_cancelled seconds 50 context.TODO probe_endpoint
      0 probe_interval probe_start = Looping w' /\
    requests w' = 50%nat /\ allocs w' = 0%nat.
Proof.
  apply (waitForReady_spins_while_requests_fail url_fine refused ctx_cancelled seconds
           50 context.TODO probe_endpoint 0 probe_interval probe_start).
  - reflexivity.
  - intros n t _. eexists _, _. reflexivity.
Defined.

Lemma waitForReady_returns_after_a_response_witness :
  (exists err,
      url_fine probe_endpoint = Some err /\
      Some errors.Canceled = Some (errors.Wrap "failed to create request, " err) /\
      {| wall := time.Millisecond; stdout := ""; requests := 1; allocs := 0 |}
      = probe_start) \/
  (url_fine probe_endpoint = None /\
   exists n t took status,
     unavailable probe_timeout context.TODO probe_endpoint n t = (took, inr status) /\
     1%nat = S n /\ time.Millisecond = t + took /\
     ((status = http.StatusOK /\ Some errors.Canceled = None) \/
      (status <> http.StatusOK /\ Some errors.Canceled <> None /\
       ctx_cancelled context.TODO time.Millisecond = Some errors.Canceled) \/
      (status <> http.StatusOK /\ ctx_cancelled context.TODO time.Millisecond = None /\
       probe_timeout <= time.Millisecond - 0 /\
       exists id text, Some errors.Canceled = Some (errors.New id text)))).
Proof.
  apply (waitForReady_returns_after_a_response url_fine unavailable ctx_cancelled seconds
           3 context.TODO probe_endpoint probe_timeout probe_interval probe_start
           {| wall := time.Millisecond; stdout := ""; requests := 1; allocs := 0 |}
           (Some errors.Canceled)).
  vm_compute. reflexivity.
Defined.

Lemma waitForReady_returns_nil_at_first_ok_witness :
  exists w',
    waitForReady url_fine up_at_third ctx_live seconds 5 context.TODO probe_endpoint
      probe_timeout probe_interval probe_start = Returned None w' /\
    requests w' = 3%nat.
Proof.
  apply (waitForReady_returns_nil_at_first_ok url_fine up_at_third ctx_live seconds
           2 5 context.TODO probe_endpoint probe_timeout probe_interval probe_start).
  - reflexivity.
  - intros n t Hn. simpl in Hn.
    destruct n as [|[|n]]; [by eexists _, _|by eexists _, _|lia].
  - intros t. by eexists.
  - lia.
Defined.

Lemma waitForReady_gives_up_after_timeout_witness :
  exists w' id text,
    waitForReady url_fine unavailable ctx_live seconds 52 context.TODO probe_endpoint
      probe_timeout probe_interval probe_start
    = Returned (Some (errors.New id text)) w' /\
    probe_timeout <= wall w' - 0.
Proof.
  apply (waitForReady_gives_up_after_timeout url_fine unavailable ctx_live seconds
           context.TODO probe_endpoint probe_timeout probe_interval probe_start).
  - reflexivity.
  - reflexivity.
  - intros n t. eexists _, _. split_and!; [reflexivity|done|done].
  - reflexivity.
Defined.

(** ** The handler on a request whose path value was set by hand *)

Lemma patIndex_lt (names : list string) (name : string) (i : nat) :
  http.patIndex names name = Some i -> (i < length names)%nat.
Proof.
  revert i. induction names as [|n rest IH]; intros i; simpl; [done|].
  destruct (String.eqb n name).
  - intros [= <-]. lia.
  - destruct (http.patIndex rest name) as [j|]; simpl; [|done].
    intros [= <-]. specialize (IH j eq_refl). lia.
Qed.

(** [PathValue] reads what [SetPathValue] wrote. *)
Lemma PathValue_SetPathValue (r : http.Request) (name value : string) :
  length (http.pat r) = length (http.matches r) ->
  http.PathValue (http.SetPathValue name value r) name = value.
Proof.
  intros Hlen. unfold http.SetPathValue, http.PathValue.
  destruct (http.patIndex (http.pat r) name) as [i|] eqn:Hi; simpl; rewrite Hi.
  - apply patIndex_lt in Hi. rewrite Hlen in Hi.
    apply nth_lookup_Some with (d := ""). by apply list_lookup_insert_eq.
  - by rewrite lookup_insert_eq.
Qed.

(** X15. What [TestHandleHello_direct] checks holds for every name, and for
    every request the name is set on, routed or not: after
    [req.SetPathValue("name", value)] the handler answers 200 with the
    plain-text content type and greets [value]. *)
Theorem handleHello_greets_the_value_set (detect : string -> string)
    (req : http.Request) (value : string) :
  length (http.pat req) = length (http.matches req) ->
  let resp :=
    httptest.Result
      (handleHello _ (httptest.recorder_writer detect) httptest.NewRecorder
         (http.SetPathValue "name" value req)) in
  httptest.StatusCode resp = 200 /\
  http.Header_Get "Content-Type" (httptest.RespHeader resp)
  = "text/plain; charset=utf-8" /\
  httptest.RespBody resp = "Hello " +:+ value +:+ newline.
Proof.
  intros Hlen.
  destruct (handleHello_recorded detect (http.SetPathValue "name" value req))
    as (H1 & _ & _ & H3 & H4).
  cbv zeta. split_and!; [exact H1|exact H3|].
  rewrite H4. by rewrite PathValue_SetPathValue.
Qed.

Lemma handleHello_greets_the_value_set_witness :
  httptest.RespBody
    (httptest.Result
       (handleHello _ (httptest.recorder_writer (fun _ => "text/html"))
          httptest.NewRecorder (http.SetPathValue "name" "Grace" routed_request)))
  = "Hello Grace" +:+ newline.
Proof.
  refine (proj2 (proj2 (handleHello_greets_the_value_set (fun _ => "text/html")
                          routed_request "Grace" _))).
  reflexivity.
Defined.

(** ** The signals [run] listens for *)

Lemma registration_snoc (tr : list label) (l : label) :
  registration (tr ++ [l]) =
  match registration tr with
  | Some (c, rest) => Some (c, (rest ++ [l])%list)
  | None => registration [l]
  end.
Proof.
  induction tr as [|l0 tr IH]; [done|].
  destruct l0 as [t [[] x]| | | | |]; first [exact IH | done].

Qed.

Section Signals.

Variable serve : http.Server -> time.Time -> option (option error).
Variable drain : http.Server -> Context -> time.Time -> option error.
Variable getenv : EnvGetter.

Lemma signal_invariant_start :
  signal_invariant getenv [] (run_system context.Background getenv).
Proof.
  split.
  - by exists (run context.Background getenv), 0%nat.
  - simpl. split_and!; done.
Qed.

Lemma signal_invariant_step (pre : list label) (cfg cfg' : config (option error))
    (l : label) :
  signal_invariant getenv pre cfg ->
  step serve drain cfg l cfg' ->
  signal_invariant getenv (pre ++ [l]) cfg'.
Proof.
  intros [(q & n & Hts & Hex) Hw] Hstep.
  unfold signal_invariant. rewrite registration_snoc, !projs_snoc.
  destruct Hstep as [ts w t0 th0 e th' w' started Hh Ht0 Hstp Hret
                    |ts w s r ths ths' thr thr' id v Hh Hne Hs Hr Hopen Hsend Hrecv
                    |ts w t0 th0 c Hh Ht0 Hhd Hp
                    |ts w t0 th0 code Hh Ht0 Hhd
                    |ts w sig Hh
                    |ts w d Hh Hd]; simpl in *; subst ts.
  - apply replicate_lookup_main in Ht0 as [[-> ->]| ->]; [|by destruct th'].
    destruct th' as [q'|]; [|done]. simpl in Hstp.
    pose proof (lexec_snoc _ _ _ _ _ Hex Hstp) as Hex'.
    pose proof Hex' as Hpre.
    apply run_lexec in Hpre as (c1 & srv & ch & r & v & [k Hk] & _).
    apply snoc_prefix_lookup in Hk as [Hctr He].
    unfold run_trace in Hctr, He.
    remember (length (projs 0 pre)) as m eqn:Hm. clear Hm.
    destruct (negb (errors.Is r http.ErrServerClosed)); by_position Hctr He m.
    all: destruct (registration pre) as [[c0 rest]|];
      [destruct Hw as (Hhd & -> & Hnext & Hcan & Hnot);
       rewrite Hctr in Hhd; simpl in Hhd; try discriminate Hhd;
       apply (inj Some) in Hhd; apply Ev_inj in Hhd; subst c1
      |destruct Hw as (Hnil & Hnot & Hcan & Hnext);
       rewrite Hctr in Hnil; try discriminate Hnil].
    all: destruct srv as [i], ch as [j]; simpl in Hret.
    all: repeat match type of Hret with
                | context [servers ?w0 !! ?a] =>
                    destruct (servers w0 !! a) as [[s|?]|]; try done
                | context [serve ?a ?b] => destruct (serve a b); try done
                | context [chans ?w0 !! ?a] =>
                    destruct (chans w0 !! a) as [[|]|]; try done
                end.
    all: simplify_eq.
    all: (split; [first [ exists q', n; split; [by rewrite app_nil_r|done]
                        | exists q', (S n); split; [by rewrite replicate_S_end|done] ]|]).
    all: rewrite Hctr; clear Hctr.
    all: rewrite ?existsb_app; cbn [existsb stops orb]; rewrite ?orb_false_r.
    all: rewrite ?bool_decide_eq_true_2 by done; rewrite ?orb_true_r.
    all: try rewrite Hnext.
    all: simpl; split_and!; try done; try lia.
    all: try (intros _; by rewrite lookup_insert_eq).
    all: try (split; [intros H0; by apply Hcan in H0|done]).
    all: split; [done|intros _; apply elem_of_union_l; by apply elem_of_singleton].
  - exfalso.
    apply replicate_lookup_main in Hs as [[-> ->]| ->];
      apply replicate_lookup_main in Hr as [[-> ->]| ->]; try done.
    + by destruct thr'.
    + by destruct ths'.
    + by destruct ths'.
  - rewrite app_nil_r. split; [by exists q, n|].
    destruct (registration pre) as [[c0 rest]|]; [|done].
    rewrite existsb_app. simpl. by rewrite !orb_false_r.
  - rewrite app_nil_r. split; [by exists q, n|].
    destruct (registration pre) as [[c0 rest]|]; [|done].
    rewrite existsb_app. simpl. by rewrite !orb_false_r.
  - rewrite app_nil_r. split; [by exists q, n|].
    destruct (registration pre) as [[c0 rest]|].
    + destruct Hw as (Hhd & -> & Hnext & Hcan & Hnot).
      rewrite existsb_app. cbn [existsb stops]. rewrite orb_false_r.
      split_and!; try done.
      * rewrite elem_of_union, elem_of_dom.
        destruct (existsb (stops (context.Derived context.Background 0 None)) rest)
          eqn:Hrest; simpl.
        -- split; [done|]. intros _. right. by apply Hcan.
        -- specialize (Hnot eq_refl). split.
           ++ intros [[sigs Hsigs]|Hc]; [|by apply Hcan in Hc].
              apply map_lookup_filter_Some in Hsigs as [Hsigs Hin].
              rewrite Hnot in Hsigs. injection Hsigs as <-.
              by apply bool_decide_eq_true.
           ++ intros Hin%bool_decide_eq_true. left.
              exists [os.Interrupt; syscall.SIGTERM].
              by apply map_lookup_filter_Some.
      * intros [Hrest _]%orb_false_iff. by apply Hnot.
    + destruct Hw as (Hnil & Hnot & Hcan & Hnext). split_and!; try done.
      intros id [Hin|Hin]%elem_of_union; [|by apply Hcan in Hin].
      rewrite Hnot, map_filter_empty in Hin. by rewrite dom_empty in Hin.
  - rewrite app_nil_r. split; [by exists q, n|].
    destruct (registration pre) as [[c0 rest]|]; [|done].
    rewrite existsb_app. simpl. by rewrite !orb_false_r.
Qed.

Lemma signal_invariant_steps (cfg cfg' : config (option error)) (tr : list label) :
  steps serve drain cfg tr cfg' ->
  forall pre, signal_invariant getenv pre cfg -> signal_invariant getenv (pre ++ tr) cfg'.
Proof.
  induction 1 as [cfg|cfg l cfg1 tr cfg2 Hstep _ IH]; intros pre Hinv.
  - by rewrite app_nil_r.
  - rewrite cons_middle, app_assoc. apply IH. by eapply signal_invariant_step.
Qed.

(** X16. From the moment [run] has registered for signals, the context it
    works under is done exactly when a SIGINT or a SIGTERM has arrived
    since, or [run] has called the cancel function it deferred. No other
    signal ends it, and no passing of time. *)
Theorem run_context_done_iff_stopped (tr : list label) (cfg : config (option error))
    (ctx' : Context) (rest : list label) :
  steps serve drain (run_system context.Background getenv) tr cfg ->
  registration tr = Some (ctx', rest) ->
  context.done (cancelled cfg.2) (clock cfg.2) ctx' = existsb (stops ctx') rest.
Proof.
  intros Hsteps Hreg.
  pose proof (signal_invariant_steps _ _ _ Hsteps [] signal_invariant_start) as [_ Hw].
  simpl in Hw. rewrite Hreg in Hw. destruct Hw as (_ & -> & _ & Hcan & _).
  simpl. rewrite !orb_false_r.
  destruct (existsb (stops (context.Derived context.Background 0 None)) rest).
  - apply bool_decide_eq_true. by apply Hcan.
  - apply bool_decide_eq_false. intros Hin. by apply Hcan in Hin.
Qed.

End Signals.

Lemma run_context_done_iff_stopped_witness :
  context.done
    (cancelled (after_under serve_closed drain_clean run_hup
                  (run_system context.Background (fun _ => ""))).2)
    (clock (after_under serve_closed drain_clean run_hup
              (run_system context.Background (fun _ => ""))).2)
    (context.Derived context.Background 0 None)
  = false.
Proof.
  apply (run_context_done_iff_stopped serve_closed drain_clean (fun _ => "")
           (trace_under serve_closed drain_clean run_hup
              (run_system context.Background (fun _ => "")))
           _ _ [LSignal os.SIGHUP; LTick (30 * time.Second)]).
  - apply schedule_sound with (chs := run_hup). vm_compute. reflexivity.
  - vm_compute. reflexivity.
Defined.

(** ** [TestShutdown] cannot get stuck *)

Section Records.

Variable serve : http.Server -> time.Time -> option (option error).
Variable drain : http.Server -> Context -> time.Time -> option error.

Lemma exec_call_fresh (w w' : world) (c : op.call) (x : op.ret c)
    (started : list (prog unit)) :
  exec_call serve drain w c = Some (x, w', started) -> fresh w -> fresh w'.
Proof.
  intros H Hf i. specialize (Hf i).
  destruct c; simpl in H;
    repeat match type of H with
           | context [match ?s with _ => _ end] => destruct s eqn:?; try done
           end;
    simplify_eq; simpl; try done; try (intros Hi; specialize (Hf Hi); lia).
  - intros Hi. destruct (decide (i = next w)) as [->|Hne]; [lia|].
    rewrite lookup_insert_ne in Hi by done. specialize (Hf Hi). lia.
  - intros Hi. destruct (decide (i = id)) as [->|Hne].
    + apply Hf. by eexists.
    + rewrite lookup_insert_ne in Hi by done. by apply Hf.
Qed.

(** An operation that has returned is recorded in the world. *)
Lemma exec_call_records (w w' : world) (c : op.call) (x : op.ret c)
    (started : list (prog unit)) :
  exec_call serve drain w c = Some (x, w', started) -> recorded (Ev c x) w'.
Proof.
  intros H.
  destruct c; simpl in H;
    repeat match type of H with
           | context [match ?s with _ => _ end] => destruct s eqn:?; try done
           end;
    simplify_eq; simpl; try done.
  - by eexists.
  - apply elem_of_union_l. by apply elem_of_singleton.
  - by rewrite lookup_insert_eq.
  - by rewrite lookup_insert_eq.
  - by rewrite lookup_insert_eq.
Qed.

(** What is recorded stays recorded. *)
Lemma exec_call_keeps (w w' : world) (c : op.call) (x : op.ret c)
    (started : list (prog unit)) (e : event) :
  exec_call serve drain w c = Some (x, w', started) ->
  fresh w -> recorded e w -> recorded e w'.
Proof.
  intros H Hf He.
  assert (cancelled w ⊆ cancelled w' /\
          (forall i, is_Some (servers w !! i) -> is_Some (servers w' !! i)) /\
          (forall i, is_Some (chans w !! i) -> is_Some (chans w' !! i)) /\
          (forall i, chans w !! i = Some true -> chans w' !! i = Some true))
    as (Hc & Hs & Hm & Hcl).
  { destruct c; simpl in H;
      repeat match type of H with
             | context [match ?s with _ => _ end] => destruct s eqn:?; try done
             end;
      simplify_eq; simpl; split_and!; try done.
    all: try (intros i Hi; apply lookup_insert_is_Some';  by right).
    - apply union_subseteq_r.
    - intros i Hi. destruct (decide (i = next w)) as [->|Hne].
      + assert (next w < next w)%nat by (apply Hf; by eexists). lia.
      + by rewrite lookup_insert_ne.
    - intros i Hi. destruct (decide (i = id)) as [->|Hne].
      + by rewrite lookup_insert_eq.
      + by rewrite lookup_insert_ne. }
  destruct e as [c0 x0]. destruct c0; simpl in *; try done.
  - destruct ctx; try done. by apply Hc.
  - destruct x0. by apply Hs.
  - destruct x0. by apply Hm.
  - destruct ch. by apply Hcl.
Qed.

Lemma recorded_same_maps (w w' : world) (e : event) :
  cancelled w ⊆ cancelled w' -> servers w' = servers w -> chans w' = chans w ->
  recorded e w -> recorded e w'.
Proof.
  intros Hc Hs Hm. destruct e as [c x]. destruct c; simpl; try done.
  - destruct ctx; try done. apply Hc.
  - destruct x. by rewrite Hs.
  - destruct x. by rewrite Hm.
  - destruct ch. by rewrite Hm.
Qed.

Lemma step_records {R : Type} (cfg cfg' : config R) (l : label) :
  step serve drain cfg l cfg' ->
  fresh cfg.2 ->
  fresh cfg'.2 /\
  (forall e, recorded e cfg.2 -> recorded e cfg'.2) /\
  (forall t e, e ∈ proj t l -> recorded e cfg'.2).
Proof.
  intros Hstep Hf.
  destruct Hstep as [ts w t0 th0 e th' w' started Hh Ht0 Hstp Hret
                    |ts w s r ths ths' thr thr' id v Hh Hne Hs Hr Hopen Hsend Hrecv
                    |ts w t0 th0 c Hh Ht0 Hhd Hp
                    |ts w t0 th0 code Hh Ht0 Hhd
                    |ts w sig Hh
                    |ts w d Hh Hd]; simpl in *.
  - destruct e as [c x]. simpl in Hret. split_and!.
    + by eapply exec_call_fresh.
    + intros e He. by eapply exec_call_keeps.
    + intros t e He. destruct (t =? t0)%nat; [|by apply elem_of_nil in He].
      apply list_elem_of_singleton in He as ->. by eapply exec_call_records.
  - split_and!; try done. intros t e He.
    apply elem_of_app in He as [He|He].
    + destruct (t =? s)%nat; [|by apply elem_of_nil in He].
      by apply list_elem_of_singleton in He as ->.
    + destruct (t =? r)%nat; [|by apply elem_of_nil in He].
      by apply list_elem_of_singleton in He as ->.
  - split_and!; [exact Hf| |].
    + intros e. by apply recorded_same_maps.
    + intros t e He. by apply elem_of_nil in He.
  - split_and!; [exact Hf| |].
    + intros e. by apply recorded_same_maps.
    + intros t e He. by apply elem_of_nil in He.
  - split_and!; [exact Hf| |].
    + intros e. apply recorded_same_maps; try done. apply union_subseteq_r.
    + intros t e He. by apply elem_of_nil in He.
  - split_and!; [exact Hf| |].
    + intros e. by apply recorded_same_maps.
    + intros t e He. by apply elem_of_nil in He.
Qed.

(** Every operation of an execution is recorded in its last state. *)
Lemma steps_records {R : Type} (cfg cfg' : config R) (tr : list label) :
  steps serve drain cfg tr cfg' ->
  fresh cfg.2 ->
  fresh cfg'.2 /\
  (forall e, recorded e cfg.2 -> recorded e cfg'.2) /\
  (forall t e, e ∈ projs t tr -> recorded e cfg'.2).
Proof.
  induction 1 as [cfg|cfg l cfg1 tr cfg2 Hstep _ IH]; intros Hf.
  - split_and!; try done. intros t e He. by apply elem_of_nil in He.
  - destruct (step_records _ _ _ Hstep Hf) as (Hf1 & Hk1 & Hr1).
    destruct (IH Hf1) as (Hf2 & Hk2 & Hr2).
    split_and!; try done.
    + intros e He. by apply Hk2, Hk1.
    + intros t e He. unfold projs in He. simpl in He.
      apply elem_of_app in He as [He|He]; [|by eapply Hr2].
      by eapply Hk2, Hr1.
Qed.

End Records.

Lemma fresh_boot : fresh boot.
Proof. intros i [x Hx]. simpl in Hx. by rewrite lookup_empty in Hx. Qed.

(** A goroutine whose next operation can return can take a step. *)
Lemma head_step {R : Type} (th : thread R) (c : op.call) (x : op.ret c) :
  head th = Some c -> exists th', thread_step th (Ev c x) th'.
Proof.
  destruct th as [[|c' k]|[|c' k]]; simpl; try done; intros [= ->].
  - exists (Main (k x)). by exists x.
  - exists (Goroutine (k x)). by exists x.
Qed.

(** Where the test is, after the operations it has done. *)
Lemma TestShutdown_head (returns : option error) (tr : list event)
    (q : prog (option error)) :
  lexec (TestShutdown returns) tr q ->
  exists ctx ch m v,
    tr `prefix_of` test_trace returns ctx ch m v /\
    head (Main q) = map call_of (test_trace returns ctx ch m v) !! length tr.
Proof.
  intros H. unfold TestShutdown, perform in H.
  lexec_inv H ctx.
  { exists context.Background, (Chan 0), (Ptr 0), None. split; [by eexists|done]. }
  lexec_inv H ch. { exists ctx, (Chan 0), (Ptr 0), None. split; [by eexists|done]. }
  lexec_inv H m. { exists ctx, ch, (Ptr 0), None. split; [by eexists|done]. }
  lexec_inv H x4. { exists ctx, ch, m, None. split; [by eexists|done]. }
  lexec_inv H x5. { exists ctx, ch, m, None. split; [by eexists|done]. }
  lexec_inv H v. { exists ctx, ch, m, None. split; [by eexists|done]. }
  exists ctx, ch, m, v. lexec_end H. split; [by exists []|done].
Qed.

(** Where the coordinator is, after the operations it has done. *)
Lemma shutdown_head (ctx : Context) (m : ptr) (ch : chan) (d : time.Duration)
    (tr : list event) (p : prog unit) :
  lexec (shutdown ctx m ch d) tr p ->
  exists sctx err,
    tr `prefix_of` coordinator_trace ctx m ch d sctx err /\
    head (@Goroutine (option error) p)
    = map call_of (coordinator_trace ctx m ch d sctx err) !! length tr.
Proof.
  intros H. unfold shutdown, perform, defer in H. cbn in H.
  lexec_inv H x1.
  { exists context.Background, None. split; [by eexists|done]. }
  lexec_inv H sctx. { exists context.Background, None. split; [by eexists|done]. }
  lexec_inv H x3. { exists sctx, None. split; [by eexists|done]. }
  lexec_inv H err. { exists sctx, None. split; [by eexists|done]. }
  exists sctx, err. destruct err as [e0|]; cbn in H.
  - lexec_inv H y1. { split; [by eexists|done]. }
    lexec_inv H y2. { split; [by eexists|done]. }
    lexec_inv H y3. { split; [by eexists|done]. }
    lexec_end H. split; [by exists []|done].
  - lexec_inv H y1. { split; [by eexists|done]. }
    lexec_inv H y2. { split; [by eexists|done]. }
    lexec_end H. split; [by exists []|done].
Qed.

Section TestProgress.

Variable serve : http.Server -> time.Time -> option (option error).
Variable drain : http.Server -> Context -> time.Time -> option error.
Variable returns : option error.

Lemma can_move {R : Type} (ts : list (thread R)) (w : world) (t : nat)
    (th : thread R) (c : op.call) :
  halted w = None -> ts !! t = Some th -> head th = Some c ->
  is_Some (exec_call serve drain w c) ->
  exists l cfg', step serve drain (ts, w) l cfg' /\ is_move l = true.
Proof.
  intros Hh Ht Hhd [[[x w'] st] Hx].
  destruct (head_step th c x Hhd) as [th' Hth'].
  eexists (LCall t (Ev c x)), _. split; [|done]. by eapply step_call.
Qed.

Lemma can_sync {R : Type} (ts : list (thread R)) (w : world) (s r : nat)
    (ths thr : thread R) (id : nat) (v : option error) :
  halted w = None -> s <> r -> ts !! s = Some ths -> ts !! r = Some thr ->
  chans w !! id = Some false ->
  head ths = Some (op.Send (Chan id) v) -> head thr = Some (op.Recv (Chan id)) ->
  exists l cfg', step serve drain (ts, w) l cfg' /\ is_move l = true.
Proof.
  intros Hh Hne Hs Hr Hopen Hhs Hhr.
  destruct (head_step ths (op.Send (Chan id) v) tt Hhs) as [ths' Hths'].
  destruct (head_step thr (op.Recv (Chan id)) v Hhr) as [thr' Hthr'].
  eexists (LSync s r (Chan id) v), _. split; [|done]. by eapply step_sync.
Qed.

(** X17. A sub-test of [TestShutdown] cannot get stuck: in every state an
    execution reaches, whatever the schedule, the signals and the passing
    of time, either the test has returned, or one of the two goroutines
    can take its next step. And the test does at most six operations, the
    coordinator at most seven: so the test returns under every schedule
    that lets a goroutine move when one can. *)
Theorem TestShutdown_never_stuck (tr : list label) (cfg : config (option error)) :
  steps serve drain (test_system returns) tr cfg ->
  ((length (projs 0 tr) <= 6)%nat /\ (length (projs 1 tr) <= 7)%nat) /\
  ((exists v, cfg.1 !! 0%nat = Some (Main (Ret v))) \/
   exists l cfg', step serve drain cfg l cfg' /\ is_move l = true).
Proof.
  intros Hsteps.
  pose proof (test_invariant_steps _ _ _ _ _ _ Hsteps [] (test_invariant_start _)) as Hinv.
  destruct (steps_records _ _ _ _ _ Hsteps fresh_boot) as (_ & _ & Hrec).
  destruct cfg as [ts w].
  destruct Hinv as (Hshape & Hhalt & Hchan & Hsrv & Hdrain & Hsend & Hrecv).
  unfold test_shape in Hshape. simpl in *.
  destruct Hshape as [(q & -> & Hq & Hnil & Hgo)
                     |(q & p & ctx & m & ch & -> & Hq & Hp & Hgo)].
  - destruct (TestShutdown_head _ _ _ Hq) as (ctx & ch & m & v & Hpre & Hhd).
    split.
    { split; [by apply prefix_length_le in Hpre|rewrite Hnil; simpl; lia]. }
    right. apply prefix_take in Hpre. unfold test_trace in Hpre, Hhd.
    remember (length (projs 0 tr)) as n eqn:Hn. clear Hn.
    destruct n as [|[|[|[|n]]]]; cbn in Hpre, Hhd.
    1-4: by (eapply (can_move _ _ 0%nat); [done|done|exact Hhd|by eexists]).
    rewrite Hpre in Hgo. discriminate Hgo.
  - destruct (TestShutdown_head _ _ _ Hq) as (ctx0 & ch0 & m0 & v & Hpre & Hhd).
    destruct (shutdown_head _ _ _ _ _ _ Hp) as (sctx & err & Hpre' & Hhd').
    split.
    { split; [by apply prefix_length_le in Hpre|].
      apply prefix_length_le in Hpre'. unfold coordinator_trace in Hpre'.
      destruct err; simpl in Hpre'; lia. }
    apply prefix_take in Hpre. unfold test_trace in Hpre, Hhd.
    remember (length (projs 0 tr)) as n eqn:Hn. clear Hn.
    destruct n as [|[|[|[|[|[|n]]]]]]; cbn in Hpre, Hhd.
    1-4: (exfalso; rewrite Hpre in Hgo; not_mem Hgo).
    + (* the test is about to cancel *)
      right. eapply (can_move _ _ 0%nat); [done|done|exact Hhd|].
      simpl. destruct ctx0; by eexists.
    + (* the test is about to receive *)
      right.
      assert (ctx = ctx0 /\ m = m0 /\ ch = ch0) as (-> & -> & ->).
      { rewrite Hpre in Hgo.
        repeat (apply elem_of_cons in Hgo as [Hgo|Hgo]; [try discriminate Hgo|]);
          [|by apply elem_of_nil in Hgo].
        apply (f_equal spawned) in Hgo. simpl in Hgo. by simplify_eq. }
      assert (exists id, ctx0 = context.Derived context.TODO id None /\ id ∈ cancelled w)
        as (id & -> & Hid).
      { destruct (Hrec 0%nat (Ev (op.WithCancel context.TODO) ctx0)) as [id ->].
        { rewrite Hpre. apply list_elem_of_lookup. by exists 0%nat. }
        exists id. split; [done|].
        apply (Hrec 0%nat (Ev (op.Cancel (context.Derived context.TODO id None)) tt)).
        rewrite Hpre. apply list_elem_of_lookup. by exists 4%nat. }
      destruct m0 as [i], ch0 as [c].
      assert (servers w !! i = Some (MockServer {| Returns := returns |})) as Ho.
      { destruct (Hrec 0%nat (Ev (op.New (MockServer {| Returns := returns |})) (Ptr i)))
          as [o Ho].
        { rewrite Hpre. apply list_elem_of_lookup. by exists 2%nat. }
        by rewrite (Hsrv i o Ho) in Ho. }
      assert (is_Some (chans w !! c)) as [b Hb].
      { apply (Hrec 0%nat (Ev op.Make (Chan c))).
        rewrite Hpre. apply list_elem_of_lookup. by exists 1%nat. }
      assert (Ev (op.Close (Chan c)) tt ∈ projs 1 tr -> chans w !! c = Some true) as Hclosed.
      { intros Hin. by apply (Hrec 1%nat (Ev (op.Close (Chan c)) tt)). }
      assert (Ev (op.Close (Chan c)) tt ∉ projs 1 tr -> chans w !! c = Some false) as Hopen.
      { intros Hnot. destruct b; [|done]. exfalso. by apply Hnot, Hchan. }
      clear Hrec Hb b.
      apply prefix_take in Hpre'. unfold coordinator_trace in Hpre', Hhd'.
      remember (length (projs 1 tr)) as j eqn:Hj. clear Hj.
      destruct err as [e0|]; destruct j as [|[|[|[|[|[|[|j]]]]]]]; cbn in Hpre', Hhd';
        rewrite ?take_nil in Hpre'.
      all: try (eapply (can_move _ _ 1%nat); [done|done|exact Hhd'|]; simpl;
                first [ by eexists
                      | rewrite bool_decide_eq_true_2 by done; by eexists
                      | rewrite Ho; by eexists
                      | destruct sctx; by eexists
                      | rewrite Hopen;
                        [by eexists|rewrite Hpre'; intros Hin; not_mem Hin] ]).
      all: try (eapply (can_sync _ _ 1%nat 0%nat);
                [done|done|done|done| |exact Hhd'|exact Hhd];
                apply Hopen; rewrite Hpre'; intros Hin; not_mem Hin).
      all: eapply (can_move _ _ 0%nat); [done|done|exact Hhd|]; simpl;
        rewrite Hclosed; [by eexists|]; rewrite Hpre'; apply list_elem_of_lookup;
        first [by exists 4%nat | by exists 5%nat].
    + (* the test has returned *)
      left. destruct q as [v0|c k]; [by exists v0|discriminate Hhd].
Qed.

End TestProgress.

Lemma TestShutdown_never_stuck_witness :
  ((length (projs 0 (trace_of test_midway (test_system None))) <= 6)%nat /\
   (length (projs 1 (trace_of test_midway (test_system None))) <= 7)%nat) /\
  ((exists v, (after test_midway (test_system None)).1 !! 0%nat = Some (Main (Ret v))) \/
   exists l cfg',
     step serve_until_shutdown drain_clean (after test_midway (test_system None)) l cfg' /\
     is_move l = true).
Proof.
  apply (TestShutdown_never_stuck serve_until_shutdown drain_clean None
           (trace_of test_midway (test_system None))
           (after test_midway (test_system None))).
  apply schedule_sound with (chs := test_midway). vm_compute. reflexivity.
Defined.

(** ** The deadline of the drain *)

Section Deadline.

Variable serve : http.Server -> time.Time -> option (option error).
Variable drain : http.Server -> Context -> time.Time -> option error.

(** A context made by [WithTimeout] is a new child of its parent, due the
    given time after the call. *)
Lemma step_timeout {R : Type} (cfg cfg' : config R) (l : label) (t : nat)
    (parent : Context) (d : time.Duration) (x : Context) :
  step serve drain cfg l cfg' ->
  Ev (op.WithTimeout parent d) x ∈ proj t l ->
  exists id, x = context.Derived parent id (Some (clock cfg.2 + d)).
Proof.
  intros Hstep Hin.
  destruct Hstep as [ts w t0 th0 e th' w' started Hh Ht0 Hstp Hret
                    |ts w s r ths ths' thr thr' id v Hh Hne Hs Hr Hopen Hsend Hrecv
                    |ts w t0 th0 c Hh Ht0 Hhd Hp
                    |ts w t0 th0 code Hh Ht0 Hhd
                    |ts w sig Hh
                    |ts w d0 Hh Hd]; simpl in *;
    try (by apply elem_of_nil in Hin).
  - destruct (t =? t0)%nat; [|by apply elem_of_nil in Hin].
    apply list_elem_of_singleton in Hin as <-. simpl in Hret.
    exists (next w). congruence.
  - apply elem_of_app in Hin as [Hin|Hin].
    + destruct (t =? s)%nat; [|by apply elem_of_nil in Hin].
      by apply list_elem_of_singleton in Hin.
    + destruct (t =? r)%nat; [|by apply elem_of_nil in Hin].
      by apply list_elem_of_singleton in Hin.
Qed.

Lemma steps_timeout {R : Type} (cfg cfg' : config R) (tr : list label) (t : nat)
    (parent : Context) (d : time.Duration) (x : Context) :
  steps serve drain cfg tr cfg' ->
  Ev (op.WithTimeout parent d) x ∈ projs t tr ->
  exists id t0,
    x = context.Derived parent id (Some (t0 + d)) /\
    clock cfg.2 <= t0 <= clock cfg'.2.
Proof.
  induction 1 as [cfg|cfg l cfg1 tr cfg2 Hstep Hrest IH]; intros Hin.
  - by apply elem_of_nil in Hin.
  - unfold projs in Hin. simpl in Hin.
    pose proof (step_mono _ _ _ _ _ Hstep) as [_ H1].
    pose proof (steps_mono _ _ _ _ _ Hrest) as [_ H2].
    apply elem_of_app in Hin as [Hin|Hin].
    + destruct (step_timeout _ _ _ _ _ _ _ Hstep Hin) as [id ->].
      exists id, (clock cfg.2). split; [done|lia].
    + destruct (IH Hin) as (id & t0 & -> & Ht0). exists id, t0. split; [done|lia].
Qed.

(** X18. For the coordinator as a goroutine of any system, under any
    interleaving: the context it hands to [Shutdown] is a child of
    [context.Background], not of the lifecycle context that has just been
    cancelled, and it is due the grace period after a moment of the
    execution. So the drain is given the whole grace period. *)
Theorem shutdown_drains_under_a_new_deadline {R : Type}
    (cfg cfg' : config R) (tr : list label) (t : nat)
    (ctx : Context) (srv srv' : ptr) (ch : chan) (d : time.Duration)
    (sctx : Context) (err : option error) :
  cfg.1 !! t = Some (Goroutine (shutdown ctx srv ch d)) ->
  steps serve drain cfg tr cfg' ->
  Ev (op.Shutdown srv' sctx) err ∈ projs t tr ->
  srv' = srv /\
  exists id t0,
    sctx = context.Derived context.Background id (Some (t0 + d)) /\
    clock cfg.2 <= t0 <= clock cfg'.2.
Proof.
  intros Ht Hsteps Hin.
  destruct (coordinator_observed _ _ _ _ _ _ _ _ _ _ Ht Hsteps)
    as (q & sctx0 & err0 & _ & [k Hk] & _).
  assert (srv' = srv /\ sctx = sctx0 /\
          Ev (op.WithTimeout context.Background d) sctx0 ∈ projs t tr) as (-> & -> & Hw).
  { assert (Ev (op.Shutdown srv' sctx) err
              ∈ coordinator_trace ctx srv ch d sctx0 err0) as Hin'.
    { rewrite Hk. apply elem_of_app. by left. }
    apply (list_elem_of_fmap_2 drain_of) in Hin'. unfold coordinator_trace in Hin', Hk.
    assert (srv' = srv /\ sctx = sctx0) as [-> ->].
    { destruct err0; cbn in Hin';
        repeat (apply elem_of_cons in Hin' as [Hin'|Hin']; [by simplify_eq|]);
        by apply elem_of_nil in Hin'. }
    split_and!; try done.
    cbn in Hk.
    destruct (projs t tr) as [|e1 [|e2 [|e3 [|e4 l]]]]; simpl in Hk; simplify_eq;
      try (repeat (apply elem_of_cons in Hin as [Hin|Hin]; [discriminate|]);
           by apply elem_of_nil in Hin).
    apply list_elem_of_lookup. by exists 1%nat. }
  split; [done|]. by eapply steps_timeout.
Qed.

End Deadline.

Lemma shutdown_drains_under_a_new_deadline_witness :
  Ptr 2 = Ptr 2 /\
  exists id t0,
    context.Derived context.Background 3 (Some time.Second)
    = context.Derived context.Background id (Some (t0 + time.Second)) /\
    clock (harness (Some errors.Canceled)).2 <= t0
    <= clock (after harness_failing (harness (Some errors.Canceled))).2.
Proof.
  apply (shutdown_drains_under_a_new_deadline serve_until_shutdown drain_clean
           (harness (Some errors.Canceled))
           (after harness_failing (harness (Some errors.Canceled)))
           (trace_of harness_failing (harness (Some errors.Canceled)))
           1 (context.Derived context.TODO 0 None) (Ptr 2) (Ptr 2) (Chan 1) time.Second
           (context.Derived context.Background 3 (Some time.Second))
           (Some errors.Canceled)).
  - vm_compute. reflexivity.
  - apply schedule_sound with (chs := harness_failing). vm_compute. reflexivity.
  - vm_compute. apply list_elem_of_lookup. by exists 3%nat.
Defined.

(** ** The end of the process *)

Lemma written_snoc (acc : string) (tr : list event) (e : event) :
  written acc (tr ++ [e]) = written (written acc tr) [e].
Proof.
  revert acc. induction tr as [|[c x] tr IH]; intros acc; [done|].
  destruct c; simpl; apply IH.
Qed.

Lemma written_run (acc : string) (tr : list event) :
  Forall (fun e => run_event e = true) tr -> written acc tr = acc.
Proof.
  revert acc. induction tr as [|[c x] tr IH]; intros acc Hall; [done|].
  apply Forall_cons in Hall as [He Hall].
  destruct c; try discriminate He; simpl; by apply IH.
Qed.

Lemma replicate_lookup_thread {R : Type} (q : prog R) (n t : nat) (th : thread R) :
  (Main q :: replicate n (Goroutine (Ret tt))) !! t = Some th ->
  (t = 0%nat /\ th = Main q) \/ th = Goroutine (Ret tt).
Proof.
  destruct t as [|t]; simpl.
  - intros [= <-]. by left.
  - intros H. apply lookup_replicate in H as [-> _]. by right.
Qed.

(** What [main] does is what [run] does, and then at most one write to
    standard error. *)
Lemma main_event (environ : gmap string string) (tr : list event) (e : event)
    (q : prog unit) :
  lexec (main environ) (tr ++ [e]) q ->
  run_event e = true \/ exists text, e = Ev (op.Stderr text) tt.
Proof.
  unfold main. intros H.
  change (lexec (bind (run context.Background (os.Getenv environ))
                   (fun err => match err with
                    | Some e =>
                        _ ← perform (op.Stderr (fmt.Sprintf ("%s" +:+ newline) [errors.Error e]));
                        Do (op.Exit errorExitCode) (fun x : Empty_set => match x with end)
                    | None => mret tt
                    end)) (tr ++ [e]) q) in H.
  apply lexec_bind in H as [(p' & Hp' & _)|(tr1 & tr2 & r & Heq & H1 & H2)].
  - left. apply run_lexec_events in Hp'.
    apply Forall_app in Hp' as [_ Hp']. by rewrite Forall_singleton in Hp'.
  - assert (tr2 = [] -> run_event e = true) as Hrun.
    { intros ->. rewrite app_nil_r in Heq. subst tr1.
      apply run_lexec_events in H1.
      apply Forall_app in H1 as [_ H1]. by rewrite Forall_singleton in H1. }
    destruct r as [e0|]; cbn in H2.
    + lexec_inv H2 x; [by left; apply Hrun|].
      destruct tr2 as [|e2 tr2]; [|by destruct H2 as (? & [[] _] & _)].
      apply app_inj_tail in Heq as [_ ->]. right. by eexists.
    + destruct tr2 as [|e2 tr2]; [by left; apply Hrun|by destruct H2 as (? & [] & _)].
Qed.

Section Process.

Variable serve : http.Server -> time.Time -> option (option error).
Variable drain : http.Server -> Context -> time.Time -> option error.
Variable environ : gmap string string.

Lemma main_invariant_start : main_invariant environ [] (main_system environ).
Proof. exists (main environ), 0%nat. split_and!; done. Qed.

Lemma main_invariant_step (pre : list label) (cfg cfg' : config unit) (l : label) :
  main_invariant environ pre cfg ->
  step serve drain cfg l cfg' ->
  main_invariant environ (pre ++ [l]) cfg'.
Proof.
  intros (q & n & Hts & Hex & Hch & Herr & Hhalt) Hstep.
  unfold main_invariant. rewrite !projs_snoc.
  destruct Hstep as [ts w t0 th0 e th' w' started Hh Ht0 Hstp Hret
                    |ts w s r ths ths' thr thr' id v Hh Hne Hs Hr Hopen Hsend Hrecv
                    |ts w t0 th0 c Hh Ht0 Hhd Hp
                    |ts w t0 th0 code Hh Ht0 Hhd
                    |ts w sig Hh
                    |ts w d Hh Hd]; simpl in *; subst ts.
  - apply replicate_lookup_thread in Ht0 as [[-> ->]| ->]; [|by destruct th'].
    destruct th' as [q'|]; [|done]. simpl in Hstp.
    pose proof (lexec_snoc _ _ _ _ _ Hex Hstp) as Hex'.
    rewrite written_snoc, <- Herr.
    assert ((forall i, chans w' !! i <> Some true) /\
            (started = [] \/ started = [Ret tt]) /\
            stderr w' = written (stderr w) [e] /\ halted w' = None)
      as (Hch' & Hst & Herr' & Hh').
    { destruct (main_event _ _ _ _ Hex') as [Hev|[text ->]].
      - destruct e as [c x]. destruct c; try discriminate Hev; simpl in Hret.
        + injection Hret as <- <- <-. split_and!; [exact Hch|by left|done|done].
        + destruct ctx; injection Hret as <- <- <-;
            (split_and!; [exact Hch|by left|done|done]).
        + injection Hret as <- <- <-. split_and!; [exact Hch|by left|done|done].
        + destruct srv as [i]. destruct (servers w !! i) as [[s|m]|]; try done.
          destruct (serve s (clock w)); [|done].
          injection Hret as <- <- <-. split_and!; [exact Hch|by left|done|done].
        + injection Hret as <- <- <-. split_and!; [|by left|done|done].
          intros i. simpl. destruct (decide (next w = i)) as [->|Hmi].
          * by rewrite lookup_insert_eq.
          * rewrite lookup_insert_ne by done. apply Hch.
        + destruct ch as [i]. destruct (chans w !! i) as [[|]|] eqn:Hc; try done.
          by destruct (Hch i).
        + destruct g; try discriminate Hev.
          injection Hret as <- <- <-. split_and!; [exact Hch|by right|done|done].
      - simpl in Hret. injection Hret as <- <-.
        split_and!; [exact Hch|by left|done|done]. }
    exists q', (n + length started)%nat. rewrite Hh'. split_and!; try done.
    simpl. destruct Hst as [-> | ->]; simpl.
    + by rewrite app_nil_r, Nat.add_0_r.
    + rewrite Nat.add_1_r. by rewrite replicate_S_end.
  - exfalso.
    apply replicate_lookup_thread in Hs as [[-> ->]| ->];
      apply replicate_lookup_thread in Hr as [[-> ->]| ->]; try done.
    + by destruct thr'.
    + by destruct ths'.
    + by destruct ths'.
  - exfalso. destruct c; simpl in Hp; try discriminate Hp;
      (destruct ch as [i]; destruct (chans w !! i) as [[|]|] eqn:Hc;
       try discriminate Hp; by destruct (Hch i)).
  - rewrite app_nil_r. exists q, n. split_and!; try done.
    apply replicate_lookup_thread in Ht0 as [[-> ->]| ->]; done.
  - rewrite app_nil_r. exists q, n. rewrite Hh. split_and!; done.
  - rewrite app_nil_r. exists q, n. rewrite Hh. split_and!; done.
Qed.

Lemma main_invariant_steps (cfg cfg' : config unit) (tr : list label) :
  steps serve drain cfg tr cfg' ->
  forall pre, main_invariant environ pre cfg -> main_invariant environ (pre ++ tr) cfg'.
Proof.
  induction 1 as [cfg|cfg l cfg1 tr cfg2 Hstep _ IH]; intros pre Hinv.
  - by rewrite app_nil_r.
  - rewrite cons_middle, app_assoc. apply IH. by eapply main_invariant_step.
Qed.

(** X19. The program as a whole, under every schedule, with any signals,
    any passing of time and any behaviour of the server: the process
    never panics. When it has ended by [os.Exit], the status is 1, [run]
    had returned an error, and standard error holds the text of that
    error and a newline, nothing else. When [main] has returned, nothing
    was written to standard error and [run] had returned nil. *)
Theorem main_ends_with_status_1_and_the_error (tr : list label) (cfg : config unit) :
  steps serve drain (main_system environ) tr cfg ->
  halted cfg.2 <> Some Crashed /\
  (forall code, halted cfg.2 = Some (Exited code) ->
     code = 1 /\
     exists e tr',
       stderr cfg.2 = errors.Error e +:+ newline /\
       projs 0 tr = (tr' ++ [Ev (op.Stderr (errors.Error e +:+ newline)) tt])%list /\
       lexec (run context.Background (os.Getenv environ)) tr' (Ret (Some e))) /\
  (cfg.1 !! 0%nat = Some (Main (Ret tt)) ->
     halted cfg.2 = None /\ stderr cfg.2 = "" /\
     lexec (run context.Background (os.Getenv environ)) (projs 0 tr) (Ret None)).
Proof.
  intros Hsteps.
  destruct (main_invariant_steps _ _ _ Hsteps [] main_invariant_start)
    as (q & n & Hts & Hex & _ & Herr & Hhalt).
  simpl in Hex, Herr.
  destruct (main_lexec _ _ _ Hex) as [Hexit Hret].
  split_and!.
  - intros Hc. by rewrite Hc in Hhalt.
  - intros code Hc. rewrite Hc in Hhalt.
    apply Hexit in Hhalt as (-> & e & tr' & Htr & Hrun).
    split; [done|]. exists e, tr'. split_and!; try done.
    rewrite Herr, Htr, written_snoc.
    rewrite (written_run _ _ (run_lexec_events _ _ _ _ Hrun)). done.
  - intros H0. rewrite Hts in H0. injection H0 as ->.
    pose proof (proj1 Hret I) as Hrun. split_and!; try done.
    + destruct (halted cfg.2) as [[|code]|]; done.
    + rewrite Herr. by apply written_run, (run_lexec_events _ _ _ _ Hrun).
Qed.

End Process.

Lemma main_ends_with_status_1_and_the_error_witness :
  halted (after_under serve_fails drain_clean main_demo (main_system main_demo_environ)).2
  = Some (Exited 1) /\
  stderr (after_under serve_fails drain_clean main_demo (main_system main_demo_environ)).2
  = errors.Error bind_failure +:+ newline /\
  halted (after_under serve_fails drain_clean main_demo (main_system main_demo_environ)).2
  <> Some Crashed.
Proof.
  split; [vm_compute; reflexivity|]. split; [vm_compute; reflexivity|].
  apply (main_ends_with_status_1_and_the_error serve_fails drain_clean main_demo_environ
           (trace_under serve_fails drain_clean main_demo (main_system main_demo_environ))).
  apply schedule_sound with (chs := main_demo). vm_compute. reflexivity.
Defined.
